(** * container4c: the generic doubly linked list of [source/list.c]

    A shallow embedding of [list.c] / [list.h] over an explicit store, and
    the properties of the list that follow from the code.

    Memory is a finite map from addresses to structs, one map for each of
    the three structs of [list.h]; every C function is a computation in a small state-and-fault monad that
    reads and writes one struct field at a time, in the order of the C
    statements.  A computation either finishes with the C return value and
    the new state, or stops on an invalid memory access, or (loops driven by
    an iterator only) runs out of fuel. *)

From Stdlib Require Import ZArith Lia.
From stdpp Require Import base option gmap.
From stdpp Require Import list.

Local Open Scope Z_scope.
Set Warnings "-clear-no-such-hyp,-implicit-create-rewrite-hint-db".

(* ===================================================================== *)
(** ** Data model ([list.h]) *)
(* ===================================================================== *)

(** A pointer is its address; [NULL] is address 0.  Values ([void *]) and
    function pointers are addresses as well. *)
Abbreviation ptr := Z (only parsing).
Definition NULL : ptr := 0.

(** [unsigned long] and [long] on an LP64 target. *)
Definition ULONG_MODULUS : Z := 2 ^ 64.
Definition LONG_MIN : Z := - 2 ^ 63.
Definition LONG_MAX : Z := 2 ^ 63 - 1.

(** Arithmetic on [unsigned long] wraps modulo [2^64]. *)
Definition wrap_ulong (z : Z) : Z := z mod ULONG_MODULUS.

(** Arithmetic on [long], two's complement wrap-around written out. *)
Definition wrap_long (z : Z) : Z :=
  (z + 2 ^ 63) mod ULONG_MODULUS - 2 ^ 63.

(** Directions for iterators. *)
Definition _START_HEAD : Z := 0.
Definition _START_TAIL : Z := 1.

(** [struct list_node] *)
Record list_node : Type := mk_node {
  prev : ptr;
  next : ptr;
  value : ptr
}.

(** [struct list_iter]; its field [next] is [iter_next] here. *)
Record list_iter : Type := mk_iter {
  iter_next : ptr;
  direction : Z
}.

(** [struct list]; the field [match] is [match_fn] here. *)
Record list_t : Type := mk_list {
  head : ptr;
  tail : ptr;
  dup : ptr;
  free : ptr;
  match_fn : ptr;
  len : Z
}.

(** Calls of the caller-supplied callbacks, as seen from outside the list:
    [EvDup f v r] is a call [f(v)] of a [dup] callback that returned [r],
    [EvFree f v] a call [f(v)] of a [free] callback. *)
Inductive event : Type :=
| EvDup (f arg res : ptr)
| EvFree (f arg : ptr).

(** The state of the world.  The store is kept by struct type: the live
    nodes, iterators and lists, each under its address (one address space:
    no address is live in two of the maps, see [usable]).  [script] holds
    the answers the allocator is still going to give (see [zmalloc]) and
    [calls] the callback calls made so far, the most recent last.
    [stale] is what memory that is not in use holds, field by field (the
    fields of a struct numbered from 0 in the order of its declaration):
    the contents of a block at the moment it is allocated.  Nothing is
    known about it. *)
Record state : Type := mk_state {
  nodes : gmap Z list_node;
  iters : gmap Z list_iter;
  lists : gmap Z list_t;
  script : list ptr;
  calls : list event;
  stale : ptr → nat → Z
}.

Definition set_nodes (st : state) (m : gmap Z list_node) : state :=
  mk_state m (iters st) (lists st) (script st) (calls st) (stale st).
Definition set_iters (st : state) (m : gmap Z list_iter) : state :=
  mk_state (nodes st) m (lists st) (script st) (calls st) (stale st).
Definition set_lists (st : state) (m : gmap Z list_t) : state :=
  mk_state (nodes st) (iters st) m (script st) (calls st) (stale st).
Definition set_script (st : state) (s : list ptr) : state :=
  mk_state (nodes st) (iters st) (lists st) s (calls st) (stale st).

(* ===================================================================== *)
(** ** The monad of C computations *)
(* ===================================================================== *)

Inductive outcome (A : Type) : Type :=
| Done (a : A) (st : state)
| Fault
| OutOfFuel.
Arguments Done {A} a st.
Arguments Fault {A}.
Arguments OutOfFuel {A}.

Definition M (A : Type) : Type := state → outcome A.

#[export] Instance M_ret : MRet M := λ A a st, Done a st.
#[export] Instance M_bind : MBind M := λ A B f m st,
  match m st with
  | Done a st' => f a st'
  | Fault => Fault
  | OutOfFuel => OutOfFuel
  end.

Definition out_of_fuel {A} : M A := λ _, OutOfFuel.

(** Reading or writing through a pointer that does not point to a live
    struct of the right type is an invalid access. *)
Definition read_node (p : ptr) : M list_node := λ st,
  match nodes st !! p with Some n => Done n st | None => Fault end.
Definition write_node (p : ptr) (n : list_node) : M unit := λ st,
  match nodes st !! p with
  | Some _ => Done tt (set_nodes st (<[p := n]> (nodes st)))
  | None => Fault
  end.
Definition read_iter (p : ptr) : M list_iter := λ st,
  match iters st !! p with Some i => Done i st | None => Fault end.
Definition write_iter (p : ptr) (i : list_iter) : M unit := λ st,
  match iters st !! p with
  | Some _ => Done tt (set_iters st (<[p := i]> (iters st)))
  | None => Fault
  end.
Definition read_list (p : ptr) : M list_t := λ st,
  match lists st !! p with Some l => Done l st | None => Fault end.
Definition write_list (p : ptr) (l : list_t) : M unit := λ st,
  match lists st !! p with
  | Some _ => Done tt (set_lists st (<[p := l]> (lists st)))
  | None => Fault
  end.

(** Field assignments [p->f = v]. *)
Definition set_prev (p v : ptr) : M unit :=
  n ← read_node p; write_node p (mk_node v (next n) (value n)).
Definition set_next (p v : ptr) : M unit :=
  n ← read_node p; write_node p (mk_node (prev n) v (value n)).
Definition set_value (p v : ptr) : M unit :=
  n ← read_node p; write_node p (mk_node (prev n) (next n) v).

Definition set_iter_next (p v : ptr) : M unit :=
  i ← read_iter p; write_iter p (mk_iter v (direction i)).
Definition set_direction (p : ptr) (d : Z) : M unit :=
  i ← read_iter p; write_iter p (mk_iter (iter_next i) d).

Definition set_head (p v : ptr) : M unit :=
  l ← read_list p;
  write_list p (mk_list v (tail l) (dup l) (free l) (match_fn l) (len l)).
Definition set_tail (p v : ptr) : M unit :=
  l ← read_list p;
  write_list p (mk_list (head l) v (dup l) (free l) (match_fn l) (len l)).
Definition set_dup (p v : ptr) : M unit :=
  l ← read_list p;
  write_list p (mk_list (head l) (tail l) v (free l) (match_fn l) (len l)).
Definition set_free (p v : ptr) : M unit :=
  l ← read_list p;
  write_list p (mk_list (head l) (tail l) (dup l) v (match_fn l) (len l)).
Definition set_match (p v : ptr) : M unit :=
  l ← read_list p;
  write_list p (mk_list (head l) (tail l) (dup l) (free l) v (len l)).
Definition set_len (p : ptr) (v : Z) : M unit :=
  l ← read_list p;
  write_list p (mk_list (head l) (tail l) (dup l) (free l) (match_fn l) v).

(** Field reads [p->f]. *)
Definition get_prev (p : ptr) : M ptr := n ← read_node p; mret (prev n).
Definition get_next (p : ptr) : M ptr := n ← read_node p; mret (next n).
Definition get_value (p : ptr) : M ptr := n ← read_node p; mret (value n).
Definition get_iter_next (p : ptr) : M ptr :=
  i ← read_iter p; mret (iter_next i).
Definition get_direction (p : ptr) : M Z :=
  i ← read_iter p; mret (direction i).
Definition get_head (p : ptr) : M ptr := l ← read_list p; mret (head l).
Definition get_tail (p : ptr) : M ptr := l ← read_list p; mret (tail l).
Definition get_dup (p : ptr) : M ptr := l ← read_list p; mret (dup l).
Definition get_free (p : ptr) : M ptr := l ← read_list p; mret (free l).
Definition get_match (p : ptr) : M ptr := l ← read_list p; mret (match_fn l).
Definition get_len (p : ptr) : M Z := l ← read_list p; mret (len l).

(** [list_size(l)] of [list.h]. *)
Definition list_size (p : ptr) : M Z := get_len p.

(* ===================================================================== *)
(** ** The allocation facility ([zmalloc.h], not part of the sources) *)
(* ===================================================================== *)

(** An address the allocator may hand out: not [NULL], representable in a
    64-bit pointer, and not in use. *)
Definition usable (st : state) (p : ptr) : Prop :=
  0 < p < ULONG_MODULUS ∧
  nodes st !! p = None ∧ iters st !! p = None ∧ lists st !! p = None.

#[export] Instance usable_dec st p : Decision (usable st p).
Proof. unfold usable. apply _. Defined.

(** What [sizeof] names in a call of [zmalloc]. *)
Inductive kind : Type := KNode | KIter | KList.

(** What an uninitialised struct at [p] holds. *)
Definition stale_node (st : state) (p : ptr) : list_node :=
  mk_node (stale st p 0) (stale st p 1) (stale st p 2).
Definition stale_iter (st : state) (p : ptr) : list_iter :=
  mk_iter (stale st p 0) (stale st p 1).
Definition stale_list (st : state) (p : ptr) : list_t :=
  mk_list (stale st p 0) (stale st p 1) (stale st p 2) (stale st p 3)
    (stale st p 4) (stale st p 5).

(** A fresh block at [p].  It is not initialised: its fields hold what the
    memory held, and are still to be assigned. *)
Definition place (k : kind) (p : ptr) (st : state) : state :=
  match k with
  | KNode => set_nodes st (<[p := stale_node st p]> (nodes st))
  | KIter => set_iters st (<[p := stale_iter st p]> (iters st))
  | KList => set_lists st (<[p := stale_list st p]> (lists st))
  end.

(** Modelled from the spec: [zmalloc] is the consumed allocation facility
    [allocate(size) -> Memory | Fail] of spec section 6, whose source
    ([zmalloc.h]) is missing.  Its decisions are not the list's to make, so
    they come from the [script] of the state: each call consumes one entry,
    the address the allocator is about to answer with.  The call succeeds
    with that address when it is [usable], and fails ([NULL]) when it is
    not, or when the script is exhausted.  The block of a successful call
    is not initialised (see [place]). *)
Definition zmalloc (k : kind) : M ptr := λ st,
  match script st with
  | [] => Done NULL st
  | p :: rest =>
      if decide (usable st p)
      then Done p (place k p (set_script st rest))
      else Done NULL (set_script st rest)
  end.

(** Modelled from the spec: [zfree] is [release(Memory)] of the same
    facility, here by struct type.  Releasing [NULL] does nothing, as with
    C's [free]; releasing an address that is not live is an invalid
    access. *)
Definition zfree (k : kind) (p : ptr) : M unit := λ st,
  if decide (p = NULL) then Done tt st
  else match k with
       | KNode => match nodes st !! p with
                  | Some _ => Done tt (set_nodes st (delete p (nodes st)))
                  | None => Fault
                  end
       | KIter => match iters st !! p with
                  | Some _ => Done tt (set_iters st (delete p (iters st)))
                  | None => Fault
                  end
       | KList => match lists st !! p with
                  | Some _ => Done tt (set_lists st (delete p (lists st)))
                  | None => Fault
                  end
       end.

(** A call of a callback leaves its trace in [calls]. *)
Definition log (e : event) : M unit := λ st,
  Done tt (mk_state (nodes st) (iters st) (lists st) (script st)
             (calls st ++ [e]) (stale st)).

(** C truth value of a pointer or an [int]. *)
Definition truthy (z : Z) : bool := negb (z =? 0).

(* ===================================================================== *)
(** ** The functions of [list.c] *)
(* ===================================================================== *)

Section ListC.

(** What the caller-supplied function pointers compute: [call_dup f v] is
    the result of [f(v)] for a [dup] callback ([NULL] reports failure) and
    [call_match f v key] the [int] result of [f(v, key)] for a [match]
    callback. *)
Variable call_dup : ptr → ptr → ptr.
Variable call_match : ptr → ptr → ptr → Z.

Definition list_create : M ptr :=
  list ← zmalloc KList;
  if decide (list = NULL) then mret NULL else
  set_tail list NULL;;
  set_head list NULL;;
  set_len list 0;;
  set_dup list NULL;;
  set_free list NULL;;
  set_match list NULL;;
  mret list.

(** The body of [while(len--)] in [list_free], [n] iterations to go. *)
Fixpoint list_free_loop (n : nat) (list current : ptr) : M unit :=
  match n with
  | O => mret tt
  | S n' =>
      nxt ← get_next current;
      f ← get_free list;
      (if truthy f
       then v ← get_value current; log (EvFree f v)
       else mret tt);;
      zfree KNode current;;
      list_free_loop n' list nxt
  end.

Definition list_free (list : ptr) : M unit :=
  current ← get_head list;
  len ← get_len list;
  list_free_loop (Z.to_nat len) list current;;
  zfree KList list.

Definition list_add_head (list value : ptr) : M ptr :=
  node ← zmalloc KNode;
  if decide (node = NULL) then mret NULL else
  set_value node value;;
  len ← get_len list;
  (if decide (len = 0) then
     set_tail list node;;
     set_head list node;;
     set_next node NULL;;
     set_prev node NULL
   else
     set_prev node NULL;;
     h ← get_head list;
     set_next node h;;
     h ← get_head list;
     set_prev h node;;
     set_head list node);;
  len ← get_len list;
  set_len list (wrap_ulong (len + 1));;
  mret list.

Definition list_add (list value : ptr) : M ptr :=
  node ← zmalloc KNode;
  if decide (node = NULL) then mret NULL else
  set_value node value;;
  len ← get_len list;
  (if decide (len = 0) then
     set_tail list node;;
     set_head list node;;
     set_next node NULL;;
     set_prev node NULL
   else
     t ← get_tail list;
     set_prev node t;;
     set_next node NULL;;
     t ← get_tail list;
     set_next t node;;
     set_tail list node);;
  len ← get_len list;
  set_len list (wrap_ulong (len + 1));;
  mret list.

Definition list_insert (list old_node value : ptr) (after : Z) : M ptr :=
  node ← zmalloc KNode;
  if decide (node = NULL) then mret NULL else
  set_value node value;;
  (if truthy after then
     set_prev node old_node;;
     n ← get_next old_node;
     set_next node n;;
     t ← get_tail list;
     if decide (t = old_node) then set_tail list node else mret tt
   else
     set_next node old_node;;
     p ← get_prev old_node;
     set_prev node p;;
     h ← get_head list;
     if decide (h = old_node) then set_head list node else mret tt);;
  p ← get_prev node;
  (if decide (p ≠ NULL) then set_next p node else mret tt);;
  n ← get_next node;
  (if decide (n ≠ NULL) then set_prev n node else mret tt);;
  len ← get_len list;
  set_len list (wrap_ulong (len + 1));;
  mret list.

Definition list_remove (list node : ptr) : M unit :=
  p ← get_prev node;
  (if truthy p then
     n ← get_next node; set_next p n
   else
     n ← get_next node; set_head list n);;
  n ← get_next node;
  (if truthy n then
     p ← get_prev node; set_prev n p
   else
     p ← get_prev node; set_tail list p);;
  f ← get_free list;
  (if truthy f
   then v ← get_value node; log (EvFree f v)
   else mret tt);;
  zfree KNode node;;
  len ← get_len list;
  set_len list (wrap_ulong (len - 1)).

Definition list_iterator (list : ptr) (dir : Z) : M ptr :=
  iter ← zmalloc KIter;
  if decide (iter = NULL) then mret NULL else
  (if decide (dir = _START_HEAD)
   then h ← get_head list; set_iter_next iter h
   else t ← get_tail list; set_iter_next iter t);;
  set_direction iter dir;;
  mret iter.

Definition list_free_iterator (iter : ptr) : M unit := zfree KIter iter.

Definition list_rewind (list li : ptr) : M unit :=
  h ← get_head list;
  set_iter_next li h;;
  set_direction li _START_HEAD.

Definition list_rewind_tail (list li : ptr) : M unit :=
  t ← get_tail list;
  set_iter_next li t;;
  set_direction li _START_TAIL.

Definition list_next (iter : ptr) : M ptr :=
  current ← get_iter_next iter;
  (if decide (current ≠ NULL) then
     d ← get_direction iter;
     if decide (d = _START_HEAD)
     then n ← get_next current; set_iter_next iter n
     else p ← get_prev current; set_iter_next iter p
   else mret tt);;
  mret current.

(** The loop [while((node = list_next(iter)) != NULL)] of [list_clone].
    Nothing in the loop itself bounds the number of iterations, so the
    embedding takes fuel and reports [OutOfFuel] when it is used up. *)
Fixpoint list_clone_loop (fuel : nat) (copy iter : ptr) : M ptr :=
  match fuel with
  | O => out_of_fuel
  | S fuel' =>
      node ← list_next iter;
      if decide (node = NULL) then
        list_free_iterator iter;;
        mret copy
      else
        d ← get_dup copy;
        if truthy d then
          v ← get_value node;
          let value := call_dup d v in
          log (EvDup d v value);;
          if decide (value = NULL) then
            list_free copy;;
            list_free_iterator iter;;
            mret NULL
          else
            r ← list_add copy value;
            if decide (r = NULL) then
              list_free copy;;
              list_free_iterator iter;;
              mret NULL
            else list_clone_loop fuel' copy iter
        else
          value ← get_value node;
          r ← list_add copy value;
          if decide (r = NULL) then
            list_free copy;;
            list_free_iterator iter;;
            mret NULL
          else list_clone_loop fuel' copy iter
  end.

Definition list_clone (fuel : nat) (orig : ptr) : M ptr :=
  copy ← list_create;
  if decide (copy = NULL) then mret NULL else
  d ← get_dup orig; set_dup copy d;;
  f ← get_free orig; set_free copy f;;
  m ← get_match orig; set_match copy m;;
  iter ← list_iterator orig _START_HEAD;
  list_clone_loop fuel copy iter.

(** The loop of [list_search], with fuel as in [list_clone_loop]. *)
Fixpoint list_search_loop (fuel : nat) (list iter key : ptr) : M ptr :=
  match fuel with
  | O => out_of_fuel
  | S fuel' =>
      node ← list_next iter;
      if decide (node = NULL) then
        list_free_iterator iter;;
        mret NULL
      else
        m ← get_match list;
        if truthy m then
          v ← get_value node;
          if truthy (call_match m v key) then
            list_free_iterator iter;;
            mret node
          else list_search_loop fuel' list iter key
        else
          v ← get_value node;
          if decide (key = v) then
            list_free_iterator iter;;
            mret node
          else list_search_loop fuel' list iter key
  end.

Definition list_search (fuel : nat) (list key : ptr) : M ptr :=
  iter ← list_iterator list _START_HEAD;
  list_search_loop fuel list iter key.

(** The loops [while(index-- && n) n = n->prev;] and
    [while(index-- && n) n = n->next;] of [list_index], [k] being the
    value of [index] on entry. *)
Fixpoint list_index_loop (backwards : bool) (k : nat) (n : ptr) : M ptr :=
  match k with
  | O => mret n
  | S k' =>
      if truthy n then
        n' ← (if backwards then get_prev n else get_next n);
        list_index_loop backwards k' n'
      else mret n
  end.

Definition list_index (list : ptr) (index : Z) : M ptr :=
  if decide (index < 0) then
    let index := wrap_long (wrap_long (- index) - 1) in
    n ← get_tail list;
    list_index_loop true (Z.to_nat index) n
  else
    n ← get_head list;
    list_index_loop false (Z.to_nat index) n.

Definition list_rotate (list : ptr) : M unit :=
  tail ← get_tail list;
  sz ← list_size list;
  if decide (sz <= 1) then mret tt else
  p ← get_prev tail;
  set_tail list p;;
  t ← get_tail list;
  set_next t NULL;;
  h ← get_head list;
  set_prev h tail;;
  set_prev tail NULL;;
  h ← get_head list;
  set_next tail h;;
  set_head list tail.

End ListC.

(** The accessors that [list.h] implements as macros. *)
Definition list_first (l : ptr) : M ptr := get_head l.
Definition list_last (l : ptr) : M ptr := get_tail l.
Definition list_set_clone_method (l m : ptr) : M unit := set_dup l m.
Definition list_set_free_method (l m : ptr) : M unit := set_free l m.
Definition list_set_match_method (l m : ptr) : M unit := set_match l m.

(* ===================================================================== *)
(** ** Traversals and the shape of a well-formed list *)
(* ===================================================================== *)

(** Walking the links from [p] until [NULL]: along [next], or along [prev]
    when [backwards].  The result is the sequence of nodes visited; there
    is none when a link leaves the live nodes or when [fuel] steps do not
    reach [NULL]. *)
Fixpoint walk (backwards : bool) (N : gmap Z list_node) (fuel : nat)
    (p : ptr) : option (list ptr) :=
  match fuel with
  | O => None
  | S fuel' =>
      if decide (p = NULL) then Some [] else
      n ← N !! p;
      rest ← walk backwards N fuel' (if backwards then prev n else next n);
      Some (p :: rest)
  end.

(** A chain of live nodes [ps], each linked to its neighbours, entered
    from [pr] and left to [nx]. *)
Fixpoint dlseg (N : gmap Z list_node) (pr : ptr) (ps : list ptr)
    (nx : ptr) : Prop :=
  match ps with
  | [] => True
  | p :: ps' =>
      0 < p < ULONG_MODULUS ∧
      ∃ n, N !! p = Some n ∧ prev n = pr ∧ next n = hd nx ps' ∧
           dlseg N p ps' nx
  end.

(** The list at [l] is well formed and its nodes are, in order, [ps]. *)
Definition is_list (st : state) (l : ptr) (ps : list ptr) : Prop :=
  ∃ L, lists st !! l = Some L ∧
       head L = hd NULL ps ∧
       tail L = List.last ps NULL ∧
       len L = Z.of_nat (length ps) ∧
       NoDup ps ∧
       dlseg (nodes st) NULL ps NULL.

(** The value stored in the node at [p]. *)
Definition value_at (N : gmap Z list_node) (p : ptr) : ptr :=
  match N !! p with Some n => value n | None => NULL end.

Definition values (N : gmap Z list_node) (ps : list ptr) : list ptr :=
  value_at N <$> ps.

(** Every node of [N] is still live in [N'] and holds the same value. *)
Definition keeps_values (N N' : gmap Z list_node) : Prop :=
  ∀ q n, N !! q = Some n → ∃ n', N' !! q = Some n' ∧ value n' = value n.

(** The order of the nodes after [list_rotate]: the last node first. *)
Definition rotated (ps : list ptr) : list ptr :=
  match reverse ps with
  | [] => []
  | t :: front => t :: reverse front
  end.

(** The node at position [i], [NULL] past the end. *)
Definition at_pos (ps : list ptr) (i : nat) : ptr := default NULL (ps !! i).

(** What [list_index] is to return for [index]: counted from the head, or
    for a negative [index] from the tail, [-1] being the last node. *)
Definition index_of (ps : list ptr) (index : Z) : ptr :=
  if decide (index < 0)
  then at_pos (reverse ps) (Z.to_nat (- index - 1))
  else at_pos ps (Z.to_nat index).

(** Whether the value [v] of a node matches [key] for a list whose [match]
    callback is [m]: by the callback when there is one, otherwise by
    comparing the pointers. *)
Definition value_matches (call_match : ptr → ptr → ptr → Z)
    (m v key : ptr) : bool :=
  if truthy m then truthy (call_match m v key) else bool_decide (key = v).

(** The first node of [ps] that [matches], [NULL] when there is none. *)
Fixpoint first_match (matches : ptr → bool) (ps : list ptr) : ptr :=
  match ps with
  | [] => NULL
  | p :: ps' => if matches p then p else first_match matches ps'
  end.

(** [list_rotate] called [n] times in a row. *)
Fixpoint list_rotate_times (n : nat) (l : ptr) : M unit :=
  match n with
  | O => mret tt
  | S n' => list_rotate l;; list_rotate_times n' l
  end.

(** [list_next] called [n] times in a row on the same iterator; the
    results, in order. *)
Fixpoint list_next_times (n : nat) (iter : ptr) : M (list ptr) :=
  match n with
  | O => mret []
  | S n' =>
      node ← list_next iter;
      rest ← list_next_times n' iter;
      mret (node :: rest)
  end.

(** The order in which an iterator of direction [d] meets the nodes [ps]
    of a list: head to tail for [_START_HEAD], tail to head for any other
    direction. *)
Definition iteration_order (d : Z) (ps : list ptr) : list ptr :=
  if decide (d = _START_HEAD) then ps else reverse ps.

(** The computation [m] leaves alone the memory that is not in use. *)
Definition keeps_stale {A} (m : M A) : Prop :=
  ∀ st a st', m st = Done a st' → stale st' = stale st.

(** The value [list_clone] stores in the copy for a source value [v]:
    its duplicate when a [dup] callback [d] is installed, [v] itself
    otherwise. *)
Definition copied_value (call_dup : ptr → ptr → ptr) (d v : ptr) : ptr :=
  if truthy d then call_dup d v else v.

(** The calls of the [dup] callback [d] on the values [vs], in order;
    none when no callback is installed. *)
Definition dup_events (call_dup : ptr → ptr → ptr) (d : ptr)
    (vs : list ptr) : list event :=
  if truthy d then (λ v, EvDup d v (call_dup d v)) <$> vs else [].

(** The calls of the [free] callback [f] on the values [ws], in order;
    none when no callback is installed. *)
Definition free_events (f : ptr) (ws : list ptr) : list event :=
  if truthy f then EvFree f <$> ws else [].

(** Where [list_clone]'s loop stands after [i] nodes of the source [ps]:
    the copy at [c] is a well-formed list of nodes [cps] with the callbacks
    [d], [f] and [m], apart from the source, and the iterator at [it] is about
    to yield the node at position [i] of the source. *)
Definition clone_inv (st : state) (c it d f m : ptr) (ps cps : list ptr)
    (i : nat) : Prop :=
  c ≠ NULL ∧ it ≠ NULL ∧
  is_list st c cps ∧
  (∃ Lc, lists st !! c = Some Lc ∧ dup Lc = d ∧ free Lc = f ∧
         match_fn Lc = m) ∧
  iters st !! it = Some (mk_iter (at_pos ps i) _START_HEAD) ∧
  dlseg (nodes st) NULL ps NULL ∧
  (∀ q, q ∈ ps → q ∉ cps).

(** How [list_clone]'s loop ends when it starts in [st] with the source
    values [vs] still to copy: the iterator is released, and either the
    copy [c] is returned, grown by a node for each of [vs], or [NULL] is
    returned, the copy and its nodes released, after [j] more values had
    been appended. *)
Definition clone_outcome (call_dup : ptr → ptr → ptr) (st : state)
    (c it d f m : ptr) (cps vs : list ptr) (r : ptr) (st' : state) : Prop :=
  iters st' = delete it (iters st) ∧
  ((r = c ∧
    ∃ new,
      is_list st' c (cps ++ new) ∧
      values (nodes st') (cps ++ new)
        = values (nodes st) cps ++ (copied_value call_dup d <$> vs) ∧
      (∀ q, q ∉ cps ++ new → nodes st' !! q = nodes st !! q) ∧
      (∀ q, q ∈ new → nodes st !! q = None) ∧
      (∀ l', l' ≠ c → lists st' !! l' = lists st !! l') ∧
      (∃ Lc, lists st' !! c = Some Lc ∧ dup Lc = d ∧ free Lc = f ∧
             match_fn Lc = m) ∧
      calls st' = calls st ++ dup_events call_dup d vs) ∨
   (r = NULL ∧
    (∀ q, q ∈ cps → nodes st' !! q = None) ∧
    (∀ q, q ∉ cps → nodes st' !! q = nodes st !! q) ∧
    lists st' = delete c (lists st) ∧
    ∃ j, (j < length vs)%nat ∧
      calls st' = calls st ++ dup_events call_dup d (take (S j) vs) ++
        free_events f (values (nodes st) cps ++
                       (copied_value call_dup d <$> take j vs)))).

(** The invariants of spec section 3, stated on traversals: walking from
    [head] along [next] and from [tail] along [prev] both end, the second
    sequence is the reverse of the first, [len] is their length, and
    [len] is zero exactly when [head] and [tail] are both [NULL]. *)
Definition list_invariants (st : state) (l : ptr) : Prop :=
  ∃ L fwd bwd,
    lists st !! l = Some L ∧
    (∀ fuel, (length fwd < fuel)%nat →
       walk false (nodes st) fuel (head L) = Some fwd) ∧
    (∀ fuel, (length bwd < fuel)%nat →
       walk true (nodes st) fuel (tail L) = Some bwd) ∧
    fwd = reverse bwd ∧
    len L = Z.of_nat (length fwd) ∧
    (len L = 0 ↔ head L = NULL ∧ tail L = NULL).

(** [p] is one of the nodes of the list at [l]: the walk from its head
    meets it. *)
Definition belongs_to (st : state) (l p : ptr) : Prop :=
  ∃ L fuel ps, lists st !! l = Some L ∧
               walk false (nodes st) fuel (head L) = Some ps ∧ p ∈ ps.

(** The operations that change a list. *)
Inductive list_op : Type :=
| OpAddHead (value : ptr)
| OpAdd (value : ptr)
| OpInsert (old_node value : ptr) (after : Z)
| OpRemove (node : ptr)
| OpRotate
| OpSetCloneMethod (m : ptr)
| OpSetFreeMethod (m : ptr)
| OpSetMatchMethod (m : ptr).

Definition run_op (l : ptr) (o : list_op) : M unit :=
  match o with
  | OpAddHead v => list_add_head l v;; mret tt
  | OpAdd v => list_add l v;; mret tt
  | OpInsert old v after => list_insert l old v after;; mret tt
  | OpRemove node => list_remove l node
  | OpRotate => list_rotate l
  | OpSetCloneMethod m => list_set_clone_method l m
  | OpSetFreeMethod m => list_set_free_method l m
  | OpSetMatchMethod m => list_set_match_method l m
  end.

(** What the caller owes an operation: the node handed to [list_insert]
    or [list_remove] is a node of the list. *)
Definition op_pre (st : state) (l : ptr) (o : list_op) : Prop :=
  match o with
  | OpInsert old _ _ => belongs_to st l old
  | OpRemove node => belongs_to st l node
  | _ => True
  end.

(** The states a list goes through: the one [list_create] leaves, and
    every state an operation leads to from there. *)
Inductive reached (l : ptr) : state → Prop :=
| reached_create st0 st :
    list_create st0 = Done l st → l ≠ NULL → reached l st
| reached_step st o st' :
    reached l st → op_pre st l o → run_op l o st = Done tt st' →
    reached l st'.


(* ===================================================================== *)
(** ** A small run, used to instantiate the theorems *)
(* ===================================================================== *)

(** The state a computation leaves (the state it started from when it does
    not finish). *)
Definition state_after {A} (m : M A) (st : state) : state :=
  match m st with
  | Done _ st' => st'
  | _ => st
  end.

(** Stale memory for the examples: no field of a fresh block holds 0. *)
Definition demo_stale (p : ptr) (i : nat) : Z := p + Z.of_nat i + 1.

(** An empty store whose allocator will answer 100, 10, 20, 30, 40 and
    then has no memory left. *)
Definition demo_start : state :=
  mk_state ∅ ∅ ∅ [100; 10; 20; 30; 40] [] demo_stale.

(** [list_create], then values 1, 2, 3 appended, one node inserted after
    the first, the second node removed, and a rotation. *)
Definition demo_ops : list list_op :=
  [OpAdd 1; OpAdd 2; OpAdd 3; OpInsert 10 4 1; OpRemove 20; OpRotate].

Definition demo_created : state := state_after list_create demo_start.

(** Running operations one after the other. *)
Definition after_ops (l : ptr) (st : state) (ops : list list_op) : state :=
  foldl (λ st o, state_after (run_op l o) st) st ops.

(** Each operation of a run is handed what it is owed. *)
Fixpoint ops_pre (l : ptr) (st : state) (ops : list list_op) : Prop :=
  match ops with
  | [] => True
  | o :: ops' =>
      op_pre st l o ∧ ops_pre l (state_after (run_op l o) st) ops'
  end.

Definition demo_state : state := after_ops 100 demo_created demo_ops.

(** The nodes of the list in [demo_state], in order. *)
Definition demo_nodes : list ptr := [30; 10; 40].

(** The scenario of spec section 8: values 1, 2, 3 appended to a fresh
    list (at nodes 10, 20, 30), and a forward iterator (at 200) on it. *)
Definition scenario_start : state :=
  mk_state ∅ ∅ ∅ [100; 10; 20; 30; 200] [] demo_stale.

Definition scenario_list : state :=
  state_after
    (l ← list_create; list_add l 1;; list_add l 2;; list_add l 3)
    scenario_start.

Definition scenario_iter : state :=
  state_after (list_iterator 100 _START_HEAD) scenario_list.

(** The value of the node that [m] returns, read before anything else
    happens. *)
Definition value_of_result (m : M ptr) : M ptr :=
  n ← m; get_value n.

(** A [match] callback for the examples: a value matches a key when it is
    the key plus one. *)
Definition demo_match (f v key : ptr) : Z :=
  if decide (v = key + 1) then 1 else 0.

(** A [dup] callback for the examples: the duplicate of [v] is [v + 1000],
    and duplicating the value 2 fails. *)
Definition demo_dup (f v : ptr) : ptr :=
  if decide (v = 2) then NULL else v + 1000.

(** Two states in which to clone the list of the scenario.  In the first
    the list has a [free] callback (7) and no [dup] callback, and the
    allocator can supply the copy, the iterator and one node.  In the
    second it has a [dup] callback (5) and no [free] callback, and the
    allocator can supply the copy, the iterator and two nodes. *)
Definition clone_shared_start : state :=
  state_after (list_set_free_method 100 7)
    (set_script scenario_list [200; 300; 400]).

Definition clone_dup_start : state :=
  state_after (list_set_clone_method 100 5)
    (set_script scenario_list [200; 300; 400; 500]).

(** The nodes of the list of the scenario, in order. *)
Definition scenario_nodes : list ptr := [10; 20; 30].

(** Where the two attempts to clone end. *)
Definition clone_shared_end : state :=
  state_after (list_clone demo_dup 4 100) clone_shared_start.

Definition clone_dup_end : state :=
  state_after (list_clone demo_dup 4 100) clone_dup_start.

(** A [dup] callback for the examples that never fails: the duplicate of
    [v] is [v + 1000]. *)
Definition demo_copy (f v : ptr) : ptr := v + 1000.

(** The list of the scenario with a [dup] callback (5) and a [free]
    callback (7), and an allocator that can supply a copy, an iterator and
    three nodes. *)
Definition clone_whole_start : state :=
  state_after (list_set_free_method 100 7)
    (state_after (list_set_clone_method 100 5)
       (set_script scenario_list [200; 300; 400; 500; 600])).

(** The list of the scenario with two allocations left. *)
Definition scenario_two : state := set_script scenario_list [200; 300].
(* ===================================================================== *)
(** ** Arithmetic and list facts *)
(* ===================================================================== *)

Lemma ULONG_MODULUS_pos : 1 < ULONG_MODULUS.
Proof. reflexivity. Qed.

Lemma wrap_ulong_small z : 0 ≤ z < ULONG_MODULUS → wrap_ulong z = z.
Proof. intros H. unfold wrap_ulong. by apply Z.mod_small. Qed.

Lemma truthy_true z : z ≠ 0 → truthy z = true.
Proof. intros H. unfold truthy. by apply negb_true_iff, Z.eqb_neq. Qed.

Lemma truthy_false : truthy 0 = false.
Proof. reflexivity. Qed.

Lemma truthy_NULL : truthy NULL = false.
Proof. reflexivity. Qed.

(** Pigeonhole: distinct addresses from [1..n] are at most [n]. *)
Lemma NoDup_range_length (n : nat) (ps : list Z) :
  NoDup ps → (∀ p, p ∈ ps → 0 < p ≤ Z.of_nat n) → (length ps ≤ n)%nat.
Proof.
  revert ps. induction n as [|n IH]; intros ps Hnd Hr.
  - destruct ps as [|p ps]; [done|].
    specialize (Hr p (list_elem_of_here _ _)). lia.
  - destruct (decide (Z.of_nat (S n) ∈ ps)) as [Hin|Hnin].
    + apply elem_of_Permutation in Hin as [k Hk].
      rewrite Hk in Hnd. apply NoDup_cons in Hnd as [Hk1 Hk2].
      rewrite (Permutation_length Hk). simpl. apply le_n_S, IH; [done|].
      intros p Hp. assert (Hp' : p ∈ ps) by (rewrite Hk; by right).
      specialize (Hr p Hp').
      assert (p ≠ Z.of_nat (S n)) by (intros ->; done). lia.
    + apply Nat.le_le_succ_r, IH; [done|].
      intros p Hp. specialize (Hr p Hp).
      assert (p ≠ Z.of_nat (S n)) by (intros ->; done). lia.
Qed.

Lemma NoDup_below_length (B : Z) (ps : list Z) :
  NoDup ps → (∀ p, p ∈ ps → 0 < p < B) → Z.of_nat (length ps) < Z.max B 1.
Proof.
  intros Hnd Hr.
  assert (length ps ≤ Z.to_nat (B - 1))%nat; [|lia].
  apply NoDup_range_length; [done|].
  intros p Hp. specialize (Hr p Hp). lia.
Qed.

Lemma last_app_singleton {A} (l : list A) (x d : A) :
  List.last (l ++ [x]) d = x.
Proof. apply List.last_last. Qed.

Lemma last_cons_cons {A} (x y : A) (l : list A) (d : A) :
  List.last (x :: y :: l) d = List.last (y :: l) d.
Proof. reflexivity. Qed.

Lemma last_cons_default {A} (x : A) (l : list A) (d : A) :
  List.last (x :: l) d = List.last l x.
Proof.
  revert x d. induction l as [|y l IH]; intros x d; [reflexivity|].
  rewrite last_cons_cons. by rewrite !IH.
Qed.

Lemma last_elem_of {A} (x : A) (l : list A) (d : A) :
  List.last (x :: l) d ∈ x :: l.
Proof.
  revert x. induction l as [|y l IH]; intros x.
  - apply list_elem_of_here.
  - rewrite last_cons_cons. apply list_elem_of_further, IH.
Qed.

(* ===================================================================== *)
(** ** Chains of nodes *)
(* ===================================================================== *)

Lemma hd_app_default {A} (l1 l2 : list A) (d : A) :
  hd d (l1 ++ l2) = hd (hd d l2) l1.
Proof. by destruct l1. Qed.

Lemma dlseg_app N pr l1 l2 nx :
  dlseg N pr (l1 ++ l2) nx ↔
  dlseg N pr l1 (hd nx l2) ∧ dlseg N (List.last l1 pr) l2 nx.
Proof.
  revert pr. induction l1 as [|p l1 IH]; intros pr.
  - simpl. tauto.
  - rewrite last_cons_default. simpl. rewrite hd_app_default. split.
    + intros (Hr & n & Hn & Hp & Hx & Hseg). apply IH in Hseg as [H1 H2].
      eauto 10.
    + intros ((Hr & n & Hn & Hp & Hx & Hseg) & H2).
      split; [done|]. exists n. repeat split; try done.
      apply IH. by split.
Qed.

Lemma dlseg_frame N N' pr ps nx :
  (∀ p, p ∈ ps → N' !! p = N !! p) →
  dlseg N pr ps nx → dlseg N' pr ps nx.
Proof.
  revert pr. induction ps as [|p ps IH]; intros pr Hag; simpl; [done|].
  intros (Hr & n & Hn & Hp & Hx & Hseg). split; [done|]. exists n.
  rewrite Hag by apply list_elem_of_here. repeat split; try done.
  apply IH; [|done]. intros q Hq. by apply Hag, list_elem_of_further.
Qed.

Lemma dlseg_elem N pr ps nx p :
  dlseg N pr ps nx → p ∈ ps → 0 < p < ULONG_MODULUS ∧ is_Some (N !! p).
Proof.
  revert pr. induction ps as [|q ps IH]; intros pr; simpl.
  - intros _ Hin. by apply elem_of_nil in Hin.
  - intros (Hr & n & Hn & _ & _ & Hseg) [->|Hin]%elem_of_cons; eauto.
Qed.

Lemma dlseg_not_elem N pr ps nx p :
  dlseg N pr ps nx → N !! p = None → p ∉ ps.
Proof.
  intros Hseg Hnone Hin.
  destruct (dlseg_elem _ _ _ _ _ Hseg Hin) as [_ [n Hn]]. congruence.
Qed.

Lemma dlseg_NULL_not_elem N pr ps nx : dlseg N pr ps nx → NULL ∉ ps.
Proof.
  intros Hseg Hin.
  destruct (dlseg_elem _ _ _ _ _ Hseg Hin) as [Hr _]. unfold NULL in Hr. lia.
Qed.

(** The node at position [i] of a chain and its two links. *)
Lemma dlseg_lookup N pr ps nx (i : nat) p :
  dlseg N pr ps nx → ps !! i = Some p →
  ∃ n, N !! p = Some n ∧
       prev n = match i with
                | O => pr
                | S j => default pr (ps !! j)
                end ∧
       next n = default nx (ps !! S i).
Proof.
  revert pr i. induction ps as [|q ps IH]; intros pr i; simpl; [done|].
  intros (Hr & n & Hn & Hp & Hx & Hseg) Hi. destruct i as [|i]; simpl in *.
  - simplify_eq. exists n. repeat split; try done. by destruct ps.
  - destruct (IH q i Hseg Hi) as (m & Hm & Hmp & Hmx).
    exists m. repeat split; try done. rewrite Hmp.
    destruct i as [|i]; [done|]. simpl.
    apply lookup_lt_Some in Hi.
    destruct (ps !! i) eqn:E; [done|].
    apply lookup_ge_None in E. lia.
Qed.

Lemma dlseg_length N pr ps nx :
  NoDup ps → dlseg N pr ps nx → Z.of_nat (length ps) < ULONG_MODULUS.
Proof.
  intros Hnd Hseg.
  pose proof (NoDup_below_length ULONG_MODULUS ps Hnd) as H.
  pose proof ULONG_MODULUS_pos.
  rewrite Z.max_l in H by lia. apply H.
  intros p Hp. by destruct (dlseg_elem _ _ _ _ _ Hseg Hp).
Qed.

Lemma walk_forward N pr ps fuel :
  dlseg N pr ps NULL → (length ps < fuel)%nat →
  walk false N fuel (hd NULL ps) = Some ps.
Proof.
  revert pr fuel. induction ps as [|p ps IH]; intros pr fuel; simpl.
  - intros _ Hf. destruct fuel; [lia|]. done.
  - intros (Hr & n & Hn & Hp & Hx & Hseg) Hf.
    destruct fuel as [|fuel]; [lia|]. simpl.
    rewrite decide_False by (unfold NULL; lia).
    rewrite Hn. simpl. rewrite Hx, (IH p) by (done || lia). done.
Qed.

Lemma walk_backward N ps nx fuel :
  dlseg N NULL ps nx → (length ps < fuel)%nat →
  walk true N fuel (List.last ps NULL) = Some (reverse ps).
Proof.
  revert nx fuel. induction ps as [|p ps IH] using rev_ind; intros nx fuel.
  - intros _ Hf. destruct fuel; [lia|]. done.
  - rewrite dlseg_app, last_app_singleton, length_app, reverse_snoc. simpl.
    intros (Hseg & Hr & n & Hn & Hp & Hx & _) Hf.
    destruct fuel as [|fuel]; [lia|]. simpl.
    rewrite decide_False by (unfold NULL; lia).
    rewrite Hn. simpl. rewrite Hp, (IH p) by (done || lia). done.
Qed.

Lemma is_list_invariants st l ps : is_list st l ps → list_invariants st l.
Proof.
  intros (L & HL & Hh & Ht & Hlen & Hnd & Hseg).
  exists L, ps, (reverse ps). rewrite reverse_involutive, length_reverse.
  split; [done|]. split.
  { intros fuel Hf. rewrite Hh. by eapply walk_forward. }
  split.
  { intros fuel Hf. rewrite Ht. by eapply walk_backward. }
  do 2 (split; [done|]). rewrite Hlen, Hh, Ht. split.
  - intros H0. destruct ps; [done|simpl in H0; lia].
  - intros [H1 _]. destruct ps as [|p ps]; [done|].
    simpl in Hseg, H1. unfold NULL in H1. lia.
Qed.

Lemma is_list_belongs st l ps p :
  is_list st l ps → belongs_to st l p ↔ p ∈ ps.
Proof.
  intros (L & HL & Hh & Ht & Hlen & Hnd & Hseg). split.
  - intros (L' & fuel & ps' & HL' & Hw & Hin). simplify_eq.
    assert (Hmono : ∀ f1 f2 q r1 r2,
      walk false (nodes st) f1 q = Some r1 →
      walk false (nodes st) f2 q = Some r2 → r1 = r2).
    { induction f1 as [|f1 IH]; intros f2 q r1 r2; [done|].
      destruct f2 as [|f2]; [done|]. simpl.
      destruct (decide (q = NULL)); [congruence|].
      destruct (nodes st !! q) as [nd|]; [|done]. simpl.
      destruct (walk false (nodes st) f1 (next nd)) as [a|] eqn:E1; [|done].
      destruct (walk false (nodes st) f2 (next nd)) as [b|] eqn:E2; [|done].
      simpl. intros ? ?. simplify_eq. f_equal. by eapply IH. }
    rewrite Hh in Hw.
    pose proof (walk_forward _ _ _ (S (length ps)) Hseg (Nat.lt_succ_diag_r _)).
    by rewrite <- (Hmono _ _ _ _ _ Hw H).
  - intros Hin. exists L, (S (length ps)), ps. repeat split; try done.
    rewrite Hh. eapply walk_forward; [done|lia].
Qed.

(* ===================================================================== *)
(** ** Running computations step by step *)
(* ===================================================================== *)

Lemma run_bind {A B} (m : M A) (f : A → M B) st a st' :
  m st = Done a st' → (m ≫= f) st = f a st'.
Proof. intros H. unfold mbind, M_bind. by rewrite H. Qed.

Lemma run_bind_fault {A B} (m : M A) (f : A → M B) st :
  m st = Fault → (m ≫= f) st = Fault.
Proof. intros H. unfold mbind, M_bind. by rewrite H. Qed.

Lemma run_bind_assoc {A B C} (m : M A) (f : A → M B) (g : B → M C) st :
  ((m ≫= f) ≫= g) st = (m ≫= (λ a, f a ≫= g)) st.
Proof. unfold mbind, M_bind. by destruct (m st). Qed.

Lemma run_ret_bind {A B} (a : A) (f : A → M B) st :
  (mret a ≫= f) st = f a st.
Proof. reflexivity. Qed.

Lemma run_ret {A} (a : A) st : (mret a : M A) st = Done a st.
Proof. reflexivity. Qed.

Lemma run_read_node p n st :
  nodes st !! p = Some n → read_node p st = Done n st.
Proof. intros H. unfold read_node. by rewrite H. Qed.

Lemma run_write_node p n n' st :
  nodes st !! p = Some n →
  write_node p n' st = Done tt (set_nodes st (<[p := n']> (nodes st))).
Proof. intros H. unfold write_node. by rewrite H. Qed.

Lemma run_read_iter p i st :
  iters st !! p = Some i → read_iter p st = Done i st.
Proof. intros H. unfold read_iter. by rewrite H. Qed.

Lemma run_write_iter p i i' st :
  iters st !! p = Some i →
  write_iter p i' st = Done tt (set_iters st (<[p := i']> (iters st))).
Proof. intros H. unfold write_iter. by rewrite H. Qed.

Lemma run_read_list p l st :
  lists st !! p = Some l → read_list p st = Done l st.
Proof. intros H. unfold read_list. by rewrite H. Qed.

Lemma run_write_list p l l' st :
  lists st !! p = Some l →
  write_list p l' st = Done tt (set_lists st (<[p := l']> (lists st))).
Proof. intros H. unfold write_list. by rewrite H. Qed.

Lemma run_zmalloc k p rest st :
  script st = p :: rest → usable st p →
  zmalloc k st = Done p (place k p (set_script st rest)).
Proof. intros Hs Hu. unfold zmalloc. rewrite Hs. by rewrite decide_True. Qed.

Lemma run_zmalloc_refused k p rest st :
  script st = p :: rest → ¬ usable st p →
  zmalloc k st = Done NULL (set_script st rest).
Proof. intros Hs Hu. unfold zmalloc. rewrite Hs. by rewrite decide_False. Qed.

Lemma run_zmalloc_exhausted k st :
  script st = [] → zmalloc k st = Done NULL st.
Proof. intros Hs. unfold zmalloc. by rewrite Hs. Qed.

Lemma run_zfree_node p n st :
  p ≠ NULL → nodes st !! p = Some n →
  zfree KNode p st = Done tt (set_nodes st (delete p (nodes st))).
Proof.
  intros Hp H. unfold zfree. rewrite decide_False by done. by rewrite H.
Qed.

Lemma run_zfree_iter p i st :
  p ≠ NULL → iters st !! p = Some i →
  zfree KIter p st = Done tt (set_iters st (delete p (iters st))).
Proof.
  intros Hp H. unfold zfree. rewrite decide_False by done. by rewrite H.
Qed.

Lemma run_zfree_list p l st :
  p ≠ NULL → lists st !! p = Some l →
  zfree KList p st = Done tt (set_lists st (delete p (lists st))).
Proof.
  intros Hp H. unfold zfree. rewrite decide_False by done. by rewrite H.
Qed.

Lemma run_log e st :
  log e st = Done tt (mk_state (nodes st) (iters st) (lists st) (script st)
                        (calls st ++ [e]) (stale st)).
Proof. reflexivity. Qed.

(** Field accesses are unfolded to struct reads and writes. *)
Ltac unfold_fields :=
  unfold list_size, list_free_iterator,
    set_prev, set_next, set_value, set_iter_next, set_direction,
    set_head, set_tail, set_dup, set_free, set_match, set_len,
    get_prev, get_next, get_value, get_iter_next, get_direction,
    get_head, get_tail, get_dup, get_free, get_match, get_len.

Ltac state_simpl :=
  unfold set_nodes, set_iters, set_lists, set_script, place,
    stale_node, stale_iter, stale_list in *;
  cbn [nodes iters lists script calls stale
       prev next value iter_next direction
       head tail dup free match_fn len] in *;
  rewrite ?insert_insert_eq.

Ltac neq_solve := solve [ done | congruence | unfold NULL in *; lia ].

(** Lookups in a store that was written to. *)
Ltac lookup_solve :=
  state_simpl;
  repeat first
    [ rewrite lookup_insert_eq
    | rewrite lookup_insert_ne by neq_solve
    | rewrite lookup_delete_ne by neq_solve ];
  first [ reflexivity | eassumption ].

Ltac prim_solve :=
  first
    [ apply run_ret
    | eapply run_read_node; lookup_solve
    | eapply run_write_node; lookup_solve
    | eapply run_read_list; lookup_solve
    | eapply run_write_list; lookup_solve
    | eapply run_read_iter; lookup_solve
    | eapply run_write_iter; lookup_solve
    | eapply run_zfree_node; [neq_solve | lookup_solve]
    | eapply run_zfree_iter; [neq_solve | lookup_solve]
    | eapply run_zfree_list; [neq_solve | lookup_solve]
    | apply run_log ].

Ltac mstep :=
  first
    [ rewrite run_bind_assoc
    | rewrite run_ret_bind
    | rewrite decide_True by neq_solve
    | rewrite decide_False by neq_solve
    | rewrite truthy_false
    | rewrite truthy_NULL
    | rewrite truthy_true by neq_solve
    | erewrite run_bind by prim_solve ];
  cbv beta; state_simpl.

Ltac mrun := unfold_fields; repeat mstep.

(* ===================================================================== *)
(** ** The structural operations keep the list well formed *)
(* ===================================================================== *)

Lemma is_list_intro st l L ps :
  lists st !! l = Some L →
  head L = hd NULL ps →
  tail L = List.last ps NULL →
  len L = Z.of_nat (length ps) →
  NoDup ps →
  dlseg (nodes st) NULL ps NULL →
  is_list st l ps.
Proof. intros. exists L. done. Qed.

(** [len++] does not wrap: the nodes of a list are at distinct addresses
    of a 64-bit address space, and so is the node being added. *)
Lemma wrap_len_succ N pr ps nx p :
  NoDup ps → dlseg N pr ps nx → p ∉ ps → 0 < p < ULONG_MODULUS →
  wrap_ulong (Z.of_nat (length ps) + 1) = Z.of_nat (S (length ps)).
Proof.
  intros Hnd Hseg Hp Hr.
  assert (Z.of_nat (length (p :: ps)) < Z.max ULONG_MODULUS 1).
  { apply NoDup_below_length; [by apply NoDup_cons|].
    intros q [->|Hq]%elem_of_cons; [done|].
    by destruct (dlseg_elem _ _ _ _ _ Hseg Hq). }
  rewrite Z.max_l in H by done. simpl length in H.
  rewrite wrap_ulong_small; lia.
Qed.

(** [len--] does not wrap on a list that has a node. *)
Lemma wrap_len_pred N pr ps nx :
  NoDup ps → dlseg N pr ps nx → ps ≠ [] →
  wrap_ulong (Z.of_nat (length ps) - 1) = Z.of_nat (length ps) - 1.
Proof.
  intros Hnd Hseg Hne. pose proof (dlseg_length _ _ _ _ Hnd Hseg).
  destruct ps; [done|]. simpl length in *. rewrite wrap_ulong_small; lia.
Qed.

(** A chain of one node. *)
Lemma dlseg_singleton N pr p nx n :
  0 < p < ULONG_MODULUS → N !! p = Some n → prev n = pr → next n = nx →
  dlseg N pr [p] nx.
Proof. intros. simpl. eauto 10. Qed.

Lemma dlseg_cons N pr p ps nx n :
  0 < p < ULONG_MODULUS → N !! p = Some n → prev n = pr →
  next n = hd nx ps → dlseg N p ps nx →
  dlseg N pr (p :: ps) nx.
Proof. intros. simpl. eauto 10. Qed.

Lemma dlseg_snoc N pr ps p nx n :
  dlseg N pr ps p →
  0 < p < ULONG_MODULUS → N !! p = Some n → prev n = List.last ps pr →
  next n = nx →
  dlseg N pr (ps ++ [p]) nx.
Proof.
  intros. apply dlseg_app. split; [done|]. by eapply dlseg_singleton.
Qed.

Lemma dlseg_snoc_inv N pr ps p nx :
  dlseg N pr (ps ++ [p]) nx →
  dlseg N pr ps p ∧ 0 < p < ULONG_MODULUS ∧
  ∃ n, N !! p = Some n ∧ prev n = List.last ps pr ∧ next n = nx.
Proof.
  rewrite dlseg_app. simpl. intros (H1 & Hr & n & Hn & Hp & Hx & _). eauto 10.
Qed.

(** Changing the link that leaves a chain, or the one that enters it,
    means writing to its last, or its first, node. *)
Lemma dlseg_insert_other N pr ps nx q n :
  q ∉ ps → dlseg N pr ps nx → dlseg (<[q := n]> N) pr ps nx.
Proof.
  intros Hq. apply dlseg_frame. intros p Hp.
  apply lookup_insert_ne. by intros ->.
Qed.

Lemma dlseg_delete_other N pr ps nx q :
  q ∉ ps → dlseg N pr ps nx → dlseg (delete q N) pr ps nx.
Proof.
  intros Hq. apply dlseg_frame. intros p Hp.
  apply lookup_delete_ne. by intros ->.
Qed.

Ltac is_list_destruct H :=
  let L := fresh "L" in
  destruct H as (L & HL & Hh & Ht & Hlen & Hnd & Hseg);
  destruct L as [hd_ tl_ du fr ma ln];
  simpl in Hh, Ht, Hlen; subst hd_ tl_ ln.

Lemma hd_snoc_nonempty {A} (l : list A) (x y d : A) :
  hd d ((l ++ [x]) ++ [y]) = hd d (l ++ [x]).
Proof. by destruct l. Qed.

Lemma value_at_insert_eq N p n : value_at (<[p := n]> N) p = value n.
Proof. unfold value_at. by rewrite lookup_insert_eq. Qed.

Lemma value_at_insert_ne N p q n :
  p ≠ q → value_at (<[p := n]> N) q = value_at N q.
Proof. intros. unfold value_at. by rewrite lookup_insert_ne. Qed.

Lemma value_at_lookup N p n : N !! p = Some n → value_at N p = value n.
Proof. intros H. unfold value_at. by rewrite H. Qed.

Lemma keeps_values_at N N' q :
  keeps_values N N' → is_Some (N !! q) → value_at N' q = value_at N q.
Proof.
  intros Hk [n Hn]. destruct (Hk q n Hn) as (n' & Hn' & Hv).
  unfold value_at. by rewrite Hn, Hn'.
Qed.

Lemma keeps_values_chain N N' pr ps nx :
  keeps_values N N' → dlseg N pr ps nx → values N' ps = values N ps.
Proof.
  intros Hk Hseg. apply list_fmap_ext. intros i q Hq.
  apply keeps_values_at; [done|].
  apply list_elem_of_lookup_2 in Hq.
  by destruct (dlseg_elem _ _ _ _ _ Hseg Hq).
Qed.

Ltac keeps_values_solve :=
  let q := fresh "q" in let n := fresh "n" in let Hq := fresh "Hq" in
  intros q n Hq;
  repeat match goal with
  | |- context [ <[?a := _]> _ !! q ] =>
      destruct (decide (a = q)) as [->|];
      [ rewrite lookup_insert_eq | rewrite lookup_insert_ne by done ]
  end;
  try congruence;
  eexists; (split; [first [reflexivity | eassumption]|]);
  simplify_eq; try done.

Lemma list_add_spec st l ps v p rest :
  is_list st l ps → script st = p :: rest → usable st p →
  ∃ st', list_add l v st = Done l st' ∧
    is_list st' l (ps ++ [p]) ∧
    keeps_values (nodes st) (nodes st') ∧ value_at (nodes st') p = v ∧
    script st' = rest ∧ calls st' = calls st ∧ iters st' = iters st ∧
    (∀ l', l' ≠ l → lists st' !! l' = lists st !! l') ∧
    (∀ L, lists st !! l = Some L → ∃ L', lists st' !! l = Some L' ∧
       dup L' = dup L ∧ free L' = free L ∧ match_fn L' = match_fn L) ∧
    (∀ q, q ∉ ps ++ [p] → nodes st' !! q = nodes st !! q).
Proof.
  intros Hl Hs Hu. is_list_destruct Hl.
  pose proof Hu as (Hr & HN & HI & HLs).
  assert (Hfresh : p ∉ ps) by (by eapply dlseg_not_elem).
  pose proof (wrap_len_succ _ _ _ _ _ Hnd Hseg Hfresh Hr) as Hlen'.
  unfold list_add. erewrite run_bind by (by eapply run_zmalloc).
  cbv beta. mrun.
  induction ps as [|t ps0 _] using rev_ind.
  - mrun. eexists. split; [reflexivity|]. state_simpl. split.
    { eapply is_list_intro; [lookup_solve|try done..].
      + apply NoDup_singleton.
      + state_simpl. eapply dlseg_singleton; [done|lookup_solve|done..]. }
    split. { keeps_values_solve. }
    split. { by rewrite value_at_insert_eq. }
    do 3 (split; [done|]). split.
    { intros l' Hl'. by rewrite lookup_insert_ne. }
    split. { intros L HL'. simplify_eq. eexists. split; [lookup_solve|done]. }
    intros q Hq. apply not_elem_of_cons in Hq as [Hq _]. by rewrite lookup_insert_ne.
  - rewrite length_app in *. simpl length in *. rewrite decide_False by lia.
    rewrite last_app_singleton in HL.
    apply dlseg_snoc_inv in Hseg as (Hseg & Hrt & nt & Hnt & Hpt & Hxt).
    apply NoDup_app in Hnd as Hnd'. destruct Hnd' as (Hnd0 & Hdisj & _).
    assert (Ht0 : t ∉ ps0).
    { intros Hin. apply (Hdisj _ Hin). apply list_elem_of_here. }
    apply not_elem_of_app in Hfresh as Hf'. destruct Hf' as [Hf0 Hft].
    apply not_elem_of_cons in Hft as [Hpt' _].
    mrun. eexists. split; [reflexivity|]. state_simpl. split.
    { eapply is_list_intro; [lookup_solve|state_simpl..].
      + by rewrite hd_snoc_nonempty.
      + by rewrite last_app_singleton.
      + rewrite !length_app. simpl length. rewrite Hlen'. lia.
      + apply NoDup_app. split; [done|]. split; [|apply NoDup_singleton].
        intros x Hx Hx'. apply list_elem_of_singleton in Hx'. by subst.
      + eapply dlseg_snoc; [|done|lookup_solve|by rewrite last_app_singleton|done].
        eapply dlseg_snoc; [|done|lookup_solve|done..].
        apply dlseg_insert_other; [done|]. by apply dlseg_insert_other. }
    split. { keeps_values_solve. }
    split. { rewrite value_at_insert_ne by done. by rewrite value_at_insert_eq. }
    do 3 (split; [done|]). split.
    { intros l' Hl'. by rewrite lookup_insert_ne. }
    split. { intros L HL'. simplify_eq. eexists. split; [lookup_solve|done]. }
    intros q Hq. apply not_elem_of_app in Hq as [Hq1 Hq2].
    apply not_elem_of_app in Hq1 as [Hq0 Hq1].
    apply not_elem_of_cons in Hq1 as [Hq1 _].
    apply not_elem_of_cons in Hq2 as [Hq2 _].
    by rewrite !lookup_insert_ne.
Qed.

(* ===================================================================== *)
(** ** Splicing nodes into and out of a chain *)
(* ===================================================================== *)

Lemma NoDup_middle {A} (l1 l2 : list A) (a : A) :
  NoDup (l1 ++ a :: l2) →
  (a ∉ l1) ∧ (a ∉ l2) ∧ NoDup l1 ∧ NoDup l2 ∧ (∀ x, x ∈ l1 → x ∉ l2).
Proof.
  intros H. apply NoDup_app in H as (H1 & Hd & H23).
  apply NoDup_cons in H23 as [H2 H3]. repeat split; try done.
  - intros Hin. apply (Hd _ Hin). left.
  - intros x Hx Hx'. apply (Hd _ Hx). by right.
Qed.

Lemma hd_app_cons {A} (l1 l2 : list A) (a d : A) :
  hd d (l1 ++ a :: l2) = hd a l1.
Proof. by destruct l1. Qed.

Lemma last_app_cons {A} (l1 l2 : list A) (a d : A) :
  List.last (l1 ++ a :: l2) d = List.last l2 a.
Proof.
  induction l1 as [|x l1 IH]; simpl.
  - apply (last_cons_default a l2 d).
  - rewrite <- IH. destruct (l1 ++ a :: l2) eqn:E; [|done].
    by destruct l1.
Qed.

Lemma last_nil {A} (d : A) : List.last [] d = d.
Proof. reflexivity. Qed.

Lemma hd_cons {A} (x : A) (l : list A) (d : A) : hd d (x :: l) = x.
Proof. reflexivity. Qed.

Lemma hd_nil {A} (d : A) : hd d [] = d.
Proof. reflexivity. Qed.

Lemma length_middle {A} (l1 l2 : list A) (a : A) :
  length (l1 ++ a :: l2) = S (length (l1 ++ l2)).
Proof. rewrite !length_app. simpl. lia. Qed.

#[export] Hint Rewrite @last_cons_default @last_app_cons @last_nil
  @hd_app_cons @hd_cons @hd_nil @app_nil_r @app_nil_l : ends.

Ltac ends_simpl := autorewrite with ends in *.

Ltac ends_solve := state_simpl; ends_simpl; done.

Ltac len_solve H :=
  state_simpl; rewrite H; f_equal;
  rewrite ?length_app; simpl length; rewrite ?length_app; simpl length; lia.

Ltac notin_split :=
  repeat match goal with
  | H : _ ∉ _ ++ _ |- _ => apply not_elem_of_app in H as [? ?]
  | H : _ ∉ _ :: _ |- _ => apply not_elem_of_cons in H as [? ?]
  | H : NoDup (_ :: _) |- _ => apply NoDup_cons in H as [? ?]
  | H : NoDup (_ ++ _) |- _ => apply NoDup_app in H as (? & ? & ?)
  end.

Ltac notin_solve :=
  solve
    [ done
    | notin_split; done
    | let Hin := fresh "Hin" in
      intros Hin; notin_split;
      repeat match goal with
      | H : ∀ x, x ∈ ?l → x ∉ _, Hin : ?a ∈ ?l |- _ => specialize (H a Hin)
      end;
      notin_split; congruence
    | set_solver ].

Ltac chain_solve :=
  state_simpl; ends_simpl;
  lazymatch goal with
  | |- dlseg _ _ [] _ => exact I
  | |- dlseg _ _ (_ ++ _) _ => apply dlseg_app; split; chain_solve
  | |- dlseg _ _ (_ :: _) _ =>
      eapply dlseg_cons;
      [done | lookup_solve | ends_solve | ends_solve | chain_solve]
  | |- dlseg (<[_ := _]> _) _ _ _ =>
      apply dlseg_insert_other; [notin_solve | chain_solve]
  | |- dlseg (delete _ _) _ _ _ =>
      apply dlseg_delete_other; [notin_solve | chain_solve]
  | |- dlseg _ _ _ _ => eassumption
  end.

Lemma NoDup_insert_middle {A} (l1 l2 : list A) (p : A) :
  p ∉ l1 ++ l2 → NoDup (l1 ++ l2) → NoDup (l1 ++ p :: l2).
Proof. intros Hp Hnd. rewrite <- Permutation_middle. by apply NoDup_cons. Qed.

Ltac mdone := first [ reflexivity | prim_solve ].

(** Lookups at an address [q] that the hypotheses say little about. *)
Ltac lookup_cases :=
  repeat match goal with
  | |- context [ delete ?a _ !! ?b ] =>
      rewrite (lookup_delete_ne _ a b) by neq_solve
  | |- context [ <[?a := _]> _ !! ?b ] =>
      destruct (decide (a = b)) as [->|];
      [ rewrite lookup_insert_eq | rewrite lookup_insert_ne by done ]
  end;
  repeat match goal with
  | H : ?N !! ?k = Some _ |- context [ ?N !! ?k ] => rewrite H
  end.

(** The frame of an insertion: the new node holds the value, the others
    keep theirs, and nothing but the list and its nodes changes. *)
Ltac insert_frame :=
  state_simpl;
  split; [keeps_values_solve|];
  split; [unfold value_at; lookup_cases; try done; lookup_solve|];
  split; [done|]; split; [done|]; split; [done|];
  split; [intros ? ?; by rewrite lookup_insert_ne by done|];
  split; [intros ? ?; simplify_eq; eexists; split; [lookup_solve|done]|];
  let q := fresh "q" in let Hq := fresh "Hq" in
  intros q Hq; notin_split; by rewrite ?lookup_insert_ne by done.

Lemma list_insert_at st l l1 old l2 v after p rest :
  is_list st l (l1 ++ old :: l2) → script st = p :: rest → usable st p →
  ∃ st', list_insert l old v after st = Done l st' ∧
    is_list st' l (if decide (after = 0) then l1 ++ p :: old :: l2
                   else (l1 ++ [old]) ++ p :: l2) ∧
    keeps_values (nodes st) (nodes st') ∧ value_at (nodes st') p = v ∧
    script st' = rest ∧ calls st' = calls st ∧ iters st' = iters st ∧
    (∀ l', l' ≠ l → lists st' !! l' = lists st !! l') ∧
    (∀ L, lists st !! l = Some L → ∃ L', lists st' !! l = Some L' ∧
       dup L' = dup L ∧ free L' = free L ∧ match_fn L' = match_fn L) ∧
    (∀ q, q ∉ p :: l1 ++ old :: l2 → nodes st' !! q = nodes st !! q).
Proof.
  intros Hl Hs Hu. is_list_destruct Hl.
  pose proof Hu as (Hr & HN & HI & HLs).
  assert (Hfresh : p ∉ l1 ++ old :: l2) by (by eapply dlseg_not_elem).
  pose proof (wrap_len_succ _ _ _ _ _ Hnd Hseg Hfresh Hr) as Hlen'.
  apply dlseg_app in Hseg as [Hseg1 Hseg2]. simpl in Hseg1, Hseg2.
  destruct Hseg2 as (Hra & na & Hna & Hpa & Hxa & Hseg2).
  apply NoDup_middle in Hnd as Hnd'. destruct Hnd' as (Ha1 & Ha2 & Hnd1 & Hnd2 & Hdisj).
  apply not_elem_of_app in Hfresh as Hf'. destruct Hf' as [Hf1 Hf2].
  apply not_elem_of_cons in Hf2 as [Hpa' Hf2].
  rewrite hd_app_cons, last_app_cons in HL.
  destruct na as [pa xa va]. simpl in Hpa, Hxa. subst pa xa.
  unfold list_insert. erewrite run_bind by (by eapply run_zmalloc).
  cbv beta. mrun.
  destruct (decide (after = 0)) as [->|Hafter].
  - (* the new node goes before [old] *)
    rewrite truthy_false. mrun.
    induction l1 as [|q l1 _] using rev_ind.
    + ends_simpl. mrun.
      eexists. split; [reflexivity|]. split; [|insert_frame].
      eapply is_list_intro;
        [lookup_solve|ends_solve|ends_solve|len_solve Hlen'|state_simpl..].
      * apply (NoDup_insert_middle []); ends_simpl; done.
      * chain_solve.
    + apply dlseg_snoc_inv in Hseg1 as (Hseg1 & Hrq & nq & Hnq & Hpq & Hxq).
      destruct nq as [pq xq vq]. simpl in Hpq, Hxq. subst pq xq.
      apply NoDup_middle in Hnd1 as Hnd1'. destruct Hnd1' as (Hq1 & _ & Hnd1' & _).
      assert (q ≠ old) by set_solver. assert (q ≠ p) by set_solver.
      assert (hd q l1 ≠ old) by (destruct l1; set_solver).
      ends_simpl. mrun.
      eexists. split; [reflexivity|]. split; [|insert_frame].
      eapply is_list_intro;
        [lookup_solve|ends_solve|ends_solve|len_solve Hlen'|state_simpl..].
      * apply NoDup_insert_middle; ends_simpl; done.
      * chain_solve.
  - (* the new node goes after [old] *)
    rewrite truthy_true by done. mrun.
    assert (Hnd' : NoDup ((l1 ++ [old]) ++ l2)) by (by rewrite <- app_assoc).
    assert (Hfresh' : p ∉ (l1 ++ [old]) ++ l2) by (by rewrite <- app_assoc).
    assert (Hlen'' : wrap_ulong (Z.of_nat (length (l1 ++ old :: l2)) + 1)
                     = Z.of_nat (S (length ((l1 ++ [old]) ++ l2))))
      by (by rewrite <- app_assoc).
    destruct l2 as [|r l2].
    + ends_simpl. mrun.
      eexists. split; [reflexivity|]. split; [|insert_frame].
      eapply is_list_intro;
        [lookup_solve|ends_solve|ends_solve|len_solve Hlen''|state_simpl..].
      * apply NoDup_insert_middle; ends_simpl; done.
      * chain_solve.
    + simpl in Hseg2. destruct Hseg2 as (Hrr & nr & Hnr & Hpr & Hxr & Hseg2).
      destruct nr as [pr xr vr]. simpl in Hpr, Hxr. subst pr xr.
      assert (r ≠ old) by set_solver. assert (r ≠ p) by set_solver.
      assert (List.last l2 r ≠ old).
      { pose proof (last_elem_of r l2 NULL) as Hin. ends_simpl. set_solver. }
      ends_simpl. mrun.
      eexists. split; [reflexivity|]. split; [|insert_frame].
      eapply is_list_intro;
        [lookup_solve|ends_solve|ends_solve|len_solve Hlen''|state_simpl..].
      * apply NoDup_insert_middle; ends_simpl; done.
      * chain_solve.
Qed.


Lemma list_insert_spec st l ps old v after p rest :
  is_list st l ps → old ∈ ps → script st = p :: rest → usable st p →
  ∃ ps' st', list_insert l old v after st = Done l st' ∧
    is_list st' l ps' ∧ length ps' = S (length ps).
Proof.
  intros Hl Hold Hs Hu.
  apply list_elem_of_split in Hold as (l1 & l2 & ->).
  destruct (list_insert_at st l l1 old l2 v after p rest Hl Hs Hu)
    as (st' & Hrun & Hl' & _).
  eexists. exists st'. split; [done|]. split; [done|].
  destruct (decide (after = 0)); rewrite !length_app; simpl;
    rewrite ?length_app; simpl; lia.
Qed.

Lemma list_add_head_spec st l ps v p rest :
  is_list st l ps → script st = p :: rest → usable st p →
  ∃ st', list_add_head l v st = Done l st' ∧
    is_list st' l (p :: ps) ∧
    keeps_values (nodes st) (nodes st') ∧ value_at (nodes st') p = v ∧
    script st' = rest ∧ calls st' = calls st ∧ iters st' = iters st ∧
    (∀ l', l' ≠ l → lists st' !! l' = lists st !! l') ∧
    (∀ L, lists st !! l = Some L → ∃ L', lists st' !! l = Some L' ∧
       dup L' = dup L ∧ free L' = free L ∧ match_fn L' = match_fn L) ∧
    (∀ q, q ∉ p :: ps → nodes st' !! q = nodes st !! q).
Proof.
  intros Hl Hs Hu. is_list_destruct Hl.
  pose proof Hu as (Hr & HN & HI & HLs).
  assert (Hfresh : p ∉ ps) by (by eapply dlseg_not_elem).
  pose proof (wrap_len_succ _ _ _ _ _ Hnd Hseg Hfresh Hr) as Hlen'.
  unfold list_add_head. erewrite run_bind by (by eapply run_zmalloc).
  cbv beta. mrun.
  destruct ps as [|h ps].
  - mrun. eexists. split; [reflexivity|]. state_simpl. split.
    { eapply is_list_intro;
        [lookup_solve|ends_solve|ends_solve|len_solve Hlen'|state_simpl..].
      + apply NoDup_singleton.
      + chain_solve. }
    insert_frame.
  - simpl length in *. rewrite decide_False by lia. simpl in Hseg.
    destruct Hseg as (Hrh & nh & Hnh & Hph & Hxh & Hseg).
    destruct nh as [ph xh vh]. simpl in Hph, Hxh. subst ph xh.
    assert (p ≠ h) by (by apply not_elem_of_cons in Hfresh as [? ?]).
    ends_simpl. mrun. eexists. split; [reflexivity|]. state_simpl. split.
    { eapply is_list_intro;
        [lookup_solve|ends_solve|ends_solve|len_solve Hlen'|state_simpl..].
      + by apply NoDup_cons.
      + chain_solve. }
    insert_frame.
Qed.


Ltac remove_frame Hna :=
  state_simpl;
  split; [apply lookup_delete_eq|];
  split;
  [ let q := fresh "q" in let Hq := fresh "Hq" in
    intros q Hq;
    assert (q ≠ ltac:(lazymatch type of Hna with _ !! ?n = _ => exact n end))
      by (intros ->; done);
    unfold value_at; lookup_cases; done
  | split;
    [ let q := fresh "q" in let Hq := fresh "Hq" in
      intros q Hq; notin_split;
      rewrite lookup_delete_ne, ?lookup_insert_ne by done; done
    | split;
      [ first [ rewrite decide_True by done; by rewrite app_nil_r
              | rewrite decide_False by done;
                unfold value_at; by rewrite Hna ]
      | split; [done|]; split; [done|];
        split; [intros ? ?; by rewrite ?lookup_insert_ne by done|];
        eexists; split; [lookup_solve|done] ] ] ].

Lemma list_remove_at st l l1 node l2 :
  is_list st l (l1 ++ node :: l2) →
  ∃ st' L, list_remove l node st = Done tt st' ∧
    is_list st' l (l1 ++ l2) ∧
    lists st !! l = Some L ∧
    nodes st' !! node = None ∧
    (∀ q, q ∈ l1 ++ l2 → value_at (nodes st') q = value_at (nodes st) q) ∧
    (∀ q, q ∉ l1 ++ node :: l2 → nodes st' !! q = nodes st !! q) ∧
    calls st' = calls st ++
      (if decide (free L = NULL) then []
       else [EvFree (free L) (value_at (nodes st) node)]) ∧
    script st' = script st ∧ iters st' = iters st ∧
    (∀ l', l' ≠ l → lists st' !! l' = lists st !! l') ∧
    (∃ L', lists st' !! l = Some L' ∧
       dup L' = dup L ∧ free L' = free L ∧ match_fn L' = match_fn L).
Proof.
  intros Hl. is_list_destruct Hl.
  pose proof (wrap_len_pred _ _ _ _ Hnd Hseg) as Hlen'.
  rewrite length_middle in Hlen'.
  apply dlseg_app in Hseg as [Hseg1 Hseg2]. simpl in Hseg1, Hseg2.
  destruct Hseg2 as (Hra & na & Hna & Hpa & Hxa & Hseg2).
  destruct na as [pa xa va]. simpl in Hpa, Hxa. subst pa xa.
  apply NoDup_middle in Hnd as Hnd'.
  destruct Hnd' as (Ha1 & Ha2 & Hnd1 & Hnd2 & Hdisj).
  assert (Hnd' : NoDup (l1 ++ l2)).
  { apply NoDup_app. repeat split; done. }
  rewrite length_middle in HL. ends_simpl.
  assert (Hlen'' : wrap_ulong (Z.of_nat (S (length (l1 ++ l2))) - 1)
                   = Z.of_nat (length (l1 ++ l2))).
  { rewrite Hlen'; [lia|]. by destruct l1. }
  assert (Hnot : node ∉ l1 ++ l2) by (by apply not_elem_of_app).
  unfold list_remove. mrun.
  induction l1 as [|q l1 _] using rev_ind; destruct l2 as [|r l2].
  all: try (simpl in Hseg2;
            destruct Hseg2 as (Hrr & nr & Hnr & Hpr & Hxr & Hseg2);
            destruct nr as [pr xr vr]; simpl in Hpr, Hxr; subst pr xr;
            assert (r ≠ node) by (by apply not_elem_of_cons in Ha2 as [? ?])).
  all: try (apply dlseg_snoc_inv in Hseg1
              as (Hseg1 & Hrq & nq & Hnq & Hpq & Hxq);
            destruct nq as [pq xq vq]; simpl in Hpq, Hxq; subst pq xq;
            assert (q ≠ node)
              by (apply not_elem_of_app in Ha1 as [? Ha1'];
                  by apply not_elem_of_cons in Ha1' as [? ?])).
  all: try assert (q ≠ r)
         by (intros ->; apply (Hdisj r); [apply elem_of_app; right|]; left).
  all: ends_simpl; mrun.
  all: destruct (decide (fr = 0)) as [->|Hfr]; mrun.
  all: eexists; eexists; (split; [mdone|]); state_simpl;
       (split;
        [ eapply is_list_intro;
          [lookup_solve|ends_solve|ends_solve|len_solve Hlen''
          |done|chain_solve]
        | split; [eassumption|] ]).
  all: remove_frame Hna.
Qed.

Lemma list_remove_spec st l l1 node l2 :
  is_list st l (l1 ++ node :: l2) →
  ∃ st' L, list_remove l node st = Done tt st' ∧
    is_list st' l (l1 ++ l2) ∧
    lists st !! l = Some L ∧
    nodes st' !! node = None ∧
    (∀ q, q ∈ l1 ++ l2 → value_at (nodes st') q = value_at (nodes st) q) ∧
    (∀ q, q ∉ l1 ++ node :: l2 → nodes st' !! q = nodes st !! q) ∧
    calls st' = calls st ++
      (if decide (free L = NULL) then []
       else [EvFree (free L) (value_at (nodes st) node)]) ∧
    script st' = script st ∧ iters st' = iters st.
Proof.
  intros Hl.
  destruct (list_remove_at st l l1 node l2 Hl)
    as (st' & L & H1 & H2 & H3 & H4 & H5 & H6 & H7 & H8 & H9 & _).
  exists st', L. done.
Qed.


Lemma rotated_nil : rotated [] = [].
Proof. reflexivity. Qed.

Lemma rotated_snoc front t : rotated (front ++ [t]) = t :: front.
Proof. unfold rotated. by rewrite reverse_snoc, reverse_involutive. Qed.

Lemma rotated_length ps : length (rotated ps) = length ps.
Proof.
  induction ps as [|t front _] using rev_ind; [done|].
  rewrite rotated_snoc, length_app. simpl. lia.
Qed.

Lemma rotated_Permutation ps : rotated ps ≡ₚ ps.
Proof.
  induction ps as [|t front _] using rev_ind; [done|].
  rewrite rotated_snoc. by rewrite Permutation_app_comm.
Qed.

Lemma keeps_values_refl N : keeps_values N N.
Proof. intros q n Hq. eauto. Qed.

Ltac rotate_frame :=
  state_simpl;
  split; [keeps_values_solve|];
  split; [intros ?; lookup_cases; naive_solver|];
  split; [intros ? ? ? ?; by rewrite !lookup_insert_ne by done|];
  split; [intros ? ?; by rewrite lookup_insert_ne by done|];
  done.

Lemma list_rotate_spec st l ps :
  is_list st l ps →
  ∃ st' L L', list_rotate l st = Done tt st' ∧
    is_list st' l (rotated ps) ∧
    lists st !! l = Some L ∧ lists st' !! l = Some L' ∧
    len L' = len L ∧ dup L' = dup L ∧ free L' = free L ∧
    match_fn L' = match_fn L ∧
    keeps_values (nodes st) (nodes st') ∧
    (∀ q, nodes st' !! q = None ↔ nodes st !! q = None) ∧
    (∀ q, q ≠ head L → q ≠ tail L → q ≠ tail L' →
          nodes st' !! q = nodes st !! q) ∧
    (∀ l', l' ≠ l → lists st' !! l' = lists st !! l') ∧
    iters st' = iters st ∧ script st' = script st ∧ calls st' = calls st.
Proof.
  intros Hl. is_list_destruct Hl.
  assert (Hperm : NoDup (rotated ps)) by (by rewrite rotated_Permutation).
  unfold list_rotate. mrun.
  induction ps as [|t front _] using rev_ind.
  { (* no node *)
    simpl length. mrun. exists st. eexists. eexists.
    split; [done|]. split; [by eapply is_list_intro|].
    do 6 (split; [done|]). split; [apply keeps_values_refl|]. done. }
  rewrite rotated_snoc in *.
  apply dlseg_snoc_inv in Hseg as (Hseg & Hrt & nt & Hnt & Hpt & Hxt).
  destruct nt as [pt xt vt]. simpl in Hpt, Hxt. subst pt xt.
  destruct front as [|h mid].
  { (* one node *)
    simpl length. mrun. exists st. eexists. eexists.
    split; [done|]. split.
    { eapply is_list_intro;
        [eassumption|ends_solve|ends_solve|done|done|chain_solve]. }
    do 6 (split; [done|]). split; [apply keeps_values_refl|]. done. }
  simpl in Hseg. destruct Hseg as (Hrh & nh & Hnh & Hph & Hxh & Hseg).
  destruct nh as [ph xh vh]. simpl in Hph, Hxh. subst ph xh.
  assert (h ≠ t) by (apply NoDup_cons in Hperm as [Hperm' _]; set_solver).
  rewrite length_app in HL |- *. simpl length in HL |- *.
  rewrite decide_False by (simpl; lia).
  induction mid as [|q mid _] using rev_ind.
  - (* two nodes *)
    ends_simpl. mrun.
    eexists. eexists. eexists. split; [mdone|]. state_simpl. split.
    { eapply is_list_intro;
        [lookup_solve|ends_solve|ends_solve|state_simpl; simpl; lia|done
        |chain_solve]. }
    split; [done|]. split; [lookup_solve|]. state_simpl.
    repeat (split; [done|]). rotate_frame.
  - (* three nodes or more *)
    apply dlseg_snoc_inv in Hseg as (Hseg & Hrq & nq & Hnq & Hpq & Hxq).
    destruct nq as [pq xq vq]. simpl in Hpq, Hxq. subst pq xq.
    assert (q ≠ t ∧ q ≠ h ∧ (h ∉ mid) ∧ (t ∉ mid) ∧ (q ∉ mid))
      as (? & ? & ? & ? & ?).
    { clear -Hperm. notin_split. set_solver. }
    ends_simpl. mrun.
    eexists. eexists. eexists. split; [mdone|]. state_simpl. split.
    { eapply is_list_intro;
        [lookup_solve|ends_solve|ends_solve
        |state_simpl; cbn [length]; rewrite !length_app; cbn [length]; lia|done
        |chain_solve]. }
    split; [done|]. split; [lookup_solve|]. state_simpl.
    repeat (split; [done|]). rotate_frame.
Qed.

(* ===================================================================== *)
(** ** Creation, allocation failure, and the life of a list *)
(* ===================================================================== *)


(** What a call of [zmalloc] can do. *)
Lemma zmalloc_cases k st :
  (∃ p rest, script st = p :: rest ∧ usable st p ∧
             zmalloc k st = Done p (place k p (set_script st rest))) ∨
  (∃ s, zmalloc k st = Done NULL (set_script st s)).
Proof.
  unfold zmalloc. destruct (script st) as [|p rest] eqn:Hs.
  - right. exists []. destruct st; simpl in *. by subst.
  - destruct (decide (usable st p)); [left|right]; eauto.
Qed.

Lemma zmalloc_NULL k st st' :
  zmalloc k st = Done NULL st' → ∃ s, st' = set_script st s.
Proof.
  destruct (zmalloc_cases k st) as [(p & rest & Hs & Hu & ->)|[s ->]].
  - intros [= Hp _]. destruct Hu as [Hr _]. unfold NULL in *. lia.
  - intros [= <-]. eauto.
Qed.

Lemma zmalloc_not_NULL k st p st' :
  zmalloc k st = Done p st' → p ≠ NULL →
  ∃ rest, script st = p :: rest ∧ usable st p ∧
          st' = place k p (set_script st rest).
Proof.
  destruct (zmalloc_cases k st) as [(q & rest & Hs & Hu & ->)|[s ->]].
  - intros [= <- <-] _. eauto.
  - intros [= <- _]. done.
Qed.

Lemma is_list_set_script st l ps s :
  is_list st l ps → is_list (set_script st s) l ps.
Proof. intros (L & H). by exists L. Qed.

Lemma list_create_spec st l rest :
  script st = l :: rest → usable st l →
  list_create st =
    Done l (mk_state (nodes st) (iters st)
              (<[l := mk_list NULL NULL NULL NULL NULL 0]> (lists st))
              rest (calls st) (stale st)).
Proof.
  intros Hs Hu. pose proof Hu as (Hr & _).
  unfold list_create. erewrite run_bind by (by eapply run_zmalloc).
  cbv beta. mrun. reflexivity.
Qed.

Lemma list_create_failure st s :
  zmalloc KList st = Done NULL (set_script st s) →
  list_create st = Done NULL (set_script st s).
Proof.
  intros Hz. unfold list_create. erewrite run_bind by exact Hz.
  by rewrite decide_True.
Qed.

Lemma list_create_is_list st l st' :
  list_create st = Done l st' → l ≠ NULL → is_list st' l [].
Proof.
  intros Hc Hl.
  destruct (zmalloc_cases KList st) as [(p & rest & Hs & Hu & Hz)|[s Hz]].
  - rewrite (list_create_spec st p rest Hs Hu) in Hc.
    injection Hc as <- <-.
    eapply is_list_intro; [lookup_solve|try done..]. apply NoDup_nil_2.
  - rewrite (list_create_failure _ _ Hz) in Hc. by injection Hc as <- _.
Qed.

(** Installing a callback. *)
Lemma set_callback_spec st l ps m :
  is_list st l ps →
  (∃ st', list_set_clone_method l m st = Done tt st' ∧ is_list st' l ps) ∧
  (∃ st', list_set_free_method l m st = Done tt st' ∧ is_list st' l ps) ∧
  (∃ st', list_set_match_method l m st = Done tt st' ∧ is_list st' l ps).
Proof.
  intros Hl. is_list_destruct Hl.
  unfold list_set_clone_method, list_set_free_method, list_set_match_method.
  repeat split; mrun; (eexists; split; [mdone|]);
    (eapply is_list_intro; [lookup_solve|done..]).
Qed.

(** A failed node allocation: the three operations that add a node return
    [NULL] and have changed nothing but the allocator's script. *)
Lemma add_failure st st' l v old after :
  zmalloc KNode st = Done NULL st' →
  list_add_head l v st = Done NULL st' ∧
  list_add l v st = Done NULL st' ∧
  list_insert l old v after st = Done NULL st'.
Proof.
  intros Hz. unfold list_add_head, list_add, list_insert.
  repeat split; erewrite run_bind by exact Hz; by rewrite decide_True.
Qed.

Lemma run_op_progress st l ps o :
  is_list st l ps → op_pre st l o →
  ∃ st' ps', run_op l o st = Done tt st' ∧ is_list st' l ps'.
Proof.
  intros Hl Hpre. destruct o as [v|v|old v after|node| |m|m|m]; simpl.
  - destruct (zmalloc_cases KNode st) as [(p & rest & Hs & Hu & Hz)|[s Hz]].
    + destruct (list_add_head_spec st l ps v p rest Hl Hs Hu)
        as (st' & Hrun & Hl' & _).
      exists st', (p :: ps). split; [|done]. by erewrite run_bind.
    + destruct (add_failure _ _ l v 0 0 Hz) as (Hrun & _).
      exists (set_script st s), ps. split; [by erewrite run_bind|].
      by apply is_list_set_script.
  - destruct (zmalloc_cases KNode st) as [(p & rest & Hs & Hu & Hz)|[s Hz]].
    + destruct (list_add_spec st l ps v p rest Hl Hs Hu)
        as (st' & Hrun & Hl' & _).
      exists st', (ps ++ [p]). split; [|done]. by erewrite run_bind.
    + destruct (add_failure _ _ l v 0 0 Hz) as (_ & Hrun & _).
      exists (set_script st s), ps. split; [by erewrite run_bind|].
      by apply is_list_set_script.
  - simpl in Hpre. apply (is_list_belongs _ _ _ _ Hl) in Hpre.
    destruct (zmalloc_cases KNode st) as [(p & rest & Hs & Hu & Hz)|[s Hz]].
    + destruct (list_insert_spec st l ps old v after p rest Hl Hpre Hs Hu)
        as (ps' & st' & Hrun & Hl' & _).
      exists st', ps'. split; [|done]. by erewrite run_bind.
    + destruct (add_failure _ _ l v old after Hz) as (_ & _ & Hrun).
      exists (set_script st s), ps. split; [by erewrite run_bind|].
      by apply is_list_set_script.
  - simpl in Hpre. apply (is_list_belongs _ _ _ _ Hl) in Hpre.
    apply list_elem_of_split in Hpre as (l1 & l2 & ->).
    destruct (list_remove_spec st l l1 node l2 Hl)
      as (st' & L & Hrun & Hl' & _).
    by exists st', (l1 ++ l2).
  - destruct (list_rotate_spec st l ps Hl) as (st' & L & L' & Hrun & Hl' & _).
    by exists st', (rotated ps).
  - destruct (set_callback_spec st l ps m Hl) as ((st' & ? & ?) & _).
    by exists st', ps.
  - destruct (set_callback_spec st l ps m Hl) as (_ & (st' & ? & ?) & _).
    by exists st', ps.
  - destruct (set_callback_spec st l ps m Hl) as (_ & _ & (st' & ? & ?)).
    by exists st', ps.
Qed.

Lemma reached_is_list l st : reached l st → ∃ ps, is_list st l ps.
Proof.
  induction 1 as [st0 st Hc Hl|st o st' Hr [ps IH] Hpre Hrun].
  - exists []. by eapply list_create_is_list.
  - destruct (run_op_progress st l ps o IH Hpre) as (st2 & ps' & Hrun' & Hl').
    rewrite Hrun in Hrun'. injection Hrun' as <-. by exists ps'.
Qed.

Lemma reached_state_after l st o :
  reached l st → op_pre st l o → reached l (state_after (run_op l o) st).
Proof.
  intros Hr Hpre. destruct (reached_is_list l st Hr) as [ps Hl].
  destruct (run_op_progress st l ps o Hl Hpre) as (st' & _ & Hrun & _).
  unfold state_after. rewrite Hrun. by eapply reached_step.
Qed.

Lemma reached_after_ops l st ops :
  reached l st → ops_pre l st ops → reached l (after_ops l st ops).
Proof.
  revert st. induction ops as [|o ops IH]; intros st Hr Hpre; [done|].
  destruct Hpre as [Ho Hops]. simpl. apply IH; [|done].
  by apply reached_state_after.
Qed.

(** C1.  In every state that a list obtained from [list_create] goes
    through under [list_add_head], [list_add], [list_insert],
    [list_remove], [list_rotate] and the callback setters (the node handed
    to [list_insert] or [list_remove] being a node of the list), the
    invariants hold: [len] is the number of nodes that the walk from [head]
    along [next] visits, that walk is the reverse of the walk from [tail]
    along [prev], and [len] is zero exactly when [head] and [tail] are both
    [NULL].  Every such operation runs to completion from there, whatever
    the allocator answers. *)
Theorem list_invariants_always l st :
  reached l st →
  list_invariants st l ∧
  ∀ o, op_pre st l o → ∃ st', run_op l o st = Done tt st'.
Proof.
  intros Hr. destruct (reached_is_list l st Hr) as [ps Hl]. split.
  - by eapply is_list_invariants.
  - intros o Hpre.
    destruct (run_op_progress st l ps o Hl Hpre) as (st' & _ & Hrun & _).
    eauto.
Qed.


Lemma demo_created_run : list_create demo_start = Done 100 demo_created.
Proof. vm_compute. reflexivity. Qed.

Lemma demo_ops_pre : ops_pre 100 demo_created demo_ops.
Proof.
  repeat split.
  - eexists _, 10%nat, _.
    split; [vm_compute; reflexivity|].
    split; [vm_compute; reflexivity|]. set_solver.
  - eexists _, 10%nat, _.
    split; [vm_compute; reflexivity|].
    split; [vm_compute; reflexivity|]. set_solver.
Qed.

Lemma demo_reached : reached 100 demo_state.
Proof.
  apply reached_after_ops; [|exact demo_ops_pre].
  eapply reached_create; [exact demo_created_run|done].
Qed.

Lemma list_invariants_always_witness :
  list_invariants demo_state 100 ∧
  ∀ o, op_pre demo_state 100 o → ∃ st', run_op 100 o demo_state = Done tt st'.
Proof. apply list_invariants_always, demo_reached. Defined.

(** C2.  When the allocation of the node fails, [list_add_head], [list_add]
    and [list_insert] return [NULL] and leave the store as it was: every
    list (its [head], [tail], [len] and callbacks), every node and its
    links, every iterator, and no callback has been called.  Only the
    allocator has moved on. *)
Theorem alloc_failure_leaves_list_unmodified st st' l v old after :
  zmalloc KNode st = Done NULL st' →
  (list_add_head l v st = Done NULL st' ∧
   list_add l v st = Done NULL st' ∧
   list_insert l old v after st = Done NULL st') ∧
  nodes st' = nodes st ∧ iters st' = iters st ∧ lists st' = lists st ∧
  calls st' = calls st.
Proof.
  intros Hz. split; [by apply add_failure|].
  by apply zmalloc_NULL in Hz as [s ->].
Qed.

Lemma demo_state_exhausted :
  zmalloc KNode demo_state = Done NULL demo_state.
Proof. vm_compute. reflexivity. Qed.

Lemma alloc_failure_leaves_list_unmodified_witness :
  (list_add_head 100 7 demo_state = Done NULL demo_state ∧
   list_add 100 7 demo_state = Done NULL demo_state ∧
   list_insert 100 10 7 1 demo_state = Done NULL demo_state) ∧
  nodes demo_state = nodes demo_state ∧
  iters demo_state = iters demo_state ∧
  lists demo_state = lists demo_state ∧
  calls demo_state = calls demo_state.
Proof.
  apply alloc_failure_leaves_list_unmodified. exact demo_state_exhausted.
Defined.

(* ===================================================================== *)
(** ** Positional access *)
(* ===================================================================== *)


Lemma wrap_long_small z : LONG_MIN ≤ z ≤ LONG_MAX → wrap_long z = z.
Proof.
  unfold wrap_long, LONG_MIN, LONG_MAX, ULONG_MODULUS. intros H.
  rewrite Z.mod_small; lia.
Qed.

(** [(-index)-1] is computed right for every negative [long], the
    intermediate wrap-around at [LONG_MIN] included. *)
Lemma wrap_long_negate z :
  LONG_MIN ≤ z < 0 → wrap_long (wrap_long (- z) - 1) = - z - 1.
Proof.
  unfold LONG_MIN. intros H.
  destruct (decide (z = - 2 ^ 63)) as [->|Hne].
  - reflexivity.
  - rewrite (wrap_long_small (- z)) by (unfold LONG_MIN, LONG_MAX; lia).
    apply wrap_long_small. unfold LONG_MIN, LONG_MAX. lia.
Qed.

Lemma at_pos_head ps : hd NULL ps = at_pos ps 0.
Proof. by destruct ps. Qed.

Lemma at_pos_last ps : List.last ps NULL = at_pos ps (length ps - 1).
Proof.
  induction ps as [|t front _] using rev_ind; [done|].
  rewrite last_app_singleton. unfold at_pos. rewrite length_app. simpl.
  rewrite lookup_app_r by lia.
  by replace (length front + 1 - 1 - length front)%nat with 0%nat by lia.
Qed.

Lemma at_pos_past ps i : (length ps ≤ i)%nat → at_pos ps i = NULL.
Proof. intros H. unfold at_pos. by rewrite (proj2 (lookup_ge_None _ _) H). Qed.

Lemma at_pos_not_NULL N pr ps nx i :
  dlseg N pr ps nx → (i < length ps)%nat → at_pos ps i ≠ NULL.
Proof.
  intros Hseg Hi. unfold at_pos.
  destruct (lookup_lt_is_Some_2 ps i Hi) as [q Hq]. rewrite Hq. simpl.
  apply list_elem_of_lookup_2 in Hq.
  destruct (dlseg_elem _ _ _ _ _ Hseg Hq) as [Hr _]. unfold NULL. lia.
Qed.

Lemma list_index_loop_NULL b k st :
  list_index_loop b k NULL st = Done NULL st.
Proof. by destruct k. Qed.

Lemma list_index_loop_forward st ps k i :
  dlseg (nodes st) NULL ps NULL →
  list_index_loop false k (at_pos ps i) st = Done (at_pos ps (i + k)) st.
Proof.
  intros Hseg. revert i. induction k as [|k IH]; intros i.
  - simpl. by rewrite Nat.add_0_r.
  - destruct (ps !! i) as [q|] eqn:Hq.
    + destruct (dlseg_lookup _ _ _ _ _ _ Hseg Hq) as (n & Hn & _ & Hx).
      assert (Hnz : at_pos ps i ≠ NULL).
      { eapply at_pos_not_NULL; [done|]. by eapply lookup_lt_Some. }
      unfold at_pos in *. rewrite Hq in *. simpl in Hnz |- *.
      rewrite truthy_true by done. mrun. rewrite Hx.
      rewrite (IH (S i)). by rewrite Nat.add_succ_r.
    + apply lookup_ge_None in Hq.
      rewrite !at_pos_past by lia. apply list_index_loop_NULL.
Qed.

Lemma list_index_loop_backward st ps k i :
  dlseg (nodes st) NULL ps NULL → (i < length ps)%nat →
  list_index_loop true k (at_pos ps i) st =
    Done (if decide (k ≤ i)%nat then at_pos ps (i - k) else NULL) st.
Proof.
  intros Hseg. revert i. induction k as [|k IH]; intros i Hi.
  - simpl. by rewrite Nat.sub_0_r.
  - destruct (lookup_lt_is_Some_2 ps i Hi) as [q Hq].
    destruct (dlseg_lookup _ _ _ _ _ _ Hseg Hq) as (n & Hn & Hp & _).
    pose proof (at_pos_not_NULL _ _ _ _ _ Hseg Hi) as Hnz.
    unfold at_pos in Hnz |- *. rewrite Hq in *. simpl in Hnz |- *.
    rewrite truthy_true by done. mrun. rewrite Hp.
    destruct i as [|j].
    + rewrite list_index_loop_NULL. by rewrite decide_False by lia.
    + fold (at_pos ps j). rewrite IH by lia.
      destruct (decide (k ≤ j)%nat).
      * rewrite decide_True by lia. done.
      * rewrite decide_False by lia. done.
Qed.

Lemma list_index_spec st l ps index :
  is_list st l ps → LONG_MIN ≤ index ≤ LONG_MAX →
  list_index l index st = Done (index_of ps index) st.
Proof.
  intros Hl Hrange. is_list_destruct Hl.
  unfold list_index, index_of. destruct (decide (index < 0)) as [Hneg|Hpos].
  - rewrite wrap_long_negate by lia. mrun.
    destruct ps as [|p0 ps0] eqn:Eps.
    { simpl. rewrite list_index_loop_NULL. by rewrite at_pos_past by (simpl; lia). }
    rewrite <- Eps in *. assert (0 < length ps)%nat by (subst; simpl; lia).
    rewrite at_pos_last, list_index_loop_backward by (done || lia).
    destruct (decide (Z.to_nat (- index - 1) ≤ length ps - 1)%nat).
    + unfold at_pos. rewrite reverse_lookup by lia. do 2 f_equal. f_equal. lia.
    + by rewrite at_pos_past by (rewrite length_reverse; lia).
  - mrun. rewrite at_pos_head, list_index_loop_forward by done. done.
Qed.


Lemma demo_is_list : is_list demo_state 100 [30; 10; 40].
Proof.
  eapply is_list_intro; [vm_compute; reflexivity|reflexivity..| |].
  - apply NoDup_cons. split; [set_solver|].
    apply NoDup_cons. split; [set_solver|]. apply NoDup_singleton.
  - repeat (eapply dlseg_cons; [done|vm_compute; reflexivity|done..|]).
    exact I.
Qed.

(** C6.  For a well-formed list with [len] nodes and every [long] index:
    an index in [[0, len)] yields the node that the walk from [head] along
    [next] meets at that position; an index in [[-len, -1]] yields the node
    that the walk from [tail] along [prev] meets at position [-index-1];
    any other index yields [NULL].  The store is left as it was. *)
Theorem list_index_correct st l ps L index :
  is_list st l ps → lists st !! l = Some L →
  LONG_MIN ≤ index ≤ LONG_MAX →
  ∃ fwd bwd,
    walk false (nodes st) (S (length fwd)) (head L) = Some fwd ∧
    walk true (nodes st) (S (length bwd)) (tail L) = Some bwd ∧
    len L = Z.of_nat (length fwd) ∧
    (0 ≤ index < len L →
       ∃ n, fwd !! Z.to_nat index = Some n ∧
            list_index l index st = Done n st) ∧
    (- len L ≤ index ≤ -1 →
       ∃ n, bwd !! Z.to_nat (- index - 1) = Some n ∧
            list_index l index st = Done n st) ∧
    (index < - len L ∨ len L ≤ index →
       list_index l index st = Done NULL st).
Proof.
  intros Hl HL Hrange.
  pose proof (list_index_spec st l ps index Hl Hrange) as Hidx.
  destruct Hl as (L' & HL' & Hh & Ht & Hlen & Hnd & Hseg). simplify_eq.
  exists ps, (reverse ps). rewrite length_reverse, Hh, Ht, Hlen.
  split; [eapply walk_forward; [done|lia]|].
  split; [eapply walk_backward; [done|lia]|].
  split; [done|]. rewrite Hidx. unfold index_of, at_pos. split; [|split].
  - intros Hi. rewrite decide_False by lia.
    destruct (lookup_lt_is_Some_2 ps (Z.to_nat index)) as [n Hn]; [lia|].
    exists n. by rewrite Hn.
  - intros Hi. rewrite decide_True by lia.
    destruct (lookup_lt_is_Some_2 (reverse ps) (Z.to_nat (- index - 1)))
      as [n Hn]; [rewrite length_reverse; lia|].
    exists n. by rewrite Hn.
  - intros [Hi|Hi].
    + rewrite decide_True by lia.
      by rewrite (proj2 (lookup_ge_None _ _)) by (rewrite length_reverse; lia).
    + rewrite decide_False by lia.
      by rewrite (proj2 (lookup_ge_None _ _)) by lia.
Qed.

Lemma list_index_correct_witness :
  ∃ fwd bwd,
    walk false (nodes demo_state) (S (length fwd)) 30 = Some fwd ∧
    walk true (nodes demo_state) (S (length bwd)) 40 = Some bwd ∧
    3 = Z.of_nat (length fwd) ∧
    (0 ≤ -2 < 3 →
       ∃ n, fwd !! Z.to_nat (-2) = Some n ∧
            list_index 100 (-2) demo_state = Done n demo_state) ∧
    (- 3 ≤ -2 ≤ -1 →
       ∃ n, bwd !! Z.to_nat (- -2 - 1) = Some n ∧
            list_index 100 (-2) demo_state = Done n demo_state) ∧
    (-2 < - 3 ∨ 3 ≤ -2 →
       list_index 100 (-2) demo_state = Done NULL demo_state).
Proof.
  apply (list_index_correct demo_state 100 [30; 10; 40]
           (mk_list 30 40 0 0 0 3) (-2)).
  - exact demo_is_list.
  - vm_compute. reflexivity.
  - unfold LONG_MIN, LONG_MAX. lia.
Defined.

(* ===================================================================== *)
(** ** Iterators and search *)
(* ===================================================================== *)


(** [list_next] on an exhausted iterator. *)
Lemma list_next_NULL st it d :
  iters st !! it = Some (mk_iter NULL d) →
  list_next it st = Done NULL st.
Proof. intros Hit. unfold list_next. mrun. reflexivity. Qed.

(** [list_next] on an iterator that has a node under its cursor. *)
Lemma list_next_node st it c d n :
  iters st !! it = Some (mk_iter c d) → c ≠ NULL →
  nodes st !! c = Some n →
  list_next it st =
    Done c (set_iters st
              (<[it := mk_iter (if decide (d = _START_HEAD)
                                then next n else prev n) d]> (iters st))).
Proof.
  intros Hit Hc Hn. unfold list_next. mrun.
  destruct (decide (d = _START_HEAD)); mrun; reflexivity.
Qed.

(** [list_next] through a cursor that points to no live node. *)
Lemma list_next_dangling st it c d :
  iters st !! it = Some (mk_iter c d) → c ≠ NULL →
  nodes st !! c = None →
  list_next it st = Fault.
Proof.
  intros Hit Hc Hn. unfold list_next. mrun.
  destruct (decide (d = _START_HEAD)); unfold_fields;
    rewrite !run_bind_assoc;
    (erewrite run_bind_fault; [reflexivity|]);
    unfold read_node; by rewrite Hn.
Qed.

(** [list_next] through a pointer that is no iterator, [NULL] included. *)
Lemma list_next_no_iterator st it :
  iters st !! it = None → list_next it st = Fault.
Proof.
  intros Hit. unfold list_next. unfold_fields. rewrite !run_bind_assoc.
  erewrite run_bind_fault; [reflexivity|]. unfold read_iter. by rewrite Hit.
Qed.

Lemma list_iterator_spec st l L d it rest :
  lists st !! l = Some L → script st = it :: rest → usable st it →
  list_iterator l d st =
    Done it (mk_state (nodes st)
               (<[it := mk_iter (if decide (d = _START_HEAD)
                                 then head L else tail L) d]> (iters st))
               (lists st) rest (calls st) (stale st)).
Proof.
  intros HL Hs Hu. pose proof Hu as (Hr & _).
  unfold list_iterator. erewrite run_bind by (by eapply run_zmalloc).
  cbv beta. mrun. destruct (decide (d = _START_HEAD)); mrun; reflexivity.
Qed.

Lemma list_iterator_failure st st' l d :
  zmalloc KIter st = Done NULL st' → list_iterator l d st = Done NULL st'.
Proof.
  intros Hz. unfold list_iterator. erewrite run_bind by exact Hz.
  by rewrite decide_True.
Qed.

Lemma first_match_spec matches ps :
  NULL ∉ ps →
  (first_match matches ps = NULL ∧ ∀ p, p ∈ ps → matches p = false) ∨
  (∃ i, ps !! i = Some (first_match matches ps) ∧
        matches (first_match matches ps) = true ∧
        ∀ j q, (j < i)%nat → ps !! j = Some q → matches q = false).
Proof.
  induction ps as [|p ps IH]; intros Hnull.
  - left. split; [done|]. intros p Hp. by apply elem_of_nil in Hp.
  - apply not_elem_of_cons in Hnull as [Hp Hnull]. simpl.
    destruct (matches p) eqn:Hm.
    + right. exists 0%nat. repeat split; try done. intros j q Hj. lia.
    + destruct (IH Hnull) as [[Hn Hall]|(i & Hi & Hmi & Hlt)].
      * left. split; [done|]. intros q [->|Hq]%elem_of_cons; auto.
      * right. exists (S i). repeat split; try done.
        intros [|j] q Hj Hq; simpl in Hq; [by simplify_eq|].
        apply (Hlt j q); [lia|done].
Qed.

Section Search.
Variable call_match : Z → Z → Z → Z.

Lemma at_pos_drop ps i :
  (i < length ps)%nat → drop i ps = at_pos ps i :: drop (S i) ps.
Proof.
  intros Hi. destruct (lookup_lt_is_Some_2 ps i Hi) as [q Hq].
  unfold at_pos. rewrite Hq. simpl. by apply drop_S.
Qed.

Lemma list_search_loop_spec N I Ls Sc C J l L it ps key fuel i :
  Ls !! l = Some L → dlseg N NULL ps NULL → it ≠ NULL →
  (length ps - i < fuel)%nat →
  list_search_loop call_match fuel l it key
    (mk_state N (<[it := mk_iter (at_pos ps i) _START_HEAD]> I) Ls Sc C J) =
  Done (first_match
          (λ p, value_matches call_match (match_fn L) (value_at N p) key)
          (drop i ps))
       (mk_state N (delete it I) Ls Sc C J).
Proof.
  intros HL Hseg Hit. revert i.
  induction fuel as [|fuel IH]; intros i Hfuel; [lia|].
  cbn [list_search_loop].
  destruct (decide (i < length ps)%nat) as [Hi|Hi].
  - destruct (lookup_lt_is_Some_2 ps i Hi) as [q Hq].
    destruct (dlseg_lookup _ _ _ _ _ _ Hseg Hq) as (n & Hn & _ & Hx).
    pose proof (at_pos_not_NULL _ _ _ _ _ Hseg Hi) as Hnz.
    rewrite (at_pos_drop ps i Hi). unfold at_pos in Hnz |- *.
    rewrite Hq in *. simpl in Hnz |- *.
    erewrite run_bind
      by (eapply list_next_node; [lookup_solve|done|lookup_solve]).
    cbv beta. mrun. simpl.
    unfold value_matches at 1. rewrite (value_at_lookup _ _ _ Hn). mrun.
    destruct (truthy (match_fn L)) eqn:Hm.
    + mrun. destruct (truthy (call_match (match_fn L) (value n) key)).
      * mrun. by rewrite delete_insert_eq.
      * rewrite Hx. apply (IH (S i)). lia.
    + mrun. destruct (decide (key = value n)) as [Hk|Hk].
      * rewrite bool_decide_eq_true_2 by done. mrun.
        by rewrite delete_insert_eq.
      * rewrite bool_decide_eq_false_2 by done. rewrite Hx.
        apply (IH (S i)). lia.
  - rewrite at_pos_past by lia. rewrite drop_ge by lia.
    erewrite run_bind by (eapply list_next_NULL; lookup_solve).
    mrun. by rewrite delete_insert_eq.
Qed.

End Search.


Lemma is_list_set_iters st l ps I :
  is_list st l ps → is_list (set_iters st I) l ps.
Proof. intros (L & H). by exists L. Qed.

Lemma lookup_split (ps : list Z) i c :
  ps !! i = Some c → ps = take i ps ++ c :: drop (S i) ps.
Proof. intros H. by rewrite <- (drop_S _ _ _ H), take_drop. Qed.

(** C8.  [list_next] returns the node under the cursor ([NULL] once the
    iterator is exhausted) and, before it returns, moves the cursor to that
    node's [next] neighbour for a forward iterator and to its [prev]
    neighbour otherwise.  So when the node just returned is removed from
    its list, the following [list_next] returns the neighbour all the
    same. *)
Theorem list_next_then_remove st l ps it c d :
  is_list st l ps → iters st !! it = Some (mk_iter c d) →
  (c = NULL → list_next it st = Done NULL st) ∧
  (∀ i, ps !! i = Some c →
     let neighbour :=
       if decide (d = _START_HEAD) then at_pos ps (S i)
       else match i with O => NULL | S j => at_pos ps j end in
     ∃ st1 st2 st3,
       list_next it st = Done c st1 ∧
       st1 = set_iters st (<[it := mk_iter neighbour d]> (iters st)) ∧
       list_remove l c st1 = Done tt st2 ∧
       list_next it st2 = Done neighbour st3).
Proof.
  intros Hl Hit. split.
  { intros ->. by eapply list_next_NULL. }
  intros i Hi neighbour.
  pose proof Hl as (L & HL & Hh & Ht & Hlen & Hnd & Hseg).
  destruct (dlseg_lookup _ _ _ _ _ _ Hseg Hi) as (n & Hn & Hp & Hx).
  assert (Hc : c ≠ NULL).
  { apply list_elem_of_lookup_2 in Hi.
    destruct (dlseg_elem _ _ _ _ _ Hseg Hi) as [Hr _]. unfold NULL. lia. }
  assert (Hnb : (if decide (d = _START_HEAD) then next n else prev n)
                = neighbour).
  { unfold neighbour, at_pos. destruct (decide (d = _START_HEAD)); [done|].
    rewrite Hp. by destruct i. }
  pose proof (list_next_node st it c d n Hit Hc Hn) as Hnext.
  rewrite Hnb in Hnext.
  set (st1 := set_iters st (<[it := mk_iter neighbour d]> (iters st))) in *.
  assert (Hl1 : is_list st1 l ps) by (by apply is_list_set_iters).
  rewrite (lookup_split ps i c Hi) in Hl1.
  destruct (list_remove_spec st1 l _ c _ Hl1)
    as (st2 & L2 & Hrm & Hl2 & _ & _ & _ & _ & _ & _ & Hit2).
  assert (Hit2' : iters st2 !! it = Some (mk_iter neighbour d)).
  { rewrite Hit2. unfold st1. simpl. apply lookup_insert_eq. }
  destruct (decide (neighbour = NULL)) as [Hnull|Hnn].
  - exists st1, st2, st2. repeat split; try done.
    rewrite Hnull in *. by eapply list_next_NULL.
  - assert (Hin : neighbour ∈ take i ps ++ drop (S i) ps).
    { apply elem_of_app. unfold neighbour in *.
      destruct (decide (d = _START_HEAD)).
      - right. unfold at_pos in *.
        destruct (ps !! S i) as [q|] eqn:Hq; [|done]. simpl.
        rewrite <- (Nat.add_0_r (S i)) in Hq.
        rewrite <- lookup_drop in Hq.
        by eapply list_elem_of_lookup_2.
      - left. destruct i as [|j]; [done|]. unfold at_pos in *.
        destruct (ps !! j) as [q|] eqn:Hq; [|done]. simpl.
        apply (list_elem_of_lookup_2 _ j). rewrite lookup_take_lt by lia.
        done. }
    destruct Hl2 as (L2' & _ & _ & _ & _ & _ & Hseg2).
    destruct (dlseg_elem _ _ _ _ _ Hseg2 Hin) as [_ [n2 Hn2]].
    eexists st1, st2, _. repeat split; try done.
    by eapply list_next_node.
Qed.


Lemma NoDup_10_20_30 : NoDup [10; 20; 30].
Proof.
  apply NoDup_cons. split; [set_solver|].
  apply NoDup_cons. split; [set_solver|]. apply NoDup_singleton.
Qed.

Lemma scenario_is_list st :
  nodes st = nodes scenario_list → lists st = lists scenario_list →
  is_list st 100 [10; 20; 30].
Proof.
  intros HN HL.
  eapply is_list_intro;
    [rewrite HL; vm_compute; reflexivity|reflexivity..
    |exact NoDup_10_20_30|rewrite HN; clear HN HL].
  repeat (eapply dlseg_cons; [done|vm_compute; reflexivity|done..|]).
  exact I.
Qed.

Lemma list_next_then_remove_witness :
  (10 = NULL → list_next 200 scenario_iter = Done NULL scenario_iter) ∧
  (∀ i, [10; 20; 30] !! i = Some 10 →
     let neighbour :=
       if decide (_START_HEAD = _START_HEAD) then at_pos [10; 20; 30] (S i)
       else match i with O => NULL | S j => at_pos [10; 20; 30] j end in
     ∃ st1 st2 st3,
       list_next 200 scenario_iter = Done 10 st1 ∧
       st1 = set_iters scenario_iter
               (<[200 := mk_iter neighbour _START_HEAD]>
                  (iters scenario_iter)) ∧
       list_remove 100 10 st1 = Done tt st2 ∧
       list_next 200 st2 = Done neighbour st3).
Proof.
  apply (list_next_then_remove scenario_iter 100 [10; 20; 30] 200 10
           _START_HEAD).
  - by apply scenario_is_list.
  - vm_compute. reflexivity.
Defined.

(** The scenario itself: the first [list_next] yields the node holding 1;
    with that node removed, the next one yields the node holding 2. *)
Lemma scenario_yields_1_then_2 :
  ∃ st1 st2 st3,
    value_of_result (list_next 200) scenario_iter = Done 1 st1 ∧
    list_remove 100 10 st1 = Done tt st2 ∧
    value_of_result (list_next 200) st2 = Done 2 st3.
Proof.
  eexists _, _, _.
  split; [vm_compute; reflexivity|].
  split; vm_compute; reflexivity.
Qed.


(** C9.  When its iterator can be allocated, [list_search] returns the
    first node, in the order of the walk from [head] along [next], whose
    value matches the key, and [NULL] when no node does.  A value matches
    by the [match] callback when one is installed and by pointer comparison
    with the key otherwise.  Only the allocator has moved on afterwards. *)
Theorem list_search_correct call_match st l ps L key fuel it rest :
  is_list st l ps → lists st !! l = Some L →
  script st = it :: rest → usable st it → (length ps < fuel)%nat →
  let matches p :=
    value_matches call_match (match_fn L) (value_at (nodes st) p) key in
  walk false (nodes st) (S (length ps)) (head L) = Some ps ∧
  ∃ r, list_search call_match fuel l key st = Done r (set_script st rest) ∧
       ((r = NULL ∧ ∀ p, p ∈ ps → matches p = false) ∨
        (∃ i, ps !! i = Some r ∧ matches r = true ∧
              ∀ j q, (j < i)%nat → ps !! j = Some q → matches q = false)).
Proof.
  intros Hl HL Hs Hu Hfuel matches.
  pose proof Hl as (L' & HL' & Hh & Ht & Hlen & Hnd & Hseg). simplify_eq.
  split. { rewrite Hh. eapply walk_forward; [done|lia]. }
  exists (first_match matches ps). split.
  - unfold list_search.
    erewrite run_bind by (by eapply list_iterator_spec).
    rewrite decide_True by done. rewrite Hh, at_pos_head.
    destruct Hu as (Hr & _ & HI & _).
    erewrite list_search_loop_spec;
      [|done|done|unfold NULL; lia|lia].
    rewrite drop_0, delete_id by done. by destruct st.
  - apply first_match_spec. by eapply dlseg_NULL_not_elem.
Qed.

Lemma list_search_correct_witness :
  let matches p :=
    value_matches demo_match 0 (value_at (nodes scenario_list) p) 2 in
  walk false (nodes scenario_list) (S (length [10; 20; 30])) 10
    = Some [10; 20; 30] ∧
  ∃ r, list_search demo_match 4 100 2 scenario_list
       = Done r (set_script scenario_list []) ∧
       ((r = NULL ∧ ∀ p, p ∈ [10; 20; 30] → matches p = false) ∨
        (∃ i, [10; 20; 30] !! i = Some r ∧ matches r = true ∧
              ∀ j q, (j < i)%nat → [10; 20; 30] !! j = Some q →
                     matches q = false)).
Proof.
  apply (list_search_correct demo_match scenario_list 100 [10; 20; 30]
           (mk_list 10 30 0 0 0 3) 2 4 200 []).
  - by apply scenario_is_list.
  - vm_compute. reflexivity.
  - vm_compute. reflexivity.
  - vm_compute. repeat split; done.
  - simpl. lia.
Defined.

(** C4 ([list.h]: "This function can't fail").  [list_iterator] does fail:
    when the allocation of the iterator fails it returns [NULL], and no
    iterator has been made. *)
Theorem list_iterator_can_fail st st' l d :
  zmalloc KIter st = Done NULL st' →
  list_iterator l d st = Done NULL st' ∧ iters st' = iters st.
Proof.
  intros Hz. split; [by apply list_iterator_failure|].
  by apply zmalloc_NULL in Hz as [s ->].
Qed.

Lemma list_iterator_can_fail_witness :
  list_iterator 100 _START_HEAD demo_state = Done NULL demo_state ∧
  iters demo_state = iters demo_state.
Proof.
  apply list_iterator_can_fail. vm_compute. reflexivity.
Defined.

Lemma list_search_iterator_failure call_match st st' l key fuel :
  iters st !! NULL = None →
  zmalloc KIter st = Done NULL st' →
  list_search call_match (S fuel) l key st = Fault.
Proof.
  intros HI Hz. unfold list_search.
  erewrite run_bind by (by apply list_iterator_failure).
  cbn [list_search_loop]. apply run_bind_fault, list_next_no_iterator.
  apply zmalloc_NULL in Hz as [s ->]. exact HI.
Qed.

Lemma zmalloc_NULL_inv k st st' :
  zmalloc k st = Done NULL st' →
  script st = [] ∨ ∃ x r, script st = x :: r ∧ ¬ usable st x.
Proof.
  unfold zmalloc. destruct (script st) as [|x r]; [by left|].
  destruct (decide (usable st x)) as [Hu|Hu]; [|right; eauto].
  intros [= Hx _]. destruct Hu as [Hr _]. unfold NULL in *. lia.
Qed.

Lemma list_clone_iterator_failure call_dup st st' orig L copy s2 fuel :
  lists st !! orig = Some L → iters st !! NULL = None →
  script st = copy :: s2 → usable st copy →
  zmalloc KIter (set_script st s2) = Done NULL st' →
  list_clone call_dup (S fuel) orig st = Fault.
Proof.
  intros HL HI Hs Hu Hz. pose proof Hu as (Hr & _ & _ & HLc).
  assert (copy ≠ orig) by congruence.
  apply zmalloc_NULL_inv in Hz. simpl in Hz.
  unfold list_clone.
  erewrite run_bind by (by eapply list_create_spec).
  rewrite decide_False by (unfold NULL; lia). mrun.
  match goal with |- (list_iterator _ _ ≫= _) ?s = _ => set (st1 := s) end.
  assert (Hz1 : ∃ st1', zmalloc KIter st1 = Done NULL st1' ∧
                        iters st1' = iters st).
  { destruct Hz as [->|(x & r & -> & Hnu)].
    - exists st1. split; [by apply run_zmalloc_exhausted|done].
    - eexists. split; [eapply (run_zmalloc_refused _ x r); [done|]|done].
      intros (Hrx & HNx & HIx & HLx). apply Hnu.
      unfold st1 in *. simpl in *.
      apply lookup_insert_None in HLx as [? ?].
      split; [lia|]. by repeat split. }
  destruct Hz1 as (st1' & Hz1 & HI1).
  erewrite run_bind by (by apply list_iterator_failure).
  cbn [list_clone_loop]. apply run_bind_fault, list_next_no_iterator.
  by rewrite HI1.
Qed.

(** C5.  [list_clone] and [list_search] do not check what [list_iterator]
    returns.  When the allocation of their iterator fails, they call
    [list_next] on [NULL]: an invalid access, where a failure was to be
    returned.  ([st] is the state [list_search] starts in; [st_c] the one
    [list_clone] starts in, whose allocator can still supply the copy.) *)
Theorem iterator_failure_not_propagated call_dup call_match
    st st' l key fuel st_c st_c' orig L copy s2 :
  iters st !! NULL = None →
  zmalloc KIter st = Done NULL st' →
  lists st_c !! orig = Some L → iters st_c !! NULL = None →
  script st_c = copy :: s2 → usable st_c copy →
  zmalloc KIter (set_script st_c s2) = Done NULL st_c' →
  list_search call_match (S fuel) l key st = Fault ∧
  list_clone call_dup (S fuel) orig st_c = Fault.
Proof.
  intros. split.
  - by eapply list_search_iterator_failure.
  - by eapply list_clone_iterator_failure.
Qed.

Lemma iterator_failure_not_propagated_witness :
  list_search demo_match 4 100 2 demo_state = Fault ∧
  list_clone demo_dup 4 100 (set_script demo_state [200]) = Fault.
Proof.
  apply (iterator_failure_not_propagated demo_dup demo_match
           demo_state demo_state 100 2 3
           (set_script demo_state [200]) (set_script demo_state [])
           100 (mk_list 30 40 0 0 0 3) 200 []).
  - vm_compute. reflexivity.
  - vm_compute. reflexivity.
  - vm_compute. reflexivity.
  - vm_compute. reflexivity.
  - vm_compute. reflexivity.
  - vm_compute. repeat split; done.
  - vm_compute. reflexivity.
Defined.

(* ===================================================================== *)
(** ** Rotation *)
(* ===================================================================== *)


(** Rotating as often as the list is long brings every node back. *)
Lemma rotated_iter_app (l1 l2 : list Z) :
  Nat.iter (length l2) rotated (l1 ++ l2) = l2 ++ l1.
Proof.
  revert l1. induction l2 as [|t l2 IH] using rev_ind; intros l1.
  - simpl. by rewrite app_nil_r.
  - rewrite length_app. simpl length. rewrite Nat.add_1_r.
    rewrite Nat.iter_succ_r, app_assoc, rotated_snoc.
    rewrite <- app_assoc. apply (IH (t :: l1)).
Qed.

Lemma rotated_iter_length (ps : list Z) :
  Nat.iter (length ps) rotated ps = ps.
Proof.
  pose proof (rotated_iter_app [] ps) as H. by rewrite app_nil_r in H.
Qed.

Lemma list_rotate_small st l L :
  lists st !! l = Some L → len L ≤ 1 → list_rotate l st = Done tt st.
Proof. intros HL Hlen. unfold list_rotate. mrun. reflexivity. Qed.

Lemma keeps_values_trans N1 N2 N3 :
  keeps_values N1 N2 → keeps_values N2 N3 → keeps_values N1 N3.
Proof.
  intros H12 H23 q n Hq. destruct (H12 q n Hq) as (n2 & Hn2 & Hv2).
  destruct (H23 q n2 Hn2) as (n3 & Hn3 & Hv3). exists n3. split; congruence.
Qed.

Lemma list_rotate_times_spec n st l ps :
  is_list st l ps →
  ∃ st', list_rotate_times n l st = Done tt st' ∧
         is_list st' l (Nat.iter n rotated ps) ∧
         keeps_values (nodes st) (nodes st') ∧
         (∀ q, nodes st' !! q = None ↔ nodes st !! q = None) ∧
         script st' = script st.
Proof.
  revert st ps. induction n as [|n IH]; intros st ps Hl.
  - exists st. repeat split; try done. apply keeps_values_refl.
  - destruct (list_rotate_spec st l ps Hl)
      as (st1 & L & L1 & Hrun & Hl1 & _ & _ & _ & _ & _ & _ & Hkv & Hdom
          & _ & _ & _ & Hs & _).
    destruct (IH st1 (rotated ps) Hl1) as (st2 & Hrun2 & Hl2 & Hv2 & Hd2 & Hs2).
    exists st2. cbn [list_rotate_times]. erewrite run_bind by exact Hrun.
    rewrite Nat.iter_succ_r. repeat split; try done.
    + by eapply keeps_values_trans.
    + rewrite Hd2. apply Hdom.
    + rewrite Hd2. apply Hdom.
    + congruence.
Qed.

(** C7.  On a well-formed list, [list_rotate] changes nothing when the list
    has at most one node; otherwise the last node becomes the first and the
    others keep their order, the same nodes being live before and after and
    the allocator not having been asked.  Rotating as many times as the
    list has nodes brings the nodes back to their original order, each
    with its value. *)
Theorem list_rotate_correct st l ps :
  is_list st l ps →
  ((length ps ≤ 1)%nat → list_rotate l st = Done tt st) ∧
  (∀ front t, ps = front ++ [t] → front ≠ [] →
     ∃ st', list_rotate l st = Done tt st' ∧
            is_list st' l (t :: front) ∧
            (∀ q, nodes st' !! q = None ↔ nodes st !! q = None) ∧
            script st' = script st) ∧
  (∃ st', list_rotate_times (length ps) l st = Done tt st' ∧
          is_list st' l ps ∧
          values (nodes st') ps = values (nodes st) ps).
Proof.
  intros Hl. split; [|split].
  - intros Hlen. destruct Hl as (L & HL & _ & _ & HlenL & _).
    eapply list_rotate_small; [done|lia].
  - intros front t -> Hne.
    destruct (list_rotate_spec _ _ _ Hl)
      as (st1 & L & L1 & Hrun & Hl1 & _ & _ & _ & _ & _ & _ & _ & Hdom
          & _ & _ & _ & Hs & _).
    rewrite rotated_snoc in Hl1. by exists st1.
  - destruct (list_rotate_times_spec (length ps) st l ps Hl)
      as (st' & Hrun & Hl' & Hkv & _).
    rewrite rotated_iter_length in Hl'. exists st'. repeat split; try done.
    destruct Hl as (L & _ & _ & _ & _ & _ & Hseg).
    by eapply keeps_values_chain.
Qed.

Lemma list_rotate_correct_witness :
  ((length demo_nodes ≤ 1)%nat →
     list_rotate 100 demo_state = Done tt demo_state) ∧
  (∀ front t, demo_nodes = front ++ [t] → front ≠ [] →
     ∃ st', list_rotate 100 demo_state = Done tt st' ∧
            is_list st' 100 (t :: front) ∧
            (∀ q, nodes st' !! q = None ↔ nodes demo_state !! q = None) ∧
            script st' = script demo_state) ∧
  (∃ st', list_rotate_times (length demo_nodes) 100 demo_state
          = Done tt st' ∧
          is_list st' 100 demo_nodes ∧
          values (nodes st') demo_nodes
          = values (nodes demo_state) demo_nodes).
Proof. apply list_rotate_correct, demo_is_list. Defined.

(** C10.  [list_rotate] on a well-formed list leaves [len] and the three
    callbacks as they were, and every node keeps its value, so the values
    of the list are the same up to order.  It writes to the list header
    and to at most three nodes (the old head, the old tail and the new
    tail): every other node, every other list, every iterator, the
    allocator and the record of callback calls are untouched. *)
Theorem list_rotate_frame st l ps :
  is_list st l ps →
  ∃ st' L L',
    list_rotate l st = Done tt st' ∧
    lists st !! l = Some L ∧ lists st' !! l = Some L' ∧
    len L' = len L ∧ dup L' = dup L ∧ free L' = free L ∧
    match_fn L' = match_fn L ∧
    is_list st' l (rotated ps) ∧
    values (nodes st') (rotated ps) ≡ₚ values (nodes st) ps ∧
    keeps_values (nodes st) (nodes st') ∧
    (∀ q, q ≠ head L → q ≠ tail L → q ≠ tail L' →
          nodes st' !! q = nodes st !! q) ∧
    (∀ l', l' ≠ l → lists st' !! l' = lists st !! l') ∧
    iters st' = iters st ∧ script st' = script st ∧ calls st' = calls st.
Proof.
  intros Hl.
  destruct (list_rotate_spec st l ps Hl)
    as (st' & L & L' & Hrun & Hl' & HL & HL' & H1 & H2 & H3 & H4 & Hkv & Hdom
        & Hfr & Hls & Hi & Hs & Hc).
  exists st', L, L'. repeat split; try done.
  destruct Hl as (L0 & _ & _ & _ & _ & _ & Hseg).
  rewrite <- (keeps_values_chain _ _ _ _ _ Hkv Hseg).
  unfold values. by rewrite rotated_Permutation.
Qed.

Lemma list_rotate_frame_witness :
  ∃ st' L L',
    list_rotate 100 demo_state = Done tt st' ∧
    lists demo_state !! 100 = Some L ∧ lists st' !! 100 = Some L' ∧
    len L' = len L ∧ dup L' = dup L ∧ free L' = free L ∧
    match_fn L' = match_fn L ∧
    is_list st' 100 (rotated demo_nodes) ∧
    values (nodes st') (rotated demo_nodes)
      ≡ₚ values (nodes demo_state) demo_nodes ∧
    keeps_values (nodes demo_state) (nodes st') ∧
    (∀ q, q ≠ head L → q ≠ tail L → q ≠ tail L' →
          nodes st' !! q = nodes demo_state !! q) ∧
    (∀ l', l' ≠ 100 → lists st' !! l' = lists demo_state !! l') ∧
    iters st' = iters demo_state ∧ script st' = script demo_state ∧
    calls st' = calls demo_state.
Proof. apply list_rotate_frame, demo_is_list. Defined.

(* ===================================================================== *)
(** ** Releasing and cloning a list *)
(* ===================================================================== *)


Lemma values_delete_other N ps q :
  q ∉ ps → values (delete q N) ps = values N ps.
Proof.
  intros Hq. apply list_fmap_ext. intros i p Hp.
  apply list_elem_of_lookup_2 in Hp. unfold value_at.
  rewrite lookup_delete_ne; [done|]. by intros ->.
Qed.

(** [list_free]'s loop over a chain: every node is released, after the
    [free] callback, when there is one, was called on its value. *)
Lemma list_free_loop_spec st l L pr ps :
  lists st !! l = Some L → NoDup ps → dlseg (nodes st) pr ps NULL →
  ∃ st', list_free_loop (length ps) l (hd NULL ps) st = Done tt st' ∧
    (∀ q, q ∈ ps → nodes st' !! q = None) ∧
    (∀ q, q ∉ ps → nodes st' !! q = nodes st !! q) ∧
    calls st' = calls st ++ free_events (free L) (values (nodes st) ps) ∧
    lists st' = lists st ∧ iters st' = iters st ∧ script st' = script st.
Proof.
  intros HL. revert st pr HL.
  induction ps as [|p ps IH]; intros st pr HL Hnd Hseg.
  - exists st. simpl. repeat split; try done.
    + intros q Hq. by apply elem_of_nil in Hq.
    + unfold free_events. destruct (truthy (free L)); by rewrite app_nil_r.
  - simpl in Hseg. destruct Hseg as (Hr & n & Hn & Hp & Hx & Hseg).
    apply NoDup_cons in Hnd as [Hp' Hnd].
    assert (Hpn : p ≠ NULL) by (unfold NULL; lia).
    cbn [length list_free_loop hd]. mrun. rewrite Hx.
    destruct (decide (free L = 0)) as [Hf|Hf].
    + rewrite Hf, truthy_false. mrun.
      edestruct (IH (set_nodes st (delete p (nodes st))) p)
        as (st' & Hrun & Hin & Hout & Hc & Hl & Hi & Hs);
        [done|done|by apply dlseg_delete_other|].
      state_simpl. exists st'. split; [exact Hrun|]. repeat split; try done.
      * intros q [->|Hq]%elem_of_cons; [|by apply Hin].
        rewrite Hout by done. simpl. apply lookup_delete_eq.
      * intros q [Hq1 Hq2]%not_elem_of_cons. rewrite Hout by done.
        simpl. by apply lookup_delete_ne.
      * rewrite Hc. unfold free_events. by rewrite Hf, truthy_false.
    + rewrite truthy_true by done. mrun.
      edestruct (IH (mk_state (delete p (nodes st)) (iters st) (lists st)
                       (script st) (calls st ++ [EvFree (free L) (value n)])
                       (stale st))
                    p)
        as (st' & Hrun & Hin & Hout & Hc & Hl & Hi & Hs);
        [done|done|by apply dlseg_delete_other|].
      exists st'. split; [exact Hrun|]. simpl in *. repeat split; try done.
      * intros q [->|Hq]%elem_of_cons; [|by apply Hin].
        rewrite Hout by done. apply lookup_delete_eq.
      * intros q [Hq1 Hq2]%not_elem_of_cons. rewrite Hout by done.
        by apply lookup_delete_ne.
      * rewrite Hc. unfold free_events. rewrite truthy_true by done.
        rewrite values_delete_other by done. simpl.
        rewrite (value_at_lookup _ _ _ Hn). by rewrite <- app_assoc.
Qed.

(** [list_free] on a well-formed list. *)
Lemma list_free_spec st l ps :
  is_list st l ps → l ≠ NULL →
  ∃ st' L, list_free l st = Done tt st' ∧ lists st !! l = Some L ∧
    (∀ q, q ∈ ps → nodes st' !! q = None) ∧
    (∀ q, q ∉ ps → nodes st' !! q = nodes st !! q) ∧
    calls st' = calls st ++ free_events (free L) (values (nodes st) ps) ∧
    lists st' = delete l (lists st) ∧
    iters st' = iters st ∧ script st' = script st.
Proof.
  intros (L & HL & Hh & Ht & Hlen & Hnd & Hseg) Hl.
  destruct (list_free_loop_spec st l L NULL ps HL Hnd Hseg)
    as (st1 & Hrun & Hin & Hout & Hc & Hls & Hi & Hs).
  unfold list_free. mrun. rewrite Hlen, Nat2Z.id, Hh.
  erewrite run_bind by exact Hrun.
  assert (HL1 : lists st1 !! l = Some L) by (by rewrite Hls).
  eexists _, L. split; [mdone|]. state_simpl.
  repeat split; try done. by rewrite Hls.
Qed.


(** How [list_clone] gives up: the copy is released, then the iterator. *)
Lemma clone_give_up st c it cps Lc ic :
  is_list st c cps → lists st !! c = Some Lc → c ≠ NULL → it ≠ NULL →
  iters st !! it = Some ic →
  ∃ st', (list_free c;; list_free_iterator it;; mret NULL) st
           = Done NULL st' ∧
    (∀ q, q ∈ cps → nodes st' !! q = None) ∧
    (∀ q, q ∉ cps → nodes st' !! q = nodes st !! q) ∧
    lists st' = delete c (lists st) ∧
    iters st' = delete it (iters st) ∧
    calls st' = calls st ++ free_events (free Lc) (values (nodes st) cps).
Proof.
  intros Hl HLc Hc Hit Hic.
  destruct (list_free_spec st c cps Hl Hc)
    as (st1 & L & Hrun & HL & Hin & Hout & Hcalls & Hls & Hi & Hs).
  simplify_eq.
  erewrite run_bind by exact Hrun.
  assert (Hic1 : iters st1 !! it = Some ic) by (by rewrite Hi).
  mrun. eexists. split; [reflexivity|]. state_simpl.
  repeat split; try done. by rewrite Hi.
Qed.

Lemma values_app N l1 l2 : values N (l1 ++ l2) = values N l1 ++ values N l2.
Proof. apply fmap_app. Qed.

Lemma values_drop N ps i q n :
  ps !! i = Some q → N !! q = Some n →
  drop i (values N ps) = value n :: drop (S i) (values N ps).
Proof.
  intros Hq Hn. apply drop_S. unfold values. rewrite list_lookup_fmap, Hq.
  simpl. by rewrite (value_at_lookup _ _ _ Hn).
Qed.

Lemma not_elem_of_snoc (l : list Z) p q :
  q ∉ l ++ [p] ↔ (q ∉ l) ∧ q ≠ p.
Proof.
  rewrite not_elem_of_app, not_elem_of_cons. split.
  - intros (? & ? & _). done.
  - intros (? & ?). repeat split; try done. apply not_elem_of_nil.
Qed.

Section Clone.
Variable call_dup : Z → Z → Z.

Lemma dup_events_cons d v vs :
  dup_events call_dup d (v :: vs) =
  dup_events call_dup d [v] ++ dup_events call_dup d vs.
Proof. unfold dup_events. by destruct (truthy d). Qed.

Lemma clone_outcome_step st st1 c it d f m cps p w v vs r st' :
  (* what [list_add] did *)
  nodes st !! p = None → (p ∉ cps) →
  keeps_values (nodes st) (nodes st1) → value_at (nodes st1) p = w →
  dlseg (nodes st) NULL cps NULL →
  (∀ q, q ∉ cps ++ [p] → nodes st1 !! q = nodes st !! q) →
  (∀ l', l' ≠ c → lists st1 !! l' = lists st !! l') →
  delete it (iters st1) = delete it (iters st) →
  calls st1 = calls st ++ dup_events call_dup d [v] →
  w = copied_value call_dup d v →
  clone_outcome call_dup st1 c it d f m (cps ++ [p]) vs r st' →
  clone_outcome call_dup st c it d f m cps (v :: vs) r st'.
Proof.
  intros Hp Hpc Hkv Hw Hseg Hfr Hls Hi Hc Hwv (Hit & Hout).
  assert (Hvals : values (nodes st1) (cps ++ [p])
                  = values (nodes st) cps ++ [w]).
  { rewrite values_app. f_equal; [by eapply keeps_values_chain|].
    simpl. by rewrite Hw. }
  split; [by rewrite Hit, Hi|].
  destruct Hout as [(-> & new & Hl' & Hv' & Hfr' & Hnew & Hls' & HLc' & Hc')
                   |(-> & Hin & Hout & Hls' & j & Hj & Hc')].
  - left. split; [done|]. exists (p :: new).
    rewrite <- app_assoc in Hl', Hv', Hfr'. simpl in Hl', Hv', Hfr'.
    repeat split; try done.
    + rewrite Hv', Hvals, <- app_assoc. simpl. by rewrite Hwv.
    + intros q Hq. rewrite Hfr' by done. apply Hfr.
      apply not_elem_of_app in Hq as [Hq1 Hq2].
      apply not_elem_of_cons in Hq2 as [Hq2 _]. by apply not_elem_of_snoc.
    + intros q [->|Hq]%elem_of_cons; [done|].
      destruct (decide (q = p)) as [->|Hqp]; [done|].
      apply Hnew in Hq.
      destruct (decide (q ∈ cps)) as [Hin|Hnin].
      * destruct (dlseg_elem _ _ _ _ _ Hseg Hin) as [_ [n Hn]].
        destruct (Hkv q n Hn) as (n' & Hn' & _). congruence.
      * rewrite <- Hfr; [done|]. by apply not_elem_of_snoc.
    + intros l' Hl1. by rewrite Hls', Hls.
    + rewrite Hc', Hc, <- app_assoc. by rewrite <- dup_events_cons.
  - right. split; [done|]. repeat split.
    + intros q Hq. apply Hin. apply elem_of_app. by left.
    + intros q Hq. destruct (decide (q = p)) as [->|Hne].
      * rewrite Hp. apply Hin. apply elem_of_app. right. left.
      * rewrite Hout, Hfr; [done|by apply not_elem_of_snoc..].
    + rewrite Hls'. apply map_eq. intros k. rewrite !lookup_delete.
      case_decide; [done|]. by apply Hls.
    + exists (S j). split; [simpl; lia|].
      rewrite Hc', Hc, Hvals. cbn [take fmap list_fmap].
      rewrite (dup_events_cons d v (take (S j) vs)).
      rewrite <- !app_assoc. simpl. by rewrite Hwv.
Qed.

Lemma list_clone_loop_outcome fuel st c it d f m ps cps i :
  clone_inv st c it d f m ps cps i → (length ps - i < fuel)%nat →
  ∃ r st',
    list_clone_loop call_dup fuel c it st = Done r st' ∧
    clone_outcome call_dup st c it d f m cps
      (drop i (values (nodes st) ps)) r st'.
Proof.
  revert st cps i. induction fuel as [|fuel IH]; intros st cps i Hinv Hfuel;
    [lia|].
  destruct Hinv as (Hc & Hit & Hl & (Lc & HLc & Hd & Hf & Hm) & Hcur & Hsrc & Hdisj).
  cbn [list_clone_loop].
  destruct (decide (i < length ps)%nat) as [Hi|Hi]; cycle 1.
  { (* the source is exhausted: the copy is returned *)
    rewrite at_pos_past in Hcur by lia.
    erewrite run_bind by (by eapply list_next_NULL).
    mrun. eexists _, _. split; [reflexivity|]. state_simpl.
    rewrite drop_ge by (unfold values; rewrite length_fmap; lia).
    split; [done|]. left. split; [done|]. exists [].
    rewrite app_nil_r.
    split; [destruct Hl as (L & ?); by exists L|].
    split; [simpl; by rewrite app_nil_r|].
    split; [done|].
    split; [intros q Hq; by apply elem_of_nil in Hq|].
    split; [done|].
    split; [by exists Lc|].
    unfold dup_events. destruct (truthy d); by rewrite app_nil_r. }
  destruct (lookup_lt_is_Some_2 ps i Hi) as [q Hq].
  destruct (dlseg_lookup _ _ _ _ _ _ Hsrc Hq) as (n & Hn & _ & Hx).
  assert (Hqn : q ≠ NULL).
  { pose proof (at_pos_not_NULL _ _ _ _ _ Hsrc Hi) as H.
    unfold at_pos in H. by rewrite Hq in H. }
  unfold at_pos in Hcur. rewrite Hq in Hcur. simpl in Hcur.
  erewrite run_bind by (by eapply list_next_node).
  rewrite (values_drop _ _ _ _ _ Hq Hn).
  rewrite decide_False, Hx by done. fold (at_pos ps (S i)).
  destruct st as [N I Ls Sc C J]. simpl in *. mrun.
  rewrite Hd.
  (* the rest of the iteration, once the value [w] to store is known *)
  assert (Htail : ∀ C',
    C' = C ++ dup_events call_dup d [value n] →
    ∃ r st',
      (r ← list_add c (copied_value call_dup d (value n));
       if decide (r = NULL)
       then list_free c;; list_free_iterator it;; mret NULL
       else list_clone_loop call_dup fuel c it)
        (mk_state N
           (<[it := mk_iter (at_pos ps (S i)) _START_HEAD]> I) Ls Sc C' J)
        = Done r st' ∧
      clone_outcome call_dup (mk_state N I Ls Sc C J) c it d f m cps
        (value n :: drop (S i) (values N ps)) r st').
  { intros C' HC'.
    set (st_b := mk_state N
           (<[it := mk_iter (at_pos ps (S i)) _START_HEAD]> I) Ls Sc C' J).
    assert (Hl_b : is_list st_b c cps).
    { destruct Hl as (L & ?). by exists L. }
    destruct (zmalloc_cases KNode st_b)
      as [(p & rest & Hs & Hu & Hz)|[s Hz]].
    - (* a node for the value: one more iteration *)
      destruct (list_add_spec st_b c cps
                  (copied_value call_dup d (value n)) p rest Hl_b Hs Hu)
        as (st1 & Hadd & Hl1 & Hkv & Hvp & Hs1 & Hc1 & Hi1 & Hls1 & HLc1
            & Hfr1).
      erewrite run_bind by exact Hadd.
      rewrite decide_False by done.
      destruct Hu as (Hrp & HNp & HIp & HLp). simpl in HNp, HIp, HLp.
      assert (Hpc : p ∉ cps).
      { destruct Hl as (L & _ & _ & _ & _ & _ & Hsegc).
        by eapply dlseg_not_elem. }
      assert (Hinv1 : clone_inv st1 c it d f m ps (cps ++ [p]) (S i)).
      { repeat split; try done.
        - destruct (HLc1 Lc HLc) as (L' & HL' & Hd' & Hf' & Hm').
          exists L'. repeat split; congruence.
        - rewrite Hi1. simpl. apply lookup_insert_eq.
        - eapply dlseg_frame; [|exact Hsrc]. intros x Hx'.
          apply Hfr1. apply not_elem_of_app. split; [by apply Hdisj|].
          apply not_elem_of_cons. split; [|apply not_elem_of_nil].
          intros ->. destruct (dlseg_elem _ _ _ _ _ Hsrc Hx') as [_ [? ?]].
          simpl in *. congruence.
        - intros x Hx'. apply not_elem_of_app. split; [by apply Hdisj|].
          apply not_elem_of_cons. split; [|apply not_elem_of_nil].
          intros ->. destruct (dlseg_elem _ _ _ _ _ Hsrc Hx') as [_ [? ?]].
          simpl in *. congruence. }
      destruct (IH st1 (cps ++ [p]) (S i) Hinv1) as (r & st' & Hloop & Hout);
        [lia|].
      exists r, st'. split; [exact Hloop|].
      assert (Hvs : values (nodes st1) ps = values N ps).
      { by eapply (keeps_values_chain N). }
      rewrite Hvs in Hout.
      destruct Hl as (L & _ & _ & _ & _ & _ & Hsegc).
      eapply (clone_outcome_step (mk_state N I Ls Sc C J) st1); try done.
      + rewrite Hi1. simpl. apply delete_insert_eq.
      + by rewrite Hc1.
    - (* no node for the value: the copy is given up *)
      destruct (add_failure _ _ c (copied_value call_dup d (value n)) 0 0 Hz)
        as (_ & Hadd & _).
      erewrite run_bind by exact Hadd. rewrite decide_True by done.
      edestruct (clone_give_up (set_script st_b s) c it cps Lc)
        as (st' & Hrun & Hin & Hout & Hls & Hi' & Hc');
        [by apply is_list_set_script|done|done|done
        |simpl; apply lookup_insert_eq|].
      exists NULL, st'. split; [exact Hrun|]. simpl in *.
      split; [by rewrite Hi', delete_insert_eq|]. right.
      repeat split; try done. exists 0%nat. split; [simpl; lia|].
      rewrite Hc', HC', Hf. cbn [take fmap list_fmap].
      by rewrite app_nil_r, <- app_assoc. }
  destruct (decide (d = 0)) as [Hd0|Hd0].
  - (* no [dup] callback: the value itself is stored *)
    subst d. rewrite Hd0 in *. rewrite truthy_false. mrun.
    apply Htail. unfold dup_events. rewrite truthy_false.
    by rewrite app_nil_r.
  - rewrite truthy_true by done.
    destruct (decide (call_dup d (value n) = NULL)) as [Hfail|Hok]; mrun.
    + (* the [dup] callback fails: the copy is given up *)
      edestruct (clone_give_up
                   (mk_state N
                      (<[it := mk_iter (at_pos ps (S i)) _START_HEAD]> I)
                      Ls Sc (C ++ [EvDup d (value n) (call_dup d (value n))]) J)
                   c it cps Lc)
        as (st' & Hrun & Hin & Hout & Hls & Hi' & Hc');
        [by destruct Hl as (L & ?); exists L|done|done|done
        |simpl; apply lookup_insert_eq|].
      exists NULL, st'. split; [exact Hrun|]. simpl in *.
      split; [by rewrite Hi', delete_insert_eq|]. right.
      repeat split; try done. exists 0%nat. split; [simpl; lia|].
      rewrite Hc', Hf. cbn [take fmap list_fmap]. unfold dup_events.
      rewrite truthy_true by done. simpl.
      by rewrite app_nil_r, <- app_assoc.
    + specialize (Htail (C ++ [EvDup d (value n) (call_dup d (value n))])).
      unfold copied_value at 1 in Htail. unfold dup_events at 1 in Htail.
      rewrite truthy_true in Htail by done. by apply Htail.
Qed.


(** [list_clone] as a whole, when the copy and the iterator can be
    allocated (at [c] and [it]): either the copy is returned, holding the
    copied values in the order of the source, or [NULL] is returned and
    the store is as it was before the call. *)
Lemma list_clone_outcome fuel st orig ps L c it rest :
  is_list st orig ps → lists st !! orig = Some L →
  script st = c :: it :: rest → usable st c → usable st it → c ≠ it →
  (length ps < fuel)%nat →
  ∃ r st',
    list_clone call_dup fuel orig st = Done r st' ∧
    iters st' = iters st ∧
    ((r = c ∧
      ∃ new,
        is_list st' c new ∧
        values (nodes st') new
          = copied_value call_dup (dup L) <$> values (nodes st) ps ∧
        (∀ q, q ∉ new → nodes st' !! q = nodes st !! q) ∧
        (∀ q, q ∈ new → nodes st !! q = None) ∧
        (∀ l', l' ≠ c → lists st' !! l' = lists st !! l') ∧
        (∃ Lc, lists st' !! c = Some Lc ∧ dup Lc = dup L ∧
               free Lc = free L ∧ match_fn Lc = match_fn L) ∧
        calls st' = calls st
                    ++ dup_events call_dup (dup L) (values (nodes st) ps)) ∨
     (r = NULL ∧ nodes st' = nodes st ∧ lists st' = lists st ∧
      ∃ j, (j < length ps)%nat ∧
        calls st' = calls st
          ++ dup_events call_dup (dup L) (take (S j) (values (nodes st) ps))
          ++ free_events (free L)
               (copied_value call_dup (dup L)
                  <$> take j (values (nodes st) ps)))).
Proof.
  intros Hl HL Hs Hc Hit Hne Hfuel.
  pose proof Hc as (Hrc & HNc & HIc & HLc).
  pose proof Hit as (Hrit & HNit & HIit & HLit).
  assert (c ≠ orig) by congruence.
  pose proof Hl as (L' & HL' & Hh & Ht & Hlen & Hnd & Hseg). simplify_eq.
  unfold list_clone.
  erewrite run_bind by (by eapply list_create_spec).
  rewrite decide_False by (unfold NULL; lia). mrun.
  match goal with |- ∃ _ _, (list_iterator _ _ ≫= _) ?s = _ ∧ _ =>
    set (st_a := s) end.
  erewrite run_bind.
  2:{ eapply (list_iterator_spec st_a orig L _START_HEAD it rest).
      - unfold st_a. cbn [lists]. by rewrite lookup_insert_ne.
      - done.
      - unfold st_a, usable. cbn [nodes iters lists].
        repeat (split; [done|]). by rewrite lookup_insert_ne. }
  rewrite decide_True by done. unfold st_a. simpl. rewrite Hh, at_pos_head.
  match goal with |- ∃ _ _, list_clone_loop _ _ _ _ ?s = _ ∧ _ =>
    set (st_l := s) end.
  destruct (list_clone_loop_outcome fuel st_l c it
              (dup L) (free L) (match_fn L) ps [] 0)
    as (r & st' & Hrun & Hi' & Hout).
  { unfold st_l. repeat split; simpl; try (unfold NULL; lia); try done.
    - eapply is_list_intro; [apply lookup_insert_eq|try done..].
      apply NoDup_nil_2.
    - eexists. split; [apply lookup_insert_eq|done].
    - apply lookup_insert_eq.
    - intros q _. apply not_elem_of_nil. }
  { lia. }
  exists r, st'. split; [exact Hrun|]. unfold st_l in Hi', Hout.
  simpl in Hi', Hout. rewrite drop_0 in Hout.
  split. { rewrite Hi', delete_insert_eq. by apply delete_id. }
  destruct Hout as [(-> & new & Hl' & Hv' & Hfr' & Hnew & Hls' & HLc' & Hc')
                   |(-> & Hin & Hout & Hls' & j & Hj & Hc')].
  - left. split; [done|]. exists new. simpl in *.
    repeat split; try done.
    intros l' Hl1. rewrite Hls' by done. by apply lookup_insert_ne.
  - right. split; [done|]. simpl in *. repeat split.
    + apply map_eq. intros q. apply Hout, not_elem_of_nil.
    + rewrite Hls', delete_insert_eq. by apply delete_id.
    + exists j. unfold values in Hj. rewrite length_fmap in Hj. done.
Qed.

End Clone.


Lemma list_clone_create_failure call_dup fuel orig st st' :
  zmalloc KList st = Done NULL st' →
  list_clone call_dup fuel orig st = Done NULL st'.
Proof.
  intros Hz. unfold list_clone, list_create.
  rewrite run_bind_assoc. erewrite run_bind by exact Hz.
  rewrite decide_True by done. by rewrite run_ret_bind, decide_True.
Qed.

Section CloneSteps.

Variable call_dup : ptr → ptr → ptr.

(** One turn of the loop of [list_clone] in which nothing fails: the value
    of the node at position [i] is copied into a new node at [p], appended
    to the copy, and the loop goes on from position [S i]. *)
Lemma list_clone_loop_step fuel st c it d f m ps cps i p rest :
  clone_inv st c it d f m ps cps i → (i < length ps)%nat →
  script st = p :: rest → usable st p →
  let v := value_at (nodes st) (at_pos ps i) in
  (d ≠ NULL → call_dup d v ≠ NULL) →
  ∃ st1,
    list_clone_loop call_dup (S fuel) c it st
      = list_clone_loop call_dup fuel c it st1 ∧
    clone_inv st1 c it d f m ps (cps ++ [p]) (S i) ∧
    script st1 = rest ∧
    calls st1 = calls st ++ dup_events call_dup d [v] ∧
    keeps_values (nodes st) (nodes st1) ∧
    value_at (nodes st1) p = copied_value call_dup d v ∧
    (∀ x, x ∉ cps ++ [p] → nodes st1 !! x = nodes st !! x) ∧
    (∀ l', l' ≠ c → lists st1 !! l' = lists st !! l') ∧
    delete it (iters st1) = delete it (iters st) ∧
    (∀ x, x ≠ p → usable st1 x ↔ usable st x).
Proof.
  intros Hinv Hi Hs Hup v Hdup.
  destruct Hinv as (Hc & Hit & Hl & (Lc & HLc & Hd & Hf & Hm) & Hcur & Hsrc & Hdisj).
  cbn [list_clone_loop].
  destruct (lookup_lt_is_Some_2 ps i Hi) as [q Hq].
  destruct (dlseg_lookup _ _ _ _ _ _ Hsrc Hq) as (n & Hn & _ & Hx).
  assert (Hqn : q ≠ NULL).
  { pose proof (at_pos_not_NULL _ _ _ _ _ Hsrc Hi) as H.
    unfold at_pos in H. by rewrite Hq in H. }
  assert (Hv : v = value n).
  { unfold v, at_pos, value_at. rewrite Hq. simpl. by rewrite Hn. }
  clearbody v. subst v.
  unfold at_pos in Hcur. rewrite Hq in Hcur. simpl in Hcur.
  erewrite run_bind by (by eapply list_next_node).
  rewrite decide_False, Hx by done. fold (at_pos ps (S i)).
  destruct st as [N I Ls Sc C J]. simpl in *. subst Sc. mrun.
  rewrite Hd.
  assert (Htail : ∀ C', C' = C ++ dup_events call_dup d [value n] →
    ∃ st1,
      (r ← list_add c (copied_value call_dup d (value n));
       if decide (r = NULL)
       then list_free c;; list_free_iterator it;; mret NULL
       else list_clone_loop call_dup fuel c it)
        (mk_state N
           (<[it := mk_iter (at_pos ps (S i)) _START_HEAD]> I) Ls
           (p :: rest) C' J)
        = list_clone_loop call_dup fuel c it st1 ∧
      clone_inv st1 c it d f m ps (cps ++ [p]) (S i) ∧
      script st1 = rest ∧
      calls st1 = C ++ dup_events call_dup d [value n] ∧
      keeps_values N (nodes st1) ∧
      value_at (nodes st1) p = copied_value call_dup d (value n) ∧
      (∀ x, x ∉ cps ++ [p] → nodes st1 !! x = N !! x) ∧
      (∀ l', l' ≠ c → lists st1 !! l' = Ls !! l') ∧
      delete it (iters st1) = delete it I ∧
      (∀ x, x ≠ p → usable st1 x ↔ usable (mk_state N I Ls (p :: rest) C J) x)).
  { intros C' ->.
    set (st_b := mk_state N
           (<[it := mk_iter (at_pos ps (S i)) _START_HEAD]> I) Ls
           (p :: rest) (C ++ dup_events call_dup d [value n]) J).
    assert (Hl_b : is_list st_b c cps).
    { destruct Hl as (L & ?). by exists L. }
    destruct Hup as (Hrp & HNp & HIp & HLp). simpl in HNp, HIp, HLp.
    assert (Hpit : p ≠ it) by congruence.
    assert (Hu_b : usable st_b p).
    { unfold usable, st_b. simpl. rewrite lookup_insert_ne by done. done. }
    destruct (list_add_spec st_b c cps
                (copied_value call_dup d (value n)) p rest Hl_b eq_refl Hu_b)
      as (st1 & Hadd & Hl1 & Hkv & Hvp & Hs1 & Hc1 & Hi1 & Hls1 & HLc1 & Hfr1).
    erewrite run_bind by exact Hadd.
    rewrite decide_False by done.
    assert (Hpc : p ∉ cps).
    { destruct Hl as (L & _ & _ & _ & _ & _ & Hsegc).
      by eapply dlseg_not_elem. }
    assert (Hps : ∀ x, x ∈ ps → x ∉ cps ++ [p]).
    { intros x Hx'. apply not_elem_of_app. split; [by apply Hdisj|].
      apply not_elem_of_cons. split; [|apply not_elem_of_nil].
      intros ->. destruct (dlseg_elem _ _ _ _ _ Hsrc Hx') as [_ [? ?]].
      simpl in *. congruence. }
    exists st1. split; [done|]. split.
    { repeat split; try done.
      - destruct (HLc1 Lc HLc) as (L' & HL' & Hd' & Hf' & Hm').
        exists L'. repeat split; congruence.
      - rewrite Hi1. simpl. apply lookup_insert_eq.
      - eapply dlseg_frame; [|exact Hsrc]. intros x Hx'.
        apply Hfr1. by apply Hps. }
    do 5 (split; [done|]). split; [done|].
    split. { rewrite Hi1. simpl. apply delete_insert_eq. }
    intros x Hxp. unfold usable. simpl.
    destruct (decide (x = it)) as [->|Hxit].
    { rewrite Hi1. simpl. rewrite lookup_insert_eq, Hcur. naive_solver. }
    destruct (decide (x = c)) as [->|Hxc].
    { destruct (HLc1 Lc HLc) as (L' & HL' & _). rewrite HL', HLc.
      naive_solver. }
    rewrite Hi1, Hls1 by done. simpl. rewrite lookup_insert_ne by done.
    destruct (decide (x ∈ cps)) as [Hxc'|Hxc'].
    { destruct Hl as (L & _ & _ & _ & _ & _ & Hsegc).
      destruct (dlseg_elem _ _ _ _ _ Hsegc Hxc') as [_ [nx Hnx]].
      destruct (Hkv x nx Hnx) as (nx' & Hnx' & _). simpl in Hnx.
      rewrite Hnx', Hnx. naive_solver. }
    rewrite Hfr1; [done|]. apply not_elem_of_snoc. done. }
  destruct (decide (d = 0)) as [Hd0|Hd0].
  - subst d. rewrite Hd0 in *. rewrite truthy_false. mrun. apply Htail.
    unfold dup_events. rewrite truthy_false. by rewrite app_nil_r.
  - rewrite truthy_true by done.
    pose proof (Hdup Hd0) as Hok. mrun.
    specialize (Htail (C ++ [EvDup d (value n) (call_dup d (value n))])).
    unfold copied_value at 1 in Htail.
    rewrite truthy_true in Htail by done. apply Htail.
    unfold dup_events. by rewrite truthy_true by done.
Qed.

(** A turn of the loop in which the [dup] callback fails, or in which
    there is no node for the value: the copy is given up. *)
Lemma list_clone_loop_stop fuel st c it d f m ps cps i :
  clone_inv st c it d f m ps cps i → (i < length ps)%nat →
  let v := value_at (nodes st) (at_pos ps i) in
  (d ≠ NULL ∧ call_dup d v = NULL) ∨
  ((d ≠ NULL → call_dup d v ≠ NULL) ∧
   (script st = [] ∨ ∃ x tl, script st = x :: tl ∧ ¬ usable st x)) →
  ∃ st',
    list_clone_loop call_dup (S fuel) c it st = Done NULL st' ∧
    calls st' = calls st ++ dup_events call_dup d [v]
                ++ free_events f (values (nodes st) cps).
Proof.
  intros Hinv Hi v Hcause.
  destruct Hinv as (Hc & Hit & Hl & (Lc & HLc & Hd & Hf & Hm) & Hcur & Hsrc & Hdisj).
  cbn [list_clone_loop].
  destruct (lookup_lt_is_Some_2 ps i Hi) as [q Hq].
  destruct (dlseg_lookup _ _ _ _ _ _ Hsrc Hq) as (n & Hn & _ & Hx).
  assert (Hqn : q ≠ NULL).
  { pose proof (at_pos_not_NULL _ _ _ _ _ Hsrc Hi) as H.
    unfold at_pos in H. by rewrite Hq in H. }
  assert (Hv : v = value n).
  { unfold v, at_pos, value_at. rewrite Hq. simpl. by rewrite Hn. }
  clearbody v. subst v.
  unfold at_pos in Hcur. rewrite Hq in Hcur. simpl in Hcur.
  erewrite run_bind by (by eapply list_next_node).
  rewrite decide_False, Hx by done. fold (at_pos ps (S i)).
  destruct st as [N I Ls Sc C J]. simpl in *. mrun.
  rewrite Hd.
  (* no node for the value [w] *)
  assert (Hrefused : ∀ C' w,
    Sc = [] ∨ (∃ x tl, Sc = x :: tl ∧
                 ¬ usable (mk_state N I Ls Sc C J) x) →
    ∃ st',
      (r ← list_add c w;
       if decide (r = NULL)
       then list_free c;; list_free_iterator it;; mret NULL
       else list_clone_loop call_dup fuel c it)
        (mk_state N
           (<[it := mk_iter (at_pos ps (S i)) _START_HEAD]> I) Ls Sc C' J)
        = Done NULL st' ∧
      calls st' = C' ++ free_events f (values N cps)).
  { intros C' w Href.
    set (st_b := mk_state N
           (<[it := mk_iter (at_pos ps (S i)) _START_HEAD]> I) Ls Sc C' J).
    assert (Hz : ∃ s, zmalloc KNode st_b = Done NULL (set_script st_b s)).
    { destruct Href as [->|(x & tl & -> & Hnu)].
      - exists []. by apply run_zmalloc_exhausted.
      - exists tl. apply (run_zmalloc_refused _ x); [done|].
        intros (Hr & HNx & HIx & HLx). apply Hnu. simpl in *.
        split; [done|]. split; [done|]. split; [|done].
        destruct (decide (x = it)) as [->|Hxit].
        + by rewrite lookup_insert_eq in HIx.
        + by rewrite lookup_insert_ne in HIx. }
    destruct Hz as [s Hz].
    destruct (add_failure _ _ c w 0 0 Hz) as (_ & Hadd & _).
    erewrite run_bind by exact Hadd. rewrite decide_True by done.
    edestruct (clone_give_up (set_script st_b s) c it cps Lc)
      as (st' & Hrun & Hin & Hout & Hls & Hi' & Hc');
      [apply is_list_set_script; destruct Hl as (L & ?); by exists L
      |done|done|done|simpl; apply lookup_insert_eq|].
    exists st'. split; [exact Hrun|]. by rewrite Hc', Hf. }
  destruct (decide (d = 0)) as [Hd0|Hd0].
  - subst d. rewrite Hd0 in *. rewrite truthy_false. mrun.
    destruct Hcause as [[Hne _]|[_ Href]]; [done|].
    destruct (Hrefused C (value n) Href) as (st' & Hrun & Hc').
    exists st'. split; [exact Hrun|].
    unfold dup_events. rewrite truthy_false. done.
  - rewrite truthy_true by done. unfold dup_events.
    rewrite truthy_true by done. cbn [fmap list_fmap].
    destruct Hcause as [[_ Hfail]|[Hok Href]].
    + mrun.
      edestruct (clone_give_up
                   (mk_state N
                      (<[it := mk_iter (at_pos ps (S i)) _START_HEAD]> I)
                      Ls Sc (C ++ [EvDup d (value n) (call_dup d (value n))])
                      J)
                   c it cps Lc)
        as (st' & Hrun & Hin & Hout & Hls & Hi' & Hc');
        [by destruct Hl as (L & ?); exists L|done|done|done
        |simpl; apply lookup_insert_eq|].
      exists st'. split; [exact Hrun|]. simpl in Hc'.
      by rewrite Hc', Hf, <- app_assoc.
    + specialize (Hok Hd0). mrun.
      destruct (Hrefused (C ++ [EvDup d (value n) (call_dup d (value n))])
                  (call_dup d (value n)) Href) as (st' & Hrun & Hc').
      exists st'. split; [exact Hrun|]. by rewrite Hc', <- app_assoc.
Qed.

Lemma values_at_pos N ps i :
  (i < length ps)%nat →
  default NULL (values N ps !! i) = value_at N (at_pos ps i).
Proof.
  intros Hi. destruct (lookup_lt_is_Some_2 ps i Hi) as [q Hq].
  unfold values, at_pos. by rewrite list_lookup_fmap, Hq.
Qed.

(** The loop of [list_clone] when its first [length new] turns succeed,
    with the nodes [new], and the next one does not: the [dup] callback
    fails on the value at that position, or there is no node for it.  The
    copy is given up, having called [dup] on the values up to that position
    and [free] on the values the copy held. *)
Lemma list_clone_loop_fails new : ∀ fuel st c it d f m ps cps i tl,
  clone_inv st c it d f m ps cps i → (length ps - i < fuel)%nat →
  script st = new ++ tl → (i + length new < length ps)%nat →
  NoDup new → (∀ p, p ∈ new → usable st p) →
  let vs := values (nodes st) ps in
  (d ≠ NULL →
   ∀ v, v ∈ take (length new) (drop i vs) → call_dup d v ≠ NULL) →
  let vj := default NULL (vs !! (i + length new)%nat) in
  (d ≠ NULL ∧ call_dup d vj = NULL) ∨
  ((d ≠ NULL → call_dup d vj ≠ NULL) ∧
   (tl = [] ∨ ∃ x tl', tl = x :: tl' ∧ (¬ usable st x ∨ x ∈ new))) →
  ∃ st',
    list_clone_loop call_dup fuel c it st = Done NULL st' ∧
    calls st' = calls st
      ++ dup_events call_dup d (take (S (length new)) (drop i vs))
      ++ free_events f
           (values (nodes st) cps
            ++ (copied_value call_dup d <$> take (length new) (drop i vs))).
Proof.
  induction new as [|p new IH];
    intros fuel st c it d f m ps cps i tl Hinv Hfuel Hs Hlen Hnd Hus vs Hdup
      vj Hcause.
  all: destruct fuel as [|fuel]; [lia|].
  all: pose proof Hinv as (_ & _ & Hlc & _ & _ & Hsrc & _).
  all: simpl in Hlen.
  all: assert (Hi : (i < length ps)%nat) by lia.
  all: destruct (lookup_lt_is_Some_2 ps i Hi) as [q Hq].
  all: destruct (dlseg_lookup _ _ _ _ _ _ Hsrc Hq) as (n & Hn & _ & _).
  all: pose proof (values_drop _ _ _ _ _ Hq Hn) as Hdrop; fold vs in Hdrop.
  all: assert (Hvi : value_at (nodes st) (at_pos ps i) = value n)
         by (unfold at_pos, value_at; rewrite Hq; simpl; by rewrite Hn).
  - simpl in Hs. subst tl. unfold vj in Hcause. simpl in Hcause.
    rewrite Nat.add_0_r in Hcause. unfold vs in Hcause.
    rewrite values_at_pos in Hcause by done.
    destruct (list_clone_loop_stop fuel st c it d f m ps cps i Hinv Hi)
      as (st' & Hrun & Hc').
    { destruct Hcause as [?|[? Href]]; [by left|right]. split; [done|].
      destruct Href as [?|(x & tl' & ? & [?|Hx])]; [by left| |].
      - right. by exists x, tl'.
      - by apply elem_of_nil in Hx. }
    exists st'. split; [exact Hrun|]. rewrite Hc', Hdrop, Hvi. simpl.
    by rewrite app_nil_r.
  - apply NoDup_cons in Hnd as [Hpnew Hnd].
    destruct (list_clone_loop_step fuel st c it d f m ps cps i p (new ++ tl)
                Hinv Hi Hs (Hus p (list_elem_of_here _ _)))
      as (st1 & Hrun1 & Hinv1 & Hs1 & Hc1 & Hk1 & Hv1 & Hfr1 & Hls1 & Hi1 & Hu1).
    { intros Hd0. apply (Hdup Hd0). rewrite Hvi, Hdrop. simpl. left. }
    assert (Hvs1 : values (nodes st1) ps = vs) by (by eapply keeps_values_chain).
    destruct (IH fuel st1 c it d f m ps (cps ++ [p]) (S i) tl Hinv1)
      as (st' & Hrun & Hc'); [lia|done|lia|done| | | |].
    + intros x Hx. apply Hu1; [by intros ->|]. apply Hus. by right.
    + rewrite Hvs1. intros Hd0 v Hv. apply (Hdup Hd0).
      rewrite Hdrop. simpl. by right.
    + rewrite Hvs1. replace (S i + length new)%nat with (i + S (length new))%nat
        by lia.
      destruct Hcause as [?|[? Href]]; [by left|right]. split; [done|].
      destruct Href as [?|(x & tl' & ? & Hx)]; [by left|right].
      exists x, tl'. split; [done|].
      destruct (decide (x = p)) as [->|Hxp].
      * left. intros (_ & HNp & _).
        destruct Hinv1 as (_ & _ & (? & _ & _ & _ & _ & _ & Hseg1) & _).
        destruct (dlseg_elem _ _ _ _ p Hseg1) as [_ [? ?]]; [|congruence].
        apply elem_of_app. right. left.
      * destruct Hx as [Hx|Hx].
        -- left. intros Hu. apply Hx. by apply Hu1.
        -- right. by apply elem_of_cons in Hx as [?|?].
    + exists st'. split; [by rewrite Hrun1|].
      rewrite Hc', Hc1, Hvs1, Hvi, Hdrop. simpl.
      destruct Hlc as (? & _ & _ & _ & _ & _ & Hsegc).
      rewrite values_app, (keeps_values_chain _ _ _ _ _ Hk1 Hsegc).
      unfold values at 2. simpl. rewrite Hv1, Hvi.
      rewrite (dup_events_cons call_dup d (value n)
                 (take (S (length new)) (drop (S i) vs))).
      by rewrite <- !app_assoc.
Qed.

End CloneSteps.

(** C3, as the code has it.  With the copy and the iterator allocated (at
    [c] and [it]), [list_clone] fails at the first position [j] of the
    source at which the [dup] callback fails, or at which no node can be
    had for the value: the nodes [new] of the first [j] values were
    allocated and the [dup] callback, if any, succeeded on those values.
    It then returns [NULL] and the store is as it was before the call: the
    source list, its nodes and their values are untouched, and the copy,
    its nodes and the iterator have been released.  The [dup] callback,
    when there is one, has been called on the values up to position [j],
    and the [free] callback, when there is one, once on each of the [j]
    values that had been appended to the copy: without a [dup] callback
    these are the first [j] values of the source itself, which the copy
    shares with it, and with one they are the duplicates made of them.
    Without a [free] callback nothing is released.  [list_clone] also
    returns [NULL], with nothing changed, when the copy cannot be
    allocated ([st0]). *)
Theorem list_clone_failure call_dup fuel st orig ps L c it new tl st0 st0' :
  is_list st orig ps → lists st !! orig = Some L →
  script st = c :: it :: new ++ tl →
  NoDup (c :: it :: new) → (∀ p, p ∈ c :: it :: new → usable st p) →
  (length new < length ps)%nat → (length ps < fuel)%nat →
  (dup L ≠ NULL →
   ∀ v, v ∈ take (length new) (values (nodes st) ps) →
        call_dup (dup L) v ≠ NULL) →
  (dup L ≠ NULL ∧
   call_dup (dup L)
     (default NULL (values (nodes st) ps !! length new)) = NULL) ∨
  ((dup L ≠ NULL →
    call_dup (dup L)
      (default NULL (values (nodes st) ps !! length new)) ≠ NULL) ∧
   (tl = [] ∨
    ∃ x tl', tl = x :: tl' ∧ (¬ usable st x ∨ x ∈ c :: it :: new))) →
  zmalloc KList st0 = Done NULL st0' →
  (∃ st',
     list_clone call_dup fuel orig st = Done NULL st' ∧
     nodes st' = nodes st ∧ iters st' = iters st ∧ lists st' = lists st ∧
     calls st' = calls st
       ++ dup_events call_dup (dup L)
            (take (S (length new)) (values (nodes st) ps))
       ++ free_events (free L)
            (copied_value call_dup (dup L)
               <$> take (length new) (values (nodes st) ps))) ∧
  (list_clone call_dup fuel orig st0 = Done NULL st0' ∧
   nodes st0' = nodes st0 ∧ iters st0' = iters st0 ∧
   lists st0' = lists st0 ∧ calls st0' = calls st0).
Proof.
  intros Hl HL Hs Hnd Hus Hlen Hfuel Hdup Hcause Hz0.
  split; cycle 1.
  { split; [by apply list_clone_create_failure|].
    by apply zmalloc_NULL in Hz0 as [s ->]. }
  pose proof (Hus c ltac:(set_solver)) as Hc.
  pose proof (Hus it ltac:(set_solver)) as Hit.
  pose proof Hc as (Hrc & HNc & HIc & HLc).
  pose proof Hit as (Hrit & HNit & HIit & HLit).
  apply NoDup_cons in Hnd as [Hcn Hnd]. apply NoDup_cons in Hnd as [Hitn Hnd].
  assert (c ≠ it) by (intros ->; apply Hcn; left).
  assert (c ≠ orig) by congruence.
  pose proof Hl as (L' & HL' & Hh & Ht & Hlen' & Hndp & Hseg). simplify_eq.
  unfold list_clone.
  erewrite run_bind by (by eapply list_create_spec).
  rewrite decide_False by (unfold NULL; lia). mrun.
  match goal with |- ∃ _, (list_iterator _ _ ≫= _) ?s = _ ∧ _ =>
    set (st_a := s) end.
  erewrite run_bind.
  2:{ eapply (list_iterator_spec st_a orig L _START_HEAD it (new ++ tl)).
      - unfold st_a. cbn [lists]. by rewrite lookup_insert_ne.
      - done.
      - unfold st_a, usable. cbn [nodes iters lists].
        repeat (split; [done|]). by rewrite lookup_insert_ne. }
  rewrite decide_True by done. unfold st_a. simpl. rewrite Hh, at_pos_head.
  match goal with |- ∃ _, list_clone_loop _ _ _ _ ?s = _ ∧ _ =>
    set (st_l := s) end.
  assert (Hinv : clone_inv st_l c it (dup L) (free L) (match_fn L) ps [] 0).
  { unfold st_l. repeat split; simpl; try (unfold NULL; lia); try done.
    - eapply is_list_intro; [apply lookup_insert_eq|try done..].
      apply NoDup_nil_2.
    - eexists. split; [apply lookup_insert_eq|done].
    - apply lookup_insert_eq.
    - intros q _. apply not_elem_of_nil. }
  destruct (list_clone_loop_outcome call_dup fuel st_l c it
              (dup L) (free L) (match_fn L) ps [] 0 Hinv)
    as (r & st' & Hrun & Hi' & Hout); [lia|].
  destruct (list_clone_loop_fails call_dup new fuel st_l c it
              (dup L) (free L) (match_fn L) ps [] 0 tl Hinv)
    as (st2 & Hrun2 & Hc2); [lia|done|simpl; lia|done| | | |].
  { intros p Hp. pose proof (Hus p ltac:(set_solver)) as (? & ? & ? & ?).
    assert (p ≠ c) by (intros ->; apply Hcn; by right).
    assert (p ≠ it) by (intros ->; by apply Hitn).
    unfold usable, st_l. simpl. rewrite !lookup_insert_ne by done. done. }
  { rewrite drop_0. exact Hdup. }
  { change (0 + length new)%nat with (length new).
    destruct Hcause as [?|[? Href]]; [by left|right]. split; [done|].
    destruct Href as [?|(x & tl' & ? & Hx)]; [by left|right].
    exists x, tl'. split; [done|].
    destruct (decide (x = c)) as [->|Hxc].
    { left. intros (_ & _ & _ & HLx). unfold st_l in HLx. simpl in HLx.
      by rewrite lookup_insert_eq in HLx. }
    destruct (decide (x = it)) as [->|Hxit].
    { left. intros (_ & _ & HIx & _). unfold st_l in HIx. simpl in HIx.
      by rewrite lookup_insert_eq in HIx. }
    destruct Hx as [Hx|Hx].
    - left. intros (? & ? & HIx & HLx). apply Hx.
      unfold st_l in HIx, HLx. simpl in HIx, HLx.
      rewrite lookup_insert_ne in HIx by done.
      rewrite lookup_insert_ne in HLx by done. done.
    - right. apply elem_of_cons in Hx as [?|Hx]; [done|].
      by apply elem_of_cons in Hx as [?|Hx]. }
  rewrite Hrun2 in Hrun. injection Hrun as <- <-.
  unfold st_l in Hi', Hout, Hc2. simpl in Hi', Hout, Hc2.
  rewrite drop_0 in Hout, Hc2.
  destruct Hout as [(Hcn' & _)|(_ & Hin & Hout & Hls' & _)];
    [unfold NULL in Hcn'; lia|].
  exists st2. split; [done|]. simpl in *.
  split. { apply map_eq. intros q. apply Hout, not_elem_of_nil. }
  split. { rewrite Hi', delete_insert_eq. by apply delete_id. }
  split. { rewrite Hls', delete_insert_eq. by apply delete_id. }
  exact Hc2.
Qed.


Lemma scenario_nodes_chain : dlseg (nodes scenario_list) NULL scenario_nodes NULL.
Proof.
  repeat (eapply dlseg_cons; [done|vm_compute; reflexivity|done..|]).
  exact I.
Qed.

(** The list of the scenario, whatever its callbacks. *)
Lemma scenario_is_list_with st d f m :
  nodes st = nodes scenario_list →
  lists st !! 100 = Some (mk_list 10 30 d f m 3) →
  is_list st 100 scenario_nodes.
Proof.
  intros HN HL.
  eapply is_list_intro;
    [exact HL|reflexivity..|exact NoDup_10_20_30|].
  rewrite HN. exact scenario_nodes_chain.
Qed.

Lemma clone_dup_start_is_list : is_list clone_dup_start 100 scenario_nodes.
Proof.
  apply (scenario_is_list_with _ 5 0 0); vm_compute; reflexivity.
Qed.

Lemma clone_dup_run :
  list_clone demo_dup 4 100 clone_dup_start = Done NULL clone_dup_end.
Proof. vm_compute. reflexivity. Qed.

Lemma clone_shared_run :
  list_clone demo_dup 4 100 clone_shared_start = Done NULL clone_shared_end.
Proof. vm_compute. reflexivity. Qed.

Lemma NoDup_200_300_400 : NoDup [200; 300; 400].
Proof.
  apply NoDup_cons. split; [set_solver|].
  apply NoDup_cons. split; [set_solver|]. apply NoDup_singleton.
Qed.

Lemma clone_start_usable st p :
  nodes st = nodes scenario_list → iters st = ∅ →
  lists st !! 200 = None → lists st !! 300 = None → lists st !! 400 = None →
  p ∈ [200; 300; 400] → usable st p.
Proof.
  intros HN HI H2 H3 H4 Hp. unfold usable. rewrite HN, HI. clear HN HI.
  repeat (apply elem_of_cons in Hp as [->|Hp]);
    [(split; [vm_compute; split; reflexivity|];
      split; [vm_compute; reflexivity|];
      split; [reflexivity|assumption])..|].
  by apply elem_of_nil in Hp.
Qed.

(** Two failures: in [clone_dup_start] the [dup] callback fails on the
    second value, in [clone_shared_start] there is no node for it. *)
Lemma list_clone_failure_witness :
  ((∃ st',
      list_clone demo_dup 4 100 clone_dup_start = Done NULL st' ∧
      nodes st' = nodes clone_dup_start ∧ iters st' = iters clone_dup_start ∧
      lists st' = lists clone_dup_start ∧
      calls st' = calls clone_dup_start
        ++ dup_events demo_dup (dup (mk_list 10 30 5 0 0 3))
             (take (S (length [400]))
                (values (nodes clone_dup_start) scenario_nodes))
        ++ free_events (free (mk_list 10 30 5 0 0 3))
             (copied_value demo_dup (dup (mk_list 10 30 5 0 0 3))
                <$> take (length [400])
                      (values (nodes clone_dup_start) scenario_nodes))) ∧
   (list_clone demo_dup 4 100 demo_state = Done NULL demo_state ∧
    nodes demo_state = nodes demo_state ∧
    iters demo_state = iters demo_state ∧
    lists demo_state = lists demo_state ∧
    calls demo_state = calls demo_state)) ∧
  ((∃ st',
      list_clone demo_dup 4 100 clone_shared_start = Done NULL st' ∧
      nodes st' = nodes clone_shared_start ∧
      iters st' = iters clone_shared_start ∧
      lists st' = lists clone_shared_start ∧
      calls st' = calls clone_shared_start
        ++ dup_events demo_dup (dup (mk_list 10 30 0 7 0 3))
             (take (S (length [400]))
                (values (nodes clone_shared_start) scenario_nodes))
        ++ free_events (free (mk_list 10 30 0 7 0 3))
             (copied_value demo_dup (dup (mk_list 10 30 0 7 0 3))
                <$> take (length [400])
                      (values (nodes clone_shared_start) scenario_nodes))) ∧
   (list_clone demo_dup 4 100 demo_state = Done NULL demo_state ∧
    nodes demo_state = nodes demo_state ∧
    iters demo_state = iters demo_state ∧
    lists demo_state = lists demo_state ∧
    calls demo_state = calls demo_state)).
Proof.
  split.
  - apply (list_clone_failure demo_dup 4 clone_dup_start 100 scenario_nodes
             (mk_list 10 30 5 0 0 3) 200 300 [400] [500]
             demo_state demo_state).
    + exact clone_dup_start_is_list.
    + vm_compute. reflexivity.
    + vm_compute. reflexivity.
    + exact NoDup_200_300_400.
    + intros p. apply clone_start_usable; vm_compute; reflexivity.
    + simpl. lia.
    + simpl. lia.
    + intros _ v Hv. vm_compute in Hv.
      apply list_elem_of_singleton in Hv as ->. vm_compute. discriminate.
    + left. split; [discriminate|]. vm_compute. reflexivity.
    + vm_compute. reflexivity.
  - apply (list_clone_failure demo_dup 4 clone_shared_start 100 scenario_nodes
             (mk_list 10 30 0 7 0 3) 200 300 [400] []
             demo_state demo_state).
    + apply (scenario_is_list_with _ 0 7 0); vm_compute; reflexivity.
    + vm_compute. reflexivity.
    + vm_compute. reflexivity.
    + exact NoDup_200_300_400.
    + intros p. apply clone_start_usable; vm_compute; reflexivity.
    + simpl. lia.
    + simpl. lia.
    + intros H. by destruct H.
    + right. split; [intros H; by destruct H|]. by left.
    + vm_compute. reflexivity.
Defined.

(** C3 as the specification states it does not hold.  With a [free]
    callback and no [dup] callback, a [list_clone] that fails for want of a
    node calls [free] on the value 1, which the source still holds in its
    node 10.  With a [dup] callback and no [free] callback, a [list_clone]
    whose second duplication fails ends with the duplicate 1001 made and
    never released. *)
Lemma list_clone_failure_counterexample :
  (list_clone demo_dup 4 100 clone_shared_start = Done NULL clone_shared_end ∧
   value_at (nodes clone_shared_end) 10 = 1 ∧
   walk false (nodes clone_shared_end) 4 10 = Some scenario_nodes ∧
   calls clone_shared_start = [] ∧
   calls clone_shared_end = [EvFree 7 1]) ∧
  (list_clone demo_dup 4 100 clone_dup_start = Done NULL clone_dup_end ∧
   calls clone_dup_start = [] ∧
   calls clone_dup_end = [EvDup 5 1 1001; EvDup 5 2 NULL]).
Proof.
  split.
  - split; [exact clone_shared_run|]. repeat split; vm_compute; reflexivity.
  - split; [exact clone_dup_run|]. repeat split; vm_compute; reflexivity.
Qed.


(* ===================================================================== *)
(** ** Further properties of the operations *)
(* ===================================================================== *)

(** Walks from the same head over the same links meet the same nodes: the
    nodes of a well-formed list are determined by the store. *)
Lemma is_list_unique st l xs ys : is_list st l xs → is_list st l ys → xs = ys.
Proof.
  intros (L & HL & Hh & _ & _ & _ & Hs) (L' & HL' & Hh' & _ & _ & _ & Hs').
  assert (L' = L) as -> by congruence.
  pose proof (walk_forward _ _ _ (S (length xs + length ys)) Hs) as Hx.
  pose proof (walk_forward _ _ _ (S (length xs + length ys)) Hs') as Hy.
  rewrite <- Hh in Hx. rewrite <- Hh' in Hy.
  specialize (Hx ltac:(lia)). specialize (Hy ltac:(lia)). congruence.
Qed.

(** Two stores in which the same chain is linked and holds the same values
    agree on every node of the chain. *)
Lemma dlseg_agree N N' pr ps nx q :
  dlseg N pr ps nx → dlseg N' pr ps nx →
  (∀ p, p ∈ ps → value_at N' p = value_at N p) →
  q ∈ ps → N' !! q = N !! q.
Proof.
  intros Hs Hs' Hv Hq. pose proof (Hv q Hq) as Hvq.
  apply list_elem_of_lookup in Hq as [i Hi].
  destruct (dlseg_lookup _ _ _ _ _ _ Hs Hi) as (n & Hn & Hp & Hx).
  destruct (dlseg_lookup _ _ _ _ _ _ Hs' Hi) as (n' & Hn' & Hp' & Hx').
  unfold value_at in Hvq. rewrite Hn, Hn' in Hvq. rewrite Hn, Hn'.
  destruct n, n'. simpl in *. congruence.
Qed.

Lemma list_t_eq (L L' : list_t) :
  head L' = head L → tail L' = tail L → len L' = len L →
  dup L' = dup L → free L' = free L → match_fn L' = match_fn L → L' = L.
Proof. destruct L, L'. simpl. congruence. Qed.

(** Two states in which the list at [l] has the same nodes in the same
    order, holding the same values, and the same callbacks, and which agree
    on every other node and list, have the same nodes and lists. *)
Lemma is_list_same_store st st' l ps :
  is_list st l ps → is_list st' l ps →
  (∀ p, p ∈ ps → value_at (nodes st') p = value_at (nodes st) p) →
  (∀ q, q ∉ ps → nodes st' !! q = nodes st !! q) →
  (∀ l', l' ≠ l → lists st' !! l' = lists st !! l') →
  (∀ L, lists st !! l = Some L → ∃ L', lists st' !! l = Some L' ∧
     dup L' = dup L ∧ free L' = free L ∧ match_fn L' = match_fn L) →
  nodes st' = nodes st ∧ lists st' = lists st.
Proof.
  intros (L & HL & Hh & Ht & Hn & _ & Hs) (L' & HL' & Hh' & Ht' & Hn' & _ & Hs')
    Hv Hframe Hother Hcb.
  split; apply map_eq; intros q.
  - destruct (decide (q ∈ ps)) as [Hq|Hq]; [|by apply Hframe].
    by eapply dlseg_agree.
  - destruct (decide (q = l)) as [->|Hq]; [|by apply Hother].
    destruct (Hcb L HL) as (L2 & HL2 & ? & ? & ?).
    rewrite HL', HL. f_equal. simplify_eq.
    apply list_t_eq; congruence.
Qed.

Lemma keeps_stale_ret {A} (a : A) : keeps_stale (mret a : M A).
Proof. intros st a' st' H. by injection H as _ <-. Qed.

Lemma keeps_stale_bind {A B} (m : M A) (f : A → M B) :
  keeps_stale m → (∀ a, keeps_stale (f a)) → keeps_stale (m ≫= f).
Proof.
  intros Hm Hf st b st' H. unfold mbind, M_bind in H.
  destruct (m st) as [a st1| |] eqn:Hrun; [|done..].
  rewrite (Hf a _ _ _ H). by eapply Hm.
Qed.

Lemma keeps_stale_prim :
  (∀ p, keeps_stale (read_node p)) ∧ (∀ p n, keeps_stale (write_node p n)) ∧
  (∀ p, keeps_stale (read_list p)) ∧ (∀ p l, keeps_stale (write_list p l)) ∧
  (∀ k, keeps_stale (zmalloc k)).
Proof.
  repeat split; intros; intros st a st' H.
  - unfold read_node in H. destruct (nodes st !! p); by simplify_eq.
  - unfold write_node in H. destruct (nodes st !! p); by simplify_eq.
  - unfold read_list in H. destruct (lists st !! p); by simplify_eq.
  - unfold write_list in H. destruct (lists st !! p); by simplify_eq.
  - unfold zmalloc in H. destruct (script st); [by simplify_eq|].
    destruct (decide _); simplify_eq; [|done]. by destruct k.
Qed.

(** Neither does any of the three operations that add a node. *)
Ltac keeps_stale_solve :=
  unfold_fields;
  repeat first
    [ apply keeps_stale_ret
    | apply keeps_stale_bind; [|intros ?]
    | apply keeps_stale_prim
    | match goal with
      | |- keeps_stale (if ?b then _ else _) => destruct b
      end ].

Lemma keeps_stale_add l v old after :
  keeps_stale (list_add_head l v) ∧ keeps_stale (list_add l v) ∧
  keeps_stale (list_insert l old v after).
Proof.
  unfold list_add_head, list_add, list_insert.
  repeat split; keeps_stale_solve.
Qed.

Lemma state_eq st st' :
  nodes st' = nodes st → lists st' = lists st → iters st' = iters st →
  script st' = script st → calls st' = calls st → stale st' = stale st →
  st' = st.
Proof. destruct st, st'. simpl. congruence. Qed.

Lemma iteration_order_elem d ps p : p ∈ iteration_order d ps ↔ p ∈ ps.
Proof.
  unfold iteration_order. destruct (decide (d = _START_HEAD)); [done|].
  apply elem_of_reverse.
Qed.

(** The link an iterator of direction [d] follows from the node at position
    [i] of its order leads to the node at position [S i]. *)
Lemma iteration_order_step N ps d i c n :
  dlseg N NULL ps NULL → iteration_order d ps !! i = Some c →
  N !! c = Some n →
  (if decide (d = _START_HEAD) then next n else prev n)
    = at_pos (iteration_order d ps) (S i).
Proof.
  unfold iteration_order, at_pos. intros Hseg Hi Hn.
  destruct (decide (d = _START_HEAD)) as [_|_].
  - destruct (dlseg_lookup _ _ _ _ _ _ Hseg Hi) as (n' & Hn' & _ & Hx).
    congruence.
  - pose proof (lookup_lt_Some _ _ _ Hi) as Hlt. rewrite length_reverse in Hlt.
    rewrite reverse_lookup in Hi by done.
    destruct (dlseg_lookup _ _ _ _ _ _ Hseg Hi) as (n' & Hn' & Hp & _).
    assert (n' = n) as -> by congruence. rewrite Hp.
    destruct (decide (S i < length ps)%nat) as [Hlt'|Hge].
    + rewrite reverse_lookup by done.
      replace (length ps - S i)%nat with (S (length ps - S (S i))) by lia.
      done.
    + replace (length ps - S i)%nat with O by lia.
      rewrite (lookup_ge_None_2 (reverse ps)); [done|].
      rewrite length_reverse. lia.
Qed.

Lemma iteration_order_start d ps :
  (if decide (d = _START_HEAD) then hd NULL ps else List.last ps NULL)
    = at_pos (iteration_order d ps) 0.
Proof.
  unfold iteration_order. destruct (decide (d = _START_HEAD)).
  - apply at_pos_head.
  - rewrite at_pos_last. unfold at_pos.
    destruct ps as [|p ps]; [done|].
    rewrite reverse_lookup by (simpl; lia). do 2 f_equal; simpl; lia.
Qed.

(** [n] calls of [list_next] on an iterator that stands at position [i] of
    its order yield the nodes from there on, and then [NULL], [m] being any
    bound on the number of calls; only the iterator has changed. *)
Lemma list_next_times_spec n : ∀ st it ps d i m,
  dlseg (nodes st) NULL ps NULL → (n ≤ m)%nat →
  iters st !! it = Some (mk_iter (at_pos (iteration_order d ps) i) d) →
  ∃ st', list_next_times n it st
           = Done (take n (drop i (iteration_order d ps) ++ replicate m NULL))
                  st' ∧
    nodes st' = nodes st ∧ lists st' = lists st ∧
    script st' = script st ∧ calls st' = calls st ∧
    iters st' =
      <[it := mk_iter (at_pos (iteration_order d ps) (i + n)) d]> (iters st).
Proof.
  induction n as [|n IH]; intros st it ps d i m Hseg Hm Hit.
  { exists st. rewrite Nat.add_0_r, insert_id by done. done. }
  destruct m as [|m]; [lia|].
  simpl list_next_times.
  destruct (iteration_order d ps !! i) as [c|] eqn:Hi.
  - assert (Hc : c ∈ ps).
    { apply (iteration_order_elem d). by eapply list_elem_of_lookup_2. }
    assert (c ≠ NULL).
    { intros ->. by eapply dlseg_NULL_not_elem. }
    destruct (dlseg_elem _ _ _ _ _ Hseg Hc) as [_ [nc Hnc]].
    assert (Hat : at_pos (iteration_order d ps) i = c).
    { unfold at_pos. by rewrite Hi. }
    rewrite Hat in Hit.
    erewrite run_bind by (by eapply list_next_node).
    rewrite (iteration_order_step _ _ _ _ _ _ Hseg Hi Hnc).
    edestruct (IH (set_iters st
                 (<[it := mk_iter (at_pos (iteration_order d ps) (S i)) d]>
                    (iters st))) it ps d (S i) (S m))
      as (st' & Hrun & HN & HL & HS & HC & HI); [done|lia|apply lookup_insert_eq|].
    exists st'. split.
    { erewrite run_bind by exact Hrun. rewrite run_ret.
      rewrite (at_pos_drop _ i) by (by eapply lookup_lt_Some).
      by rewrite Hat. }
    do 4 (split; [done|]). rewrite HI. simpl.
    rewrite insert_insert_eq. by replace (i + S n)%nat with (S i + n)%nat by lia.
  - assert (Hat : at_pos (iteration_order d ps) i = NULL).
    { unfold at_pos. by rewrite Hi. }
    apply lookup_ge_None_1 in Hi.
    assert (Hat' : at_pos (iteration_order d ps) (S i) = NULL).
    { apply at_pos_past. lia. }
    rewrite Hat in Hit.
    erewrite run_bind by (by eapply list_next_NULL).
    rewrite <- Hat' in Hit.
    destruct (IH st it ps d (S i) m Hseg) as (st' & Hrun & HN & HL & HS & HC & HI);
      [lia|done|].
    exists st'. split.
    { erewrite run_bind by exact Hrun. rewrite run_ret.
      rewrite !drop_ge by lia. done. }
    do 4 (split; [done|]). rewrite HI.
    by replace (i + S n)%nat with (S i + n)%nat by lia.
Qed.

Lemma list_rewind_spec st l L it i0 :
  lists st !! l = Some L → iters st !! it = Some i0 →
  list_rewind l it st =
    Done tt (set_iters st (<[it := mk_iter (head L) _START_HEAD]> (iters st))).
Proof.
  intros HL Hit. unfold list_rewind. mrun.
  erewrite run_write_iter by lookup_solve. by state_simpl.
Qed.

Lemma list_rewind_tail_spec st l L it i0 :
  lists st !! l = Some L → iters st !! it = Some i0 →
  list_rewind_tail l it st =
    Done tt (set_iters st (<[it := mk_iter (tail L) _START_TAIL]> (iters st))).
Proof.
  intros HL Hit. unfold list_rewind_tail. mrun.
  erewrite run_write_iter by lookup_solve. by state_simpl.
Qed.

Lemma list_set_free_method_spec st l L m :
  lists st !! l = Some L →
  list_set_free_method l m st =
    Done tt (set_lists st
               (<[l := mk_list (head L) (tail L) (dup L) m (match_fn L)
                         (len L)]> (lists st))).
Proof.
  intros HL. unfold list_set_free_method, set_free.
  erewrite run_bind by (by eapply run_read_list).
  by eapply run_write_list.
Qed.

Lemma first_match_ext f g ps :
  (∀ q, q ∈ ps → f q = g q) → first_match f ps = first_match g ps.
Proof.
  induction ps as [|p ps IH]; intros Hfg; [done|]. simpl.
  rewrite (Hfg p) by left. rewrite IH; [done|].
  intros q Hq. apply Hfg. by right.
Qed.

(** [list_search] when its iterator can be allocated. *)
Lemma list_search_spec call_match st l ps L key fuel it rest :
  is_list st l ps → lists st !! l = Some L →
  script st = it :: rest → usable st it → (length ps < fuel)%nat →
  list_search call_match fuel l key st
    = Done (first_match
              (λ p, value_matches call_match (match_fn L)
                      (value_at (nodes st) p) key) ps)
           (set_script st rest).
Proof.
  intros Hl HL Hs Hu Hfuel.
  pose proof Hl as (L' & HL' & Hh & Ht & Hlen & Hnd & Hseg). simplify_eq.
  unfold list_search.
  erewrite run_bind by (by eapply list_iterator_spec).
  rewrite decide_True by done. rewrite Hh, at_pos_head.
  destruct Hu as (Hr & _ & HI & _).
  erewrite list_search_loop_spec;
    [|done|done|unfold NULL; lia|lia].
  rewrite drop_0, delete_id by done. by destruct st.
Qed.

Section CloneSucceeds.

Variable call_dup : ptr → ptr → ptr.

(** With a fresh address in the script for each node still to copy, and a
    [dup] callback that does not fail on the values of the source, the loop
    of [list_clone] returns the copy, its new nodes being those addresses
    in order. *)
Lemma list_clone_loop_succeeds fuel : ∀ st c it d f m ps cps i new rest,
  clone_inv st c it d f m ps cps i → (length ps - i < fuel)%nat →
  script st = new ++ rest → length new = (length ps - i)%nat →
  NoDup new → (∀ p, p ∈ new → usable st p) →
  (d ≠ NULL → ∀ q, q ∈ ps → call_dup d (value_at (nodes st) q) ≠ NULL) →
  ∃ st', list_clone_loop call_dup fuel c it st = Done c st' ∧
         is_list st' c (cps ++ new) ∧ script st' = rest.
Proof.
  induction fuel as [|fuel IH];
    intros st c it d f m ps cps i new rest Hinv Hfuel Hs Hlen Hnd Hus Hdup;
    [lia|].
  destruct (decide (i < length ps)%nat) as [Hi|Hi]; cycle 1.
  { destruct Hinv as (Hc & Hit & Hl & _ & Hcur & _).
    cbn [list_clone_loop].
    rewrite at_pos_past in Hcur by lia.
    erewrite run_bind by (by eapply list_next_NULL).
    destruct new as [|? ?]; [|simpl in Hlen; lia].
    mrun. eexists. split; [reflexivity|]. state_simpl.
    rewrite app_nil_r. split; [|done].
    destruct Hl as (L & ?). by exists L. }
  destruct new as [|p new]; [simpl in Hlen; lia|].
  apply NoDup_cons in Hnd as [Hpnew Hnd].
  pose proof Hinv as (_ & _ & _ & _ & _ & Hsrc & _).
  destruct (list_clone_loop_step call_dup fuel st c it d f m ps cps i p
              (new ++ rest) Hinv Hi Hs (Hus p (list_elem_of_here _ _)))
    as (st1 & Hrun1 & Hinv1 & Hs1 & Hc1 & Hk1 & Hv1 & Hfr1 & Hls1 & Hi1 & Hu1).
  { intros Hd0. apply (Hdup Hd0). unfold at_pos.
    destruct (lookup_lt_is_Some_2 ps i Hi) as [q Hq]. rewrite Hq.
    by eapply list_elem_of_lookup_2. }
  destruct (IH st1 c it d f m ps (cps ++ [p]) (S i) new rest Hinv1)
    as (st' & Hloop & Hl' & Hs'); [lia|done|simpl in Hlen; lia|done| | |].
  - intros x Hx. apply Hu1; [by intros ->|]. apply Hus. by right.
  - intros Hd0 x Hx.
    rewrite (keeps_values_at (nodes st) (nodes st1)); [by apply Hdup|done|].
    by destruct (dlseg_elem _ _ _ _ _ Hsrc Hx) as [_ ?].
  - exists st'. split; [by rewrite Hrun1|]. split; [|done].
    by rewrite <- app_assoc in Hl'.
Qed.

End CloneSucceeds.

(** [list_clone] when nothing fails. *)
Lemma list_clone_success call_dup fuel st orig ps L c it new rest :
  is_list st orig ps → lists st !! orig = Some L →
  script st = c :: it :: new ++ rest →
  NoDup (c :: it :: new) → (∀ p, p ∈ c :: it :: new → usable st p) →
  length new = length ps →
  (dup L ≠ NULL →
   ∀ q, q ∈ ps → call_dup (dup L) (value_at (nodes st) q) ≠ NULL) →
  (length ps < fuel)%nat →
  ∃ st' Lc,
    list_clone call_dup fuel orig st = Done c st' ∧
    is_list st' c new ∧
    values (nodes st') new
      = copied_value call_dup (dup L) <$> values (nodes st) ps ∧
    lists st' !! c = Some Lc ∧
    dup Lc = dup L ∧ free Lc = free L ∧ match_fn Lc = match_fn L ∧
    (∀ q, q ∉ new → nodes st' !! q = nodes st !! q) ∧
    (∀ l', l' ≠ c → lists st' !! l' = lists st !! l') ∧
    iters st' = iters st ∧ script st' = rest ∧
    calls st' = calls st
                ++ dup_events call_dup (dup L) (values (nodes st) ps).
Proof.
  intros Hl HL Hs Hnd Hus Hlen Hdup Hfuel.
  pose proof (Hus c ltac:(set_solver)) as Hc.
  pose proof (Hus it ltac:(set_solver)) as Hit.
  pose proof Hc as (Hrc & HNc & HIc & HLc).
  pose proof Hit as (Hrit & HNit & HIit & HLit).
  apply NoDup_cons in Hnd as [Hcn Hnd]. apply NoDup_cons in Hnd as [Hitn Hnd].
  assert (c ≠ it) by (intros ->; apply Hcn; left).
  assert (c ≠ orig) by congruence.
  pose proof Hl as (L' & HL' & Hh & Ht & Hlen' & Hndp & Hseg). simplify_eq.
  unfold list_clone.
  erewrite run_bind by (by eapply list_create_spec).
  rewrite decide_False by (unfold NULL; lia). mrun.
  match goal with |- ∃ _ _, (list_iterator _ _ ≫= _) ?s = _ ∧ _ =>
    set (st_a := s) end.
  erewrite run_bind.
  2:{ eapply (list_iterator_spec st_a orig L _START_HEAD it (new ++ rest)).
      - unfold st_a. cbn [lists]. by rewrite lookup_insert_ne.
      - done.
      - unfold st_a, usable. cbn [nodes iters lists].
        repeat (split; [done|]). by rewrite lookup_insert_ne. }
  rewrite decide_True by done. unfold st_a. simpl. rewrite Hh, at_pos_head.
  match goal with |- ∃ _ _, list_clone_loop _ _ _ _ ?s = _ ∧ _ =>
    set (st_l := s) end.
  assert (Hinv : clone_inv st_l c it (dup L) (free L) (match_fn L) ps [] 0).
  { unfold st_l. repeat split; simpl; try (unfold NULL; lia); try done.
    - eapply is_list_intro; [apply lookup_insert_eq|try done..].
      apply NoDup_nil_2.
    - eexists. split; [apply lookup_insert_eq|done].
    - apply lookup_insert_eq.
    - intros q _. apply not_elem_of_nil. }
  destruct (list_clone_loop_outcome call_dup fuel st_l c it
              (dup L) (free L) (match_fn L) ps [] 0 Hinv)
    as (r & st' & Hrun & Hi' & Hout); [lia|].
  destruct (list_clone_loop_succeeds call_dup fuel st_l c it
              (dup L) (free L) (match_fn L) ps [] 0 new rest Hinv)
    as (st2 & Hrun2 & Hl2 & Hs2); [lia|done|lia|done| |exact Hdup|].
  { intros p Hp. pose proof (Hus p ltac:(set_solver)) as (? & ? & ? & ?).
    assert (p ≠ c) by (intros ->; apply Hcn; by right).
    assert (p ≠ it) by (intros ->; by apply Hitn).
    unfold usable, st_l. simpl. rewrite !lookup_insert_ne by done. done. }
  rewrite Hrun2 in Hrun. injection Hrun as <- <-.
  unfold st_l in Hi', Hout. simpl in Hi', Hout, Hl2. rewrite drop_0 in Hout.
  destruct Hout as [(_ & new' & Hl' & Hv' & Hfr' & Hnew & Hls' & HLc' & Hc')
                   |(Hnull & _)]; [|unfold NULL in Hnull; lia].
  simpl in *. assert (new' = new) as -> by (by eapply is_list_unique).
  destruct HLc' as (Lc & HLc' & ? & ? & ?).
  exists st2, Lc. split; [done|]. do 7 (split; [done|]).
  split. { intros l' Hl1. rewrite Hls' by done. by apply lookup_insert_ne. }
  split. { rewrite Hi', delete_insert_eq. by apply delete_id. }
  done.
Qed.

(** X1 ([list_create]).  [list_create] always returns.  It returns either
    [NULL], and then no list has been made, or the address of a block that
    was free, which now holds a well-formed empty list: no node, [head] and
    [tail] [NULL], [len] 0 and no callback installed.  In both cases the
    nodes, the iterators, the other lists and the callback log are as
    before. *)
Theorem list_create_outcome st :
  ∃ l st', list_create st = Done l st' ∧
    nodes st' = nodes st ∧ iters st' = iters st ∧ calls st' = calls st ∧
    ((l = NULL ∧ lists st' = lists st) ∨
     (l ≠ NULL ∧ usable st l ∧
      lists st' = <[l := mk_list NULL NULL NULL NULL NULL 0]> (lists st) ∧
      is_list st' l [])).
Proof.
  destruct (zmalloc_cases KList st) as [(p & rest & Hs & Hu & Hz)|[s Hz]].
  - pose proof (list_create_spec st p rest Hs Hu) as Hrun.
    assert (p ≠ NULL) by (destruct Hu as [? _]; unfold NULL; lia).
    eexists. eexists. split; [exact Hrun|]. simpl.
    do 3 (split; [done|]). right.
    split; [done|]. split; [done|]. split; [done|].
    by eapply list_create_is_list.
  - apply list_create_failure in Hz. eexists. eexists.
    split; [exact Hz|]. simpl. do 3 (split; [done|]). by left.
Qed.

(** X2 ([list_add_head]).  When the node can be allocated (at [p]),
    [list_add_head] returns the list, whose nodes are now [p] followed by
    the old nodes in their old order; [p] holds the value and the old nodes
    hold theirs.  No callback is called, and no other node, list or
    iterator changes. *)
Theorem list_add_head_prepends st l ps v p rest :
  is_list st l ps → script st = p :: rest → usable st p →
  ∃ st', list_add_head l v st = Done l st' ∧
    is_list st' l (p :: ps) ∧
    values (nodes st') (p :: ps) = v :: values (nodes st) ps ∧
    (∀ q, q ∉ p :: ps → nodes st' !! q = nodes st !! q) ∧
    (∀ l', l' ≠ l → lists st' !! l' = lists st !! l') ∧
    iters st' = iters st ∧ calls st' = calls st ∧ script st' = rest.
Proof.
  intros Hl Hs Hu.
  destruct (list_add_head_spec st l ps v p rest Hl Hs Hu)
    as (st' & Hrun & Hl' & Hk & Hv & Hsc & Hc & Hi & Hls & _ & Hfr).
  exists st'. split; [done|]. split; [done|]. split.
  { destruct Hl as (L & _ & _ & _ & _ & _ & Hseg).
    unfold values. rewrite fmap_cons. f_equal; [done|].
    by eapply keeps_values_chain. }
  done.
Qed.

(** X3 ([list_add]).  When the node can be allocated (at [p]), [list_add]
    returns the list, whose nodes are now the old nodes in their old order
    followed by [p]; [p] holds the value and the old nodes hold theirs.  No
    callback is called, and no other node, list or iterator changes. *)
Theorem list_add_appends st l ps v p rest :
  is_list st l ps → script st = p :: rest → usable st p →
  ∃ st', list_add l v st = Done l st' ∧
    is_list st' l (ps ++ [p]) ∧
    values (nodes st') (ps ++ [p]) = values (nodes st) ps ++ [v] ∧
    (∀ q, q ∉ ps ++ [p] → nodes st' !! q = nodes st !! q) ∧
    (∀ l', l' ≠ l → lists st' !! l' = lists st !! l') ∧
    iters st' = iters st ∧ calls st' = calls st ∧ script st' = rest.
Proof.
  intros Hl Hs Hu.
  destruct (list_add_spec st l ps v p rest Hl Hs Hu)
    as (st' & Hrun & Hl' & Hk & Hv & Hsc & Hc & Hi & Hls & _ & Hfr).
  exists st'. split; [done|]. split; [done|]. split.
  { destruct Hl as (L & _ & _ & _ & _ & _ & Hseg).
    rewrite values_app. f_equal; [by eapply keeps_values_chain|].
    unfold values. simpl. by rewrite Hv. }
  done.
Qed.

(** X4 ([list_insert]).  When the node can be allocated (at [p]),
    [list_insert] puts it next to the anchor [old]: right before it when
    [after] is 0 and right after it for any other [after].  The other
    nodes keep their order, every old node keeps its value, [p] holds the
    new value, and nothing else changes. *)
Theorem list_insert_position st l l1 old l2 v after p rest :
  is_list st l (l1 ++ old :: l2) → script st = p :: rest → usable st p →
  let ps' := if decide (after = 0) then l1 ++ p :: old :: l2
             else l1 ++ old :: p :: l2 in
  ∃ st', list_insert l old v after st = Done l st' ∧
    is_list st' l ps' ∧
    value_at (nodes st') p = v ∧
    (∀ q, q ∈ l1 ++ old :: l2 →
          value_at (nodes st') q = value_at (nodes st) q) ∧
    (∀ q, q ∉ p :: l1 ++ old :: l2 → nodes st' !! q = nodes st !! q) ∧
    (∀ l', l' ≠ l → lists st' !! l' = lists st !! l') ∧
    iters st' = iters st ∧ calls st' = calls st ∧ script st' = rest.
Proof.
  intros Hl Hs Hu ps'.
  destruct (list_insert_at st l l1 old l2 v after p rest Hl Hs Hu)
    as (st' & Hrun & Hl' & Hk & Hv & Hsc & Hc & Hi & Hls & _ & Hfr).
  exists st'. split; [done|]. split.
  { unfold ps'. destruct (decide (after = 0)); [done|].
    by rewrite <- app_assoc in Hl'. }
  split; [done|]. split; [|done].
  intros q Hq. destruct Hl as (L & _ & _ & _ & _ & _ & Hseg).
  apply keeps_values_at; [done|]. by eapply dlseg_elem.
Qed.

(** X5 ([list_insert], [list_add_head], [list_add]).  On a list that is not
    empty, inserting before the head is [list_add_head] and inserting after
    the tail is [list_add]: the calls return the same result and leave the
    same state. *)
Theorem list_insert_at_ends st l ps v after p rest :
  is_list st l ps → ps ≠ [] → script st = p :: rest → usable st p →
  list_insert l (hd NULL ps) v 0 st = list_add_head l v st ∧
  (after ≠ 0 → list_insert l (List.last ps NULL) v after st = list_add l v st).
Proof.
  intros Hl Hps Hs Hu.
  pose proof Hl as (L & HL & _ & _ & _ & _ & Hseg).
  assert (Hkeep : ∀ st1, keeps_values (nodes st) (nodes st1) →
            ∀ q, q ∈ ps → value_at (nodes st1) q = value_at (nodes st) q).
  { intros st1 Hk q Hq. apply keeps_values_at; [done|]. by eapply dlseg_elem. }
  assert (Hp : p ∉ ps).
  { destruct Hu as (_ & ? & _). by eapply dlseg_not_elem. }
  split.
  - destruct ps as [|h ps']; [done|]. simpl hd.
    destruct (list_insert_at st l [] h ps' v 0 p rest Hl Hs Hu)
      as (st1 & Hrun1 & Hl1 & Hk1 & Hv1 & Hsc1 & Hc1 & Hi1 & Hls1 & Hcb1 & Hfr1).
    destruct (list_add_head_spec st l (h :: ps') v p rest Hl Hs Hu)
      as (st2 & Hrun2 & Hl2 & Hk2 & Hv2 & Hsc2 & Hc2 & Hi2 & Hls2 & Hcb2 & Hfr2).
    rewrite decide_True in Hl1 by done. simpl in Hl1, Hfr1.
    rewrite Hrun1, Hrun2. f_equal.
    destruct (is_list_same_store st2 st1 l (p :: h :: ps') Hl2 Hl1) as [HN HLs].
    + intros q Hq. apply elem_of_cons in Hq as [->|Hq]; [congruence|].
      rewrite (Hkeep st1), (Hkeep st2); done.
    + intros q Hq. by rewrite Hfr1, Hfr2.
    + intros l' Hl'. by rewrite Hls1, Hls2.
    + intros L2 HL2. destruct (Hcb2 L HL) as (L2' & HL2' & ? & ? & ?).
      destruct (Hcb1 L HL) as (L1 & HL1 & ? & ? & ?).
      assert (L2' = L2) as -> by congruence.
      exists L1. split; [done|]. split; [congruence|]. split; congruence.
    + destruct (keeps_stale_add l v h 0) as (Hst2 & _ & Hst1).
      specialize (Hst1 _ _ _ Hrun1). specialize (Hst2 _ _ _ Hrun2).
      apply state_eq; congruence.
  - intros Hafter.
    destruct (exists_last Hps) as (front & t & ->).
    rewrite last_app_singleton.
    destruct (list_insert_at st l front t [] v after p rest Hl Hs Hu)
      as (st1 & Hrun1 & Hl1 & Hk1 & Hv1 & Hsc1 & Hc1 & Hi1 & Hls1 & Hcb1 & Hfr1).
    destruct (list_add_spec st l (front ++ [t]) v p rest Hl Hs Hu)
      as (st2 & Hrun2 & Hl2 & Hk2 & Hv2 & Hsc2 & Hc2 & Hi2 & Hls2 & Hcb2 & Hfr2).
    rewrite decide_False in Hl1 by done.
    rewrite Hrun1, Hrun2. f_equal.
    destruct (is_list_same_store st2 st1 l ((front ++ [t]) ++ [p]) Hl2 Hl1)
      as [HN HLs].
    + intros q Hq. apply elem_of_app in Hq as [Hq|Hq].
      * rewrite (Hkeep st1), (Hkeep st2); done.
      * apply list_elem_of_singleton in Hq as ->. congruence.
    + intros q Hq. rewrite Hfr1, Hfr2; [done|done|].
      apply not_elem_of_app in Hq as [? Hq].
      apply not_elem_of_cons in Hq as [? _].
      by apply not_elem_of_cons.
    + intros l' Hl'. by rewrite Hls1, Hls2.
    + intros L2 HL2. destruct (Hcb2 L HL) as (L2' & HL2' & ? & ? & ?).
      destruct (Hcb1 L HL) as (L1 & HL1 & ? & ? & ?).
      assert (L2' = L2) as -> by congruence.
      exists L1. split; [done|]. split; [congruence|]. split; congruence.
    + destruct (keeps_stale_add l v t after) as (_ & Hst2 & Hst1).
      specialize (Hst1 _ _ _ Hrun1). specialize (Hst2 _ _ _ Hrun2).
      apply state_eq; congruence.
Qed.

(** X6 ([list_remove]).  Removing a node of a well-formed list releases
    that node and leaves the list well formed with the other nodes in their
    old order, holding their old values.  The [free] callback is called
    once, on the value of the removed node, when one is installed, and not
    at all otherwise.  Nothing else changes, and no memory is allocated. *)
Theorem list_remove_unlinks st l l1 node l2 :
  is_list st l (l1 ++ node :: l2) →
  ∃ st' L, list_remove l node st = Done tt st' ∧
    lists st !! l = Some L ∧
    is_list st' l (l1 ++ l2) ∧
    nodes st' !! node = None ∧
    values (nodes st') (l1 ++ l2) = values (nodes st) (l1 ++ l2) ∧
    (∀ q, q ∉ l1 ++ node :: l2 → nodes st' !! q = nodes st !! q) ∧
    (∀ l', l' ≠ l → lists st' !! l' = lists st !! l') ∧
    calls st' = calls st ++ free_events (free L) [value_at (nodes st) node] ∧
    iters st' = iters st ∧ script st' = script st.
Proof.
  intros Hl.
  destruct (list_remove_at st l l1 node l2 Hl)
    as (st' & L & Hrun & Hl' & HL & Hgone & Hv & Hfr & Hc & Hsc & Hi & Hls & _).
  exists st', L. do 4 (split; [done|]). split.
  { unfold values. apply list_fmap_ext. intros i q Hq.
    apply Hv. by eapply list_elem_of_lookup_2. }
  do 2 (split; [done|]). split; [|done].
  rewrite Hc. f_equal. unfold free_events, truthy.
  destruct (decide (free L = NULL)) as [->|Hf]; [done|].
  apply Z.eqb_neq in Hf. unfold NULL in Hf. by rewrite Hf.
Qed.

(** X7 ([list_set_free_method] of [list.h], [list_remove]).  The callback
    that [list_remove] calls is the one installed last: after
    [list_set_free_method(l, m)] the removal of a node calls [m] once on the
    value of that node, and calls nothing when [m] is [NULL]. *)
Theorem list_set_free_method_then_remove st l l1 node l2 m :
  is_list st l (l1 ++ node :: l2) →
  ∃ st', (list_set_free_method l m;; list_remove l node) st = Done tt st' ∧
    is_list st' l (l1 ++ l2) ∧
    nodes st' !! node = None ∧
    calls st' = calls st ++ free_events m [value_at (nodes st) node].
Proof.
  intros Hl. pose proof Hl as (L & HL & Hh & Ht & Hlen & Hnd & Hseg).
  pose proof (list_set_free_method_spec st l L m HL) as Hrun1.
  set (st1 := set_lists st
                (<[l := mk_list (head L) (tail L) (dup L) m (match_fn L)
                          (len L)]> (lists st))) in *.
  assert (Hl1 : is_list st1 l (l1 ++ node :: l2)).
  { eapply is_list_intro; [apply lookup_insert_eq|done..]. }
  destruct (list_remove_at st1 l l1 node l2 Hl1)
    as (st2 & L1 & Hrun2 & Hl2 & HL1 & Hgone & _ & _ & Hc & _).
  assert (L1 = mk_list (head L) (tail L) (dup L) m (match_fn L) (len L)) as ->.
  { unfold st1 in HL1. simpl in HL1. rewrite lookup_insert_eq in HL1.
    congruence. }
  exists st2. split.
  { erewrite run_bind by exact Hrun1. exact Hrun2. }
  do 2 (split; [done|]). rewrite Hc. simpl. f_equal.
  unfold free_events, truthy.
  destruct (decide (m = NULL)) as [->|Hm]; [done|].
  apply Z.eqb_neq in Hm. unfold NULL in Hm. by rewrite Hm.
Qed.

(** X8 ([list_add_head], [list_index], [list_remove]).  Adding a value at
    the head and then removing the node at index 0 restores the store: the
    nodes, the lists and the iterators are exactly as before.  What remains
    is one allocation consumed and, when a [free] callback is installed, one
    call of it on the value that was added. *)
Theorem add_head_then_remove_restores st l ps L v p rest :
  is_list st l ps → lists st !! l = Some L →
  script st = p :: rest → usable st p →
  ∃ st',
    (list_add_head l v;; n ← list_index l 0; list_remove l n) st
      = Done tt st' ∧
    nodes st' = nodes st ∧ lists st' = lists st ∧ iters st' = iters st ∧
    script st' = rest ∧
    calls st' = calls st ++ free_events (free L) [v].
Proof.
  intros Hl HL Hs Hu.
  destruct (list_add_head_spec st l ps v p rest Hl Hs Hu)
    as (st1 & Hrun1 & Hl1 & Hk1 & Hv1 & Hsc1 & Hc1 & Hi1 & Hls1 & Hcb1 & Hfr1).
  pose proof (list_index_spec st1 l (p :: ps) 0 Hl1) as Hidx.
  assert (Hrange : LONG_MIN ≤ 0 ≤ LONG_MAX) by (unfold LONG_MIN, LONG_MAX; lia).
  specialize (Hidx Hrange). change (index_of (p :: ps) 0) with p in Hidx.
  destruct (list_remove_at st1 l [] p ps Hl1)
    as (st2 & L1 & Hrun2 & Hl2 & HL1 & Hgone & Hv2 & Hfr2 & Hc2 & Hsc2 & Hi2
        & Hls2 & L2 & HL2 & Hd2 & Hf2 & Hm2).
  simpl in Hl2, Hv2, Hfr2.
  destruct (Hcb1 L HL) as (L1' & HL1' & Hd1 & Hf1 & Hm1).
  assert (L1' = L1) as -> by congruence.
  exists st2. split.
  { erewrite run_bind by exact Hrun1. erewrite run_bind by exact Hidx.
    exact Hrun2. }
  destruct Hu as (_ & HNp & _).
  assert (Hpps : p ∉ ps).
  { destruct Hl as (? & _ & _ & _ & _ & _ & Hseg). by eapply dlseg_not_elem. }
  destruct (is_list_same_store st st2 l ps Hl Hl2) as [HN HLs].
  - intros q Hq. rewrite Hv2 by done.
    destruct Hl as (? & _ & _ & _ & _ & _ & Hseg).
    apply keeps_values_at; [done|]. by eapply dlseg_elem.
  - intros q Hq. destruct (decide (q = p)) as [->|Hqp]; [congruence|].
    rewrite Hfr2, Hfr1; [done|..]; by apply not_elem_of_cons.
  - intros l' Hl'. by rewrite Hls2, Hls1.
  - intros L0 HL0. assert (L0 = L) as -> by congruence.
    exists L2. split; [done|]. split; [congruence|]. split; congruence.
  - split; [done|]. split; [done|]. split; [congruence|]. split; [congruence|].
    rewrite Hc2, Hc1. f_equal. rewrite Hf1, Hv1. unfold free_events, truthy.
    destruct (decide (free L = NULL)) as [->|Hf]; [done|].
    apply Z.eqb_neq in Hf. unfold NULL in Hf. by rewrite Hf.
Qed.

(** X9 ([list_free]).  Freeing a well-formed list releases the list and
    each of its nodes and nothing else, and calls the [free] callback, when
    one is installed, once on the value of each node, from head to tail. *)
Theorem list_free_releases st l ps :
  is_list st l ps → l ≠ NULL →
  ∃ st' L, list_free l st = Done tt st' ∧ lists st !! l = Some L ∧
    lists st' = delete l (lists st) ∧
    (∀ q, nodes st' !! q = if decide (q ∈ ps) then None else nodes st !! q) ∧
    calls st' = calls st ++ free_events (free L) (values (nodes st) ps) ∧
    iters st' = iters st ∧ script st' = script st.
Proof.
  intros Hl Hne.
  destruct (list_free_spec st l ps Hl Hne)
    as (st' & L & Hrun & HL & Hin & Hout & Hc & Hls & Hi & Hs).
  exists st', L. do 3 (split; [done|]). split; [|done].
  intros q. destruct (decide (q ∈ ps)); [by apply Hin|by apply Hout].
Qed.

(** X10 ([list_iterator], [list_next]).  When the iterator can be
    allocated, [n] calls of [list_next] on a new iterator yield the nodes of
    the list in the order of its direction (head to tail for [_START_HEAD],
    tail to head for any other direction), each node once, and [NULL] from
    then on.  The nodes, the lists and the callback log are untouched. *)
Theorem list_iterator_traversal st l ps d it rest n :
  is_list st l ps → script st = it :: rest → usable st it →
  ∃ st', (iter ← list_iterator l d; list_next_times n iter) st
           = Done (take n (iteration_order d ps ++ replicate n NULL)) st' ∧
    nodes st' = nodes st ∧ lists st' = lists st ∧ calls st' = calls st ∧
    script st' = rest.
Proof.
  intros (L & HL & Hh & Ht & _ & _ & Hseg) Hs Hu.
  pose proof (list_iterator_spec st l L d it rest HL Hs Hu) as Hrun.
  rewrite Hh, Ht, iteration_order_start in Hrun.
  edestruct (list_next_times_spec n
               (mk_state (nodes st)
                  (<[it := mk_iter (at_pos (iteration_order d ps) 0) d]>
                     (iters st)) (lists st) rest (calls st) (stale st))
               it ps d O n)
    as (st' & Hrun' & HN & HLs & HS & HC & _);
    [exact Hseg|lia|apply lookup_insert_eq|].
  exists st'. split; [|done].
  erewrite run_bind by exact Hrun. by rewrite Hrun', drop_0.
Qed.

(** X11 ([list_rewind], [list_next]).  [list_rewind] puts an existing
    iterator, wherever it stood and whatever its direction, back at the
    head: the next [n] calls of [list_next] yield the nodes from head to
    tail and then [NULL].  No memory is allocated. *)
Theorem list_rewind_restarts st l ps it i0 n :
  is_list st l ps → iters st !! it = Some i0 →
  ∃ st', (list_rewind l it;; list_next_times n it) st
           = Done (take n (ps ++ replicate n NULL)) st' ∧
    nodes st' = nodes st ∧ lists st' = lists st ∧ calls st' = calls st ∧
    script st' = script st.
Proof.
  intros (L & HL & Hh & _ & _ & _ & Hseg) Hit.
  pose proof (list_rewind_spec st l L it i0 HL Hit) as Hrun.
  pose proof (iteration_order_start _START_HEAD ps) as Hst.
  rewrite decide_True in Hst by done. rewrite Hh, Hst in Hrun.
  edestruct (list_next_times_spec n
               (set_iters st
                  (<[it := mk_iter (at_pos (iteration_order _START_HEAD ps) 0)
                             _START_HEAD]> (iters st)))
               it ps _START_HEAD O n)
    as (st' & Hrun' & HN & HLs & HS & HC & _);
    [exact Hseg|lia|apply lookup_insert_eq|].
  exists st'. split; [|done].
  erewrite run_bind by exact Hrun. by rewrite Hrun', drop_0.
Qed.

(** X12 ([list_rewind_tail], [list_next]).  [list_rewind_tail] puts an
    existing iterator at the tail, going backwards: the next [n] calls of
    [list_next] yield the nodes from tail to head and then [NULL].  No
    memory is allocated. *)
Theorem list_rewind_tail_restarts st l ps it i0 n :
  is_list st l ps → iters st !! it = Some i0 →
  ∃ st', (list_rewind_tail l it;; list_next_times n it) st
           = Done (take n (reverse ps ++ replicate n NULL)) st' ∧
    nodes st' = nodes st ∧ lists st' = lists st ∧ calls st' = calls st ∧
    script st' = script st.
Proof.
  intros (L & HL & _ & Ht & _ & _ & Hseg) Hit.
  pose proof (list_rewind_tail_spec st l L it i0 HL Hit) as Hrun.
  pose proof (iteration_order_start _START_TAIL ps) as Hst.
  rewrite decide_False in Hst by done. rewrite Ht, Hst in Hrun.
  edestruct (list_next_times_spec n
               (set_iters st
                  (<[it := mk_iter (at_pos (iteration_order _START_TAIL ps) 0)
                             _START_TAIL]> (iters st)))
               it ps _START_TAIL O n)
    as (st' & Hrun' & HN & HLs & HS & HC & _);
    [exact Hseg|lia|apply lookup_insert_eq|].
  exists st'. split; [|done].
  erewrite run_bind by exact Hrun. by rewrite Hrun', drop_0.
Qed.


(** X14 ([list_add_head], [list_search]).  A search right after
    [list_add_head] (node and iterator both allocated) returns the new node
    when the added value matches the key, and otherwise what the search
    would have returned before the addition: the first old node whose value
    matches, or [NULL]. *)
Theorem list_add_head_then_search call_match st l ps L v key p it rest fuel :
  is_list st l ps → lists st !! l = Some L →
  script st = p :: it :: rest → usable st p → usable st it → p ≠ it →
  (S (length ps) < fuel)%nat →
  ∃ st',
    (list_add_head l v;; list_search call_match fuel l key) st
      = Done (if value_matches call_match (match_fn L) v key then p
              else first_match
                     (λ q, value_matches call_match (match_fn L)
                             (value_at (nodes st) q) key) ps)
             st' ∧
    is_list st' l (p :: ps) ∧ script st' = rest.
Proof.
  intros Hl HL Hs Hup Huit Hne Hfuel.
  destruct (list_add_head_spec st l ps v p (it :: rest) Hl Hs Hup)
    as (st1 & Hrun1 & Hl1 & Hk1 & Hv1 & Hsc1 & Hc1 & Hi1 & Hls1 & Hcb1 & Hfr1).
  destruct (Hcb1 L HL) as (L1 & HL1 & _ & _ & Hm1).
  destruct Huit as (Hrit & HNit & HIit & HLit).
  pose proof Hl as (? & _ & _ & _ & _ & _ & Hseg).
  assert (Huit1 : usable st1 it).
  { split; [done|]. split.
    - rewrite Hfr1; [done|]. apply not_elem_of_cons. split; [done|].
      by eapply dlseg_not_elem.
    - split; [congruence|]. rewrite Hls1; [done|]. congruence. }
  pose proof (list_search_spec call_match st1 l (p :: ps) L1 key fuel it rest
                Hl1 HL1 Hsc1 Huit1) as Hrun2.
  specialize (Hrun2 ltac:(simpl; lia)).
  eexists. split.
  { erewrite run_bind by exact Hrun1. rewrite Hrun2. f_equal.
    cbn [first_match]. rewrite Hv1, Hm1.
    destruct (value_matches call_match (match_fn L) v key); [done|].
    apply first_match_ext. intros q Hq. f_equal.
    apply keeps_values_at; [done|]. by eapply dlseg_elem. }
  split; [by apply is_list_set_script|done].
Qed.

(** X15 ([list_clone]).  When the allocator can supply the copy, the
    iterator and one node for each node of the source, and the [dup]
    callback, if installed, fails on no value of the source, [list_clone]
    returns the copy: a well-formed list of as many nodes, at the addresses
    supplied, whose values are in the order of the source the duplicates of
    its values (the values themselves without a [dup] callback), and which
    has the callbacks of the source.  The source, its nodes and every other
    list are untouched, the iterator is released, and [dup] is called once
    on each value, from head to tail. *)
Theorem list_clone_copies call_dup fuel st orig ps L c it new rest :
  is_list st orig ps → lists st !! orig = Some L →
  script st = c :: it :: new ++ rest →
  NoDup (c :: it :: new) → (∀ p, p ∈ c :: it :: new → usable st p) →
  length new = length ps →
  (dup L ≠ NULL →
   ∀ q, q ∈ ps → call_dup (dup L) (value_at (nodes st) q) ≠ NULL) →
  (length ps < fuel)%nat →
  ∃ st' Lc,
    list_clone call_dup fuel orig st = Done c st' ∧
    is_list st' c new ∧
    values (nodes st') new
      = copied_value call_dup (dup L) <$> values (nodes st) ps ∧
    lists st' !! c = Some Lc ∧
    dup Lc = dup L ∧ free Lc = free L ∧ match_fn Lc = match_fn L ∧
    is_list st' orig ps ∧ lists st' !! orig = Some L ∧
    values (nodes st') ps = values (nodes st) ps ∧
    (∀ q, q ∉ new → nodes st' !! q = nodes st !! q) ∧
    (∀ l', l' ≠ c → lists st' !! l' = lists st !! l') ∧
    iters st' = iters st ∧ script st' = rest ∧
    calls st' = calls st
                ++ dup_events call_dup (dup L) (values (nodes st) ps).
Proof.
  intros Hl HL Hs Hnd Hus Hlen Hdup Hfuel.
  destruct (list_clone_success call_dup fuel st orig ps L c it new rest
              Hl HL Hs Hnd Hus Hlen Hdup Hfuel)
    as (st' & Lc & Hrun & Hl' & Hv' & HLc & Hd & Hf & Hm & Hfr & Hls & Hi
        & Hsc & Hc).
  pose proof Hl as (L0 & HL0 & Hh & Ht & Hn & Hndp & Hseg).
  assert (L0 = L) as -> by congruence.
  assert (Hco : c ≠ orig).
  { intros ->. destruct (Hus orig) as (_ & _ & _ & HLo); [left|congruence]. }
  assert (Hps : ∀ q, q ∈ ps → q ∉ new).
  { intros q Hq Hq'. destruct (dlseg_elem _ _ _ _ _ Hseg Hq) as [_ [n Hn']].
    destruct (Hus q) as (_ & HNq & _); [by do 2 right|congruence]. }
  assert (HLo : lists st' !! orig = Some L) by (by rewrite Hls).
  exists st', Lc. do 7 (split; [done|]). split.
  { eapply is_list_intro; [exact HLo|done..|].
    eapply dlseg_frame; [|exact Hseg]. intros q Hq. by apply Hfr, Hps. }
  split; [done|]. split; [|done].
  unfold values. apply list_fmap_ext. intros i q Hq. unfold value_at.
  rewrite Hfr; [done|]. by eapply Hps, list_elem_of_lookup_2.
Qed.

(** X16 ([list_clone], [list_free]).  Cloning a list and freeing the copy
    restores the store: nodes, lists and iterators are exactly as before.
    The [free] callback of the source, when installed, has been called on
    each value of the copy, so on the values of the source themselves when
    no [dup] callback is installed. *)
Theorem list_clone_then_free call_dup fuel st orig ps L c it new rest :
  is_list st orig ps → lists st !! orig = Some L →
  script st = c :: it :: new ++ rest →
  NoDup (c :: it :: new) → (∀ p, p ∈ c :: it :: new → usable st p) →
  length new = length ps →
  (dup L ≠ NULL →
   ∀ q, q ∈ ps → call_dup (dup L) (value_at (nodes st) q) ≠ NULL) →
  (length ps < fuel)%nat →
  ∃ st',
    (copy ← list_clone call_dup fuel orig; list_free copy) st = Done tt st' ∧
    nodes st' = nodes st ∧ lists st' = lists st ∧ iters st' = iters st ∧
    script st' = rest ∧
    calls st' = calls st
      ++ dup_events call_dup (dup L) (values (nodes st) ps)
      ++ free_events (free L)
           (copied_value call_dup (dup L) <$> values (nodes st) ps).
Proof.
  intros Hl HL Hs Hnd Hus Hlen Hdup Hfuel.
  pose proof (Hus c ltac:(set_solver)) as (Hrc & _ & _ & HLc).
  destruct (list_clone_success call_dup fuel st orig ps L c it new rest
              Hl HL Hs Hnd Hus Hlen Hdup Hfuel)
    as (st1 & Lc & Hrun & Hl1 & Hv1 & HLc1 & Hd1 & Hf1 & Hm1 & Hfr1 & Hls1
        & Hi1 & Hs1 & Hc1).
  destruct (list_free_spec st1 c new Hl1)
    as (st2 & Lc' & Hrun2 & HLc2 & Hin & Hout & Hc2 & Hls2 & Hi2 & Hs2);
    [unfold NULL; lia|].
  assert (Lc' = Lc) as -> by congruence.
  exists st2. split.
  { erewrite run_bind by exact Hrun. exact Hrun2. }
  split.
  { apply map_eq. intros q. destruct (decide (q ∈ new)) as [Hq|Hq].
    - rewrite Hin by done.
      by destruct (Hus q ltac:(set_solver)) as (_ & -> & _).
    - by rewrite Hout, Hfr1. }
  split.
  { rewrite Hls2. apply map_eq. intros l'.
    destruct (decide (l' = c)) as [->|Hl'].
    - by rewrite lookup_delete_eq.
    - by rewrite lookup_delete_ne, Hls1. }
  split; [congruence|]. split; [congruence|].
  by rewrite Hc2, Hc1, Hf1, Hv1, <- app_assoc.
Qed.

(** *** The extra properties at work on the scenario *)

Lemma scenario_usable_200 : usable scenario_list 200.
Proof. vm_compute. repeat split; reflexivity. Qed.

Lemma clone_whole_start_is_list : is_list clone_whole_start 100 scenario_nodes.
Proof.
  apply (scenario_is_list_with _ 5 7 0); vm_compute; reflexivity.
Qed.

Lemma clone_whole_start_usable p :
  p ∈ [200; 300; 400; 500; 600] → usable clone_whole_start p.
Proof.
  intros Hp. repeat (apply elem_of_cons in Hp as [->|Hp]);
    [vm_compute; repeat split; reflexivity..|].
  apply elem_of_nil in Hp. destruct Hp.
Qed.

Lemma NoDup_200_to_600 : NoDup [200; 300; 400; 500; 600].
Proof.
  repeat (apply NoDup_cons; split;
          [rewrite ?not_elem_of_cons; repeat split;
           first [discriminate | apply not_elem_of_nil]|]).
  apply NoDup_nil_2.
Qed.

Lemma demo_copy_succeeds q :
  q ∈ scenario_nodes →
  demo_copy 5 (value_at (nodes clone_whole_start) q) ≠ NULL.
Proof.
  intros Hq. repeat (apply elem_of_cons in Hq as [->|Hq]);
    [vm_compute; discriminate..|].
  apply elem_of_nil in Hq. destruct Hq.
Qed.

Lemma list_add_head_prepends_witness :
  ∃ st', list_add_head 100 7 scenario_list = Done 100 st' ∧
    is_list st' 100 (200 :: scenario_nodes) ∧
    values (nodes st') (200 :: scenario_nodes)
      = 7 :: values (nodes scenario_list) scenario_nodes ∧
    (∀ q, q ∉ 200 :: scenario_nodes →
          nodes st' !! q = nodes scenario_list !! q) ∧
    (∀ l', l' ≠ 100 → lists st' !! l' = lists scenario_list !! l') ∧
    iters st' = iters scenario_list ∧ calls st' = calls scenario_list ∧
    script st' = [].
Proof.
  apply (list_add_head_prepends scenario_list 100 scenario_nodes 7 200 []).
  - exact (scenario_is_list scenario_list eq_refl eq_refl).
  - vm_compute. reflexivity.
  - vm_compute. repeat split; reflexivity.
Defined.

Lemma list_add_appends_witness :
  ∃ st', list_add 100 7 scenario_list = Done 100 st' ∧
    is_list st' 100 (scenario_nodes ++ [200]) ∧
    values (nodes st') (scenario_nodes ++ [200])
      = values (nodes scenario_list) scenario_nodes ++ [7] ∧
    (∀ q, q ∉ scenario_nodes ++ [200] →
          nodes st' !! q = nodes scenario_list !! q) ∧
    (∀ l', l' ≠ 100 → lists st' !! l' = lists scenario_list !! l') ∧
    iters st' = iters scenario_list ∧ calls st' = calls scenario_list ∧
    script st' = [].
Proof.
  apply (list_add_appends scenario_list 100 scenario_nodes 7 200 []).
  - exact (scenario_is_list scenario_list eq_refl eq_refl).
  - vm_compute. reflexivity.
  - vm_compute. repeat split; reflexivity.
Defined.

Lemma list_insert_position_witness :
  ∃ st', list_insert 100 20 7 1 scenario_list = Done 100 st' ∧
    is_list st' 100 [10; 20; 200; 30] ∧
    value_at (nodes st') 200 = 7 ∧
    (∀ q, q ∈ [10; 20; 30] →
          value_at (nodes st') q = value_at (nodes scenario_list) q) ∧
    (∀ q, q ∉ [200; 10; 20; 30] →
          nodes st' !! q = nodes scenario_list !! q) ∧
    (∀ l', l' ≠ 100 → lists st' !! l' = lists scenario_list !! l') ∧
    iters st' = iters scenario_list ∧ calls st' = calls scenario_list ∧
    script st' = [].
Proof.
  apply (list_insert_position scenario_list 100 [10] 20 [30] 7 1 200 []).
  - exact (scenario_is_list scenario_list eq_refl eq_refl).
  - vm_compute. reflexivity.
  - vm_compute. repeat split; reflexivity.
Defined.

Lemma list_insert_at_ends_witness :
  list_insert 100 10 7 0 scenario_list = list_add_head 100 7 scenario_list ∧
  (1 ≠ 0 →
   list_insert 100 30 7 1 scenario_list = list_add 100 7 scenario_list).
Proof.
  apply (list_insert_at_ends scenario_list 100 scenario_nodes 7 1 200 []).
  - exact (scenario_is_list scenario_list eq_refl eq_refl).
  - discriminate.
  - vm_compute. reflexivity.
  - vm_compute. repeat split; reflexivity.
Defined.

Lemma list_remove_unlinks_witness :
  ∃ st' L, list_remove 100 20 scenario_list = Done tt st' ∧
    lists scenario_list !! 100 = Some L ∧
    is_list st' 100 [10; 30] ∧
    nodes st' !! 20 = None ∧
    values (nodes st') [10; 30] = values (nodes scenario_list) [10; 30] ∧
    (∀ q, q ∉ [10; 20; 30] → nodes st' !! q = nodes scenario_list !! q) ∧
    (∀ l', l' ≠ 100 → lists st' !! l' = lists scenario_list !! l') ∧
    calls st' = calls scenario_list
                ++ free_events (free L) [value_at (nodes scenario_list) 20] ∧
    iters st' = iters scenario_list ∧ script st' = script scenario_list.
Proof.
  apply (list_remove_unlinks scenario_list 100 [10] 20 [30]).
  exact (scenario_is_list scenario_list eq_refl eq_refl).
Defined.

Lemma list_set_free_method_then_remove_witness :
  ∃ st', (list_set_free_method 100 7;; list_remove 100 20) scenario_list
           = Done tt st' ∧
    is_list st' 100 [10; 30] ∧
    nodes st' !! 20 = None ∧
    calls st' = calls scenario_list
                ++ free_events 7 [value_at (nodes scenario_list) 20].
Proof.
  apply (list_set_free_method_then_remove scenario_list 100 [10] 20 [30] 7).
  exact (scenario_is_list scenario_list eq_refl eq_refl).
Defined.

Lemma add_head_then_remove_restores_witness :
  ∃ st',
    (list_add_head 100 7;; n ← list_index 100 0; list_remove 100 n)
      scenario_list = Done tt st' ∧
    nodes st' = nodes scenario_list ∧ lists st' = lists scenario_list ∧
    iters st' = iters scenario_list ∧ script st' = [] ∧
    calls st' = calls scenario_list ++ free_events 0 [7].
Proof.
  apply (add_head_then_remove_restores scenario_list 100 scenario_nodes
           (mk_list 10 30 0 0 0 3) 7 200 []).
  - exact (scenario_is_list scenario_list eq_refl eq_refl).
  - vm_compute. reflexivity.
  - vm_compute. reflexivity.
  - vm_compute. repeat split; reflexivity.
Defined.

Lemma list_free_releases_witness :
  ∃ st' L, list_free 100 scenario_list = Done tt st' ∧
    lists scenario_list !! 100 = Some L ∧
    lists st' = delete 100 (lists scenario_list) ∧
    (∀ q, nodes st' !! q =
          if decide (q ∈ scenario_nodes) then None
          else nodes scenario_list !! q) ∧
    calls st' = calls scenario_list
                ++ free_events (free L)
                     (values (nodes scenario_list) scenario_nodes) ∧
    iters st' = iters scenario_list ∧ script st' = script scenario_list.
Proof.
  apply (list_free_releases scenario_list 100 scenario_nodes).
  - exact (scenario_is_list scenario_list eq_refl eq_refl).
  - discriminate.
Defined.

Lemma list_iterator_traversal_witness :
  ∃ st', (iter ← list_iterator 100 _START_TAIL; list_next_times 5 iter)
           scenario_list
           = Done (take 5 (iteration_order _START_TAIL scenario_nodes
                           ++ replicate 5 NULL)) st' ∧
    nodes st' = nodes scenario_list ∧ lists st' = lists scenario_list ∧
    calls st' = calls scenario_list ∧ script st' = [].
Proof.
  apply (list_iterator_traversal scenario_list 100 scenario_nodes
           _START_TAIL 200 [] 5).
  - exact (scenario_is_list scenario_list eq_refl eq_refl).
  - vm_compute. reflexivity.
  - vm_compute. repeat split; reflexivity.
Defined.

Lemma list_rewind_restarts_witness :
  ∃ st', (list_rewind 100 200;; list_next_times 4 200) scenario_iter
           = Done (take 4 (scenario_nodes ++ replicate 4 NULL)) st' ∧
    nodes st' = nodes scenario_iter ∧ lists st' = lists scenario_iter ∧
    calls st' = calls scenario_iter ∧ script st' = script scenario_iter.
Proof.
  apply (list_rewind_restarts scenario_iter 100 scenario_nodes 200
           (mk_iter 10 _START_HEAD) 4).
  - apply scenario_is_list; vm_compute; reflexivity.
  - vm_compute. reflexivity.
Defined.

Lemma list_rewind_tail_restarts_witness :
  ∃ st', (list_rewind_tail 100 200;; list_next_times 4 200) scenario_iter
           = Done (take 4 (reverse scenario_nodes ++ replicate 4 NULL)) st' ∧
    nodes st' = nodes scenario_iter ∧ lists st' = lists scenario_iter ∧
    calls st' = calls scenario_iter ∧ script st' = script scenario_iter.
Proof.
  apply (list_rewind_tail_restarts scenario_iter 100 scenario_nodes 200
           (mk_iter 10 _START_HEAD) 4).
  - apply scenario_is_list; vm_compute; reflexivity.
  - vm_compute. reflexivity.
Defined.


Lemma list_add_head_then_search_witness :
  ∃ st',
    (list_add_head 100 7;; list_search demo_match 5 100 2) scenario_two
      = Done (if value_matches demo_match 0 7 2 then 200
              else first_match
                     (λ q, value_matches demo_match 0
                             (value_at (nodes scenario_two) q) 2)
                     scenario_nodes)
             st' ∧
    is_list st' 100 (200 :: scenario_nodes) ∧ script st' = [].
Proof.
  apply (list_add_head_then_search demo_match scenario_two 100 scenario_nodes
           (mk_list 10 30 0 0 0 3) 7 2 200 300 [] 5).
  - apply scenario_is_list; vm_compute; reflexivity.
  - vm_compute. reflexivity.
  - vm_compute. reflexivity.
  - vm_compute. repeat split; reflexivity.
  - vm_compute. repeat split; reflexivity.
  - discriminate.
  - simpl. lia.
Defined.

Lemma list_clone_copies_witness :
  ∃ st' Lc,
    list_clone demo_copy 4 100 clone_whole_start = Done 200 st' ∧
    is_list st' 200 [400; 500; 600] ∧
    values (nodes st') [400; 500; 600]
      = copied_value demo_copy 5
          <$> values (nodes clone_whole_start) scenario_nodes ∧
    lists st' !! 200 = Some Lc ∧
    dup Lc = 5 ∧ free Lc = 7 ∧ match_fn Lc = 0 ∧
    is_list st' 100 scenario_nodes ∧
    lists st' !! 100 = Some (mk_list 10 30 5 7 0 3) ∧
    values (nodes st') scenario_nodes
      = values (nodes clone_whole_start) scenario_nodes ∧
    (∀ q, q ∉ [400; 500; 600] →
          nodes st' !! q = nodes clone_whole_start !! q) ∧
    (∀ l', l' ≠ 200 → lists st' !! l' = lists clone_whole_start !! l') ∧
    iters st' = iters clone_whole_start ∧ script st' = [] ∧
    calls st' = calls clone_whole_start
                ++ dup_events demo_copy 5
                     (values (nodes clone_whole_start) scenario_nodes).
Proof.
  apply (list_clone_copies demo_copy 4 clone_whole_start 100 scenario_nodes
           (mk_list 10 30 5 7 0 3) 200 300 [400; 500; 600] []).
  - exact clone_whole_start_is_list.
  - vm_compute. reflexivity.
  - vm_compute. reflexivity.
  - exact NoDup_200_to_600.
  - exact clone_whole_start_usable.
  - reflexivity.
  - intros _. exact demo_copy_succeeds.
  - simpl. lia.
Defined.

Lemma list_clone_then_free_witness :
  ∃ st',
    (copy ← list_clone demo_copy 4 100; list_free copy) clone_whole_start
      = Done tt st' ∧
    nodes st' = nodes clone_whole_start ∧
    lists st' = lists clone_whole_start ∧
    iters st' = iters clone_whole_start ∧ script st' = [] ∧
    calls st' = calls clone_whole_start
      ++ dup_events demo_copy 5
           (values (nodes clone_whole_start) scenario_nodes)
      ++ free_events 7
           (copied_value demo_copy 5
              <$> values (nodes clone_whole_start) scenario_nodes).
Proof.
  apply (list_clone_then_free demo_copy 4 clone_whole_start 100 scenario_nodes
           (mk_list 10 30 5 7 0 3) 200 300 [400; 500; 600] []).
  - exact clone_whole_start_is_list.
  - vm_compute. reflexivity.
  - vm_compute. reflexivity.
  - exact NoDup_200_to_600.
  - exact clone_whole_start_usable.
  - reflexivity.
  - intros _. exact demo_copy_succeeds.
  - simpl. lia.
Defined.
